(** * token_iterator: a bidirectional cursor over libclang tokens

    Shallow embedding of [src/token_iterator.cpp].  The libclang lexer is an
    external collaborator: it is taken as a parameter (record [Lexer]).  The
    token handles ([CXToken*] owned through [std::unique_ptr]) live in an
    explicit heap, and every call of [clang_getToken] and
    [clang_disposeTokens] is recorded in a trace, so that ownership and the
    number of oracle queries can be stated.  The assertions are those of a
    debug build: a failed [assert] ends the run ([Halt]), which keeps the
    trace of the calls made until then. *)

From Stdlib Require Import Arith Bool Ascii String Lia.
From stdpp Require Import base option list.

(** ** libclang data *)

(** Modelled from the spec: the handles [CXTranslationUnit] and [CXFile] of
    [clang-c/Index.h], which is not part of the sources.  They are opaque
    pointers; [0] is [nullptr]. *)
Definition CXTranslationUnit := nat.
Definition CXFile := nat.
Definition nullptr : nat := 0.

(** Modelled from the spec: [CXSourceLocation] of [clang-c/Index.h].  A
    source location resolves to a file handle and a byte offset.  Offsets are
    [unsigned int] in the source; the only arithmetic on them is a decrement
    guarded by [assert(offset > 0)], so they are modelled as [nat]. *)
Record CXSourceLocation := mkLoc { loc_file : CXFile; loc_offset : nat }.

(** Modelled from the spec: [CXSourceRange], the extent [[start, end)] of a
    token, and the projections of its end points. *)
Record CXSourceRange := mkRange
  { begin_loc : CXSourceLocation; end_loc : CXSourceLocation }.

Definition clang_getRangeStart (r : CXSourceRange) : CXSourceLocation := begin_loc r.
Definition clang_getRangeEnd (r : CXSourceRange) : CXSourceLocation := end_loc r.

(** Modelled from the spec: [equal_locations(a, b)] compares two locations
    for exact equality. *)
Definition clang_equalLocations (a b : CXSourceLocation) : bool :=
  Nat.eqb (loc_file a) (loc_file b) && Nat.eqb (loc_offset a) (loc_offset b).

(** Modelled from the spec: [spelling_location(loc)] resolves a location to
    a file handle and a byte offset (line and column are not asked for). *)
Definition clang_getSpellingLocation (l : CXSourceLocation) : CXFile * nat :=
  (loc_file l, loc_offset l).

(** Modelled from the spec: [location_for_offset(tu, file, offset)] returns
    the source location of that byte of the file. *)
Definition clang_getLocationForOffset
    (t : CXTranslationUnit) (file : CXFile) (offset : nat) : CXSourceLocation :=
  mkLoc file offset.

(** Modelled from the spec: the C-locale whitespace predicate on raw bytes,
    [std::isspace]: space, and the controls \t \n \v \f \r. *)
Definition isspace (c : ascii) : bool :=
  let n := nat_of_ascii c in
  Nat.eqb n 32 || (Nat.leb 9 n && Nat.leb n 13).

(** The lexer proper is a parameter: what [clang_getToken] finds at a
    location (before a handle is allocated for it), the extent
    [clang_getTokenExtent] gives for a token, and the raw bytes
    [clang_getFileContents] gives for a file. *)
Record Lexer := mkLexer {
  CXToken : Type;
  lex_getToken : CXTranslationUnit -> CXSourceLocation -> option CXToken;
  lex_getTokenExtent : CXTranslationUnit -> CXToken -> CXSourceRange;
  lex_getFileContents : CXTranslationUnit -> CXFile -> option (list ascii)
}.

(** ** Effects: heap of token handles, trace of lexer calls, assertions *)

(** Why a run stopped: an [assert] of the source, a checked [gsl::span]
    access, or the use of a token handle that was already disposed. *)
Inductive halt : Set :=
| assert_m_tok
| assert_tu
| assert_file
| assert_offset_gt_0
| assert_file_buffer
| assert_offset_lt_file_size
| span_out_of_bounds
| dangling_token
| out_of_fuel.

Inductive event : Set :=
| EvGetToken (t : CXTranslationUnit) (l : CXSourceLocation)
| EvDispose (t : CXTranslationUnit) (p : nat).

(** How a run ends: with a value, or stopped for the reason [h] after the
    lexer calls [tr]. *)
Inductive result (A : Type) : Type :=
| Ok (a : A)
| Halt (h : halt) (tr : list event).
Arguments Ok {A} a.
Arguments Halt {A} h tr.

(** The locations at which [clang_getToken] was called, oldest first. *)
Fixpoint queries (tr : list event) : list CXSourceLocation :=
  match tr with
  | [] => []
  | EvGetToken _ l :: tr' => l :: queries tr'
  | EvDispose _ _ :: tr' => queries tr'
  end.

Section Cursor.

Context (L : Lexer).

(** A [CXToken*] is an index into [heap]; a disposed cell holds [None]. *)
Record lex_state := mkState {
  heap : list (option (CXToken L));
  trace : list event
}.

Definition M (A : Type) : Type := lex_state -> result (A * lex_state).

Definition ret {A} (a : A) : M A := fun s => Ok (a, s).

Definition bind {A B} (m : M A) (k : A -> M B) : M B :=
  fun s => match m s with
           | Ok (a, s') => k a s'
           | Halt h tr => Halt h tr
           end.

Definition stop {A} (h : halt) : M A := fun s => Halt h (trace s).

Definition assert (b : bool) (h : halt) : M unit :=
  if b then ret tt else stop h.

Definition log (e : event) : M unit :=
  fun s => Ok (tt, mkState (heap s) (trace s ++ [e])).

Definition alloc (tok : CXToken L) : M nat :=
  fun s => Ok (length (heap s), mkState (heap s ++ [Some tok]) (trace s)).

Definition deref (p : nat) : M (CXToken L) :=
  fun s => match heap s !! p with
           | Some (Some tok) => Ok (tok, s)
           | _ => Halt dangling_token (trace s)
           end.

Definition free (p : nat) : M unit :=
  fun s => match heap s !! p with
           | Some (Some _) => Ok (tt, mkState (<[p := None]> (heap s)) (trace s))
           | _ => Halt dangling_token (trace s)
           end.

End Cursor.

Arguments ret {L A} a.
Arguments bind {L A B} m k.
Arguments stop {L A} h.
Arguments assert {L} b h.
Arguments log {L} e.
Arguments heap {L} l.
Arguments trace {L} l.
Arguments mkState {L} heap trace.
Arguments alloc {L} tok.
Arguments deref {L} p.
Arguments free {L} p.

Notation "x <- c1 ;; c2" := (bind c1 (fun x => c2))
  (at level 100, c1 at next level, right associativity).
Notation "c1 ;; c2" := (bind c1 (fun _ => c2))
  (at level 100, right associativity).

(** [gsl::span<const char>] over the file buffer: where it starts (as an
    offset from [file_buffer]) and how many bytes it has. *)
Record span := mkSpan { sp_data : nat; sp_size : nat }.

Definition span_empty (s : span) : bool := Nat.eqb (sp_size s) 0.

(** The spans that [first(n)], [last(n)] and [subspan(k)] return when their
    arguments are in range. *)
Definition first_of (s : span) (n : nat) : span := mkSpan (sp_data s) n.
Definition last_of (s : span) (n : nat) : span :=
  mkSpan (sp_data s + (sp_size s - n)) n.
Definition subspan_of (s : span) (k : nat) : span :=
  mkSpan (sp_data s + k) (sp_size s - k).

(** The bytes a span views. *)
Definition span_bytes (file_buffer : list ascii) (s : span) : list ascii :=
  take (sp_size s) (drop (sp_data s) file_buffer).

(** [std::distance(first, std::find_if(first, last, p))]. *)
Fixpoint find_if {A} (p : A -> bool) (l : list A) : nat :=
  match l with
  | [] => 0
  | x :: l' => if p x then 0 else S (find_if p l')
  end.

(** ** The libclang calls that touch token handles *)

Section TokenIterator.

Context (L : Lexer).

(** [gsl/gsl] is not part of the sources.  The member functions [first],
    [last], [subspan] and [operator[]] of its [span] check their arguments
    ([Expects]: [count <= size()], [offset <= size()], [idx < size()]); a
    failed check ends the run.  [span_at s idx] is [&s[idx]], as a distance
    from [file_buffer]; [search_span[offset]] of step 1 is the lookup in
    [file_buffer] there. *)
Definition span_first (s : span) (count : nat) : M L span :=
  assert (Nat.leb count (sp_size s)) span_out_of_bounds ;;
  ret (first_of s count).

Definition span_last (s : span) (count : nat) : M L span :=
  assert (Nat.leb count (sp_size s)) span_out_of_bounds ;;
  ret (last_of s count).

Definition span_subspan (s : span) (offset : nat) : M L span :=
  assert (Nat.leb offset (sp_size s)) span_out_of_bounds ;;
  ret (subspan_of s offset).

Definition span_at (s : span) (idx : nat) : M L nat :=
  assert (Nat.ltb idx (sp_size s)) span_out_of_bounds ;;
  ret (sp_data s + idx).

(** Modelled from the spec: [token_at(tu, loc)] returns the token covering
    the source location, or an absent value if none.  [clang_getToken] is
    one oracle query; a found token gets a fresh handle, [NULL] (here
    [None]) is returned when the lexer has no token there. *)
Definition clang_getToken (t : CXTranslationUnit) (loc : CXSourceLocation)
  : M L (option nat) :=
  log (EvGetToken t loc) ;;
  match lex_getToken L t loc with
  | Some tok => p <- alloc tok ;; ret (Some p)
  | None => ret None
  end.

(** Modelled from the spec: [dispose_token(tu, tok)] releases one token
    handle, [clang_disposeTokens(tu, tok, 1)]. *)
Definition clang_disposeTokens (t : CXTranslationUnit) (p : nat) : M L unit :=
  log (EvDispose t p) ;; free p.

(** Modelled from the spec: [token_extent(tu, tok)] returns the extent of a
    token; the handle must be live. *)
Definition clang_getTokenExtent (t : CXTranslationUnit) (p : nat) : M L CXSourceRange :=
  tok <- deref p ;; ret (lex_getTokenExtent L t tok).

(** ** [token_iterator] *)

(** [token_deleter]: the translation unit the token is disposed on. *)
Record token_deleter := mkDeleter { deleter_tu : CXTranslationUnit }.

(** [token_deleter::operator()]. *)
Definition token_deleter_call (d : token_deleter) (tok : option nat) : M L unit :=
  match tok with
  | Some p =>
      assert (negb (Nat.eqb (deleter_tu d) nullptr)) assert_tu ;;
      clang_disposeTokens (deleter_tu d) p
  | None => ret tt
  end.

(** [std::unique_ptr<CXToken, token_deleter>]. *)
Record unique_token := mkUnique { ut_get : option nat; ut_deleter : token_deleter }.

(** [unique_token{}]: null pointer, default deleter. *)
Definition unique_token_null : unique_token := mkUnique None (mkDeleter nullptr).

(** [u.reset(p)]: the pointer is replaced, then the old one is deleted with
    the deleter of [u], which is kept. *)
Definition unique_token_reset (u : unique_token) (p : option nat) : M L unique_token :=
  token_deleter_call (ut_deleter u) (ut_get u) ;;
  ret (mkUnique p (ut_deleter u)).

(** [u = std::move(v)] where [v] is another object than [u], as are the
    temporaries and locals this file assigns from: [reset(v.release())], then
    the deleter of [v] is taken. *)
Definition unique_token_move_assign (u v : unique_token) : M L unique_token :=
  u' <- unique_token_reset u (ut_get v) ;;
  ret (mkUnique (ut_get u') (ut_deleter v)).

(** [u = std::move(u)]: [release()] empties [u] and hands its pointer to
    [reset], which finds no old pointer to delete and stores the pointer
    back. *)
Definition unique_token_move_assign_self (u : unique_token) : M L unique_token :=
  let p := ut_get u in
  u' <- unique_token_reset (mkUnique None (ut_deleter u)) p ;;
  ret (mkUnique (ut_get u') (ut_deleter u)).

(** The destructor of a [unique_token]. *)
Definition unique_token_destroy (u : unique_token) : M L unit :=
  token_deleter_call (ut_deleter u) (ut_get u).

Record token_iterator := mkIterator { m_tok : unique_token }.

(** [bool(m_tok)]. *)
Definition has_token (it : token_iterator) : bool :=
  match ut_get (m_tok it) with Some _ => true | None => false end.

Definition tu (it : token_iterator) : M L CXTranslationUnit :=
  assert (has_token it) assert_m_tok ;;
  ret (deleter_tu (ut_deleter (m_tok it))).

Definition extent (it : token_iterator) : M L CXSourceRange :=
  assert (has_token it) assert_m_tok ;;
  t <- tu it ;;
  match ut_get (m_tok it) with
  | Some p => clang_getTokenExtent t p
  | None => stop assert_m_tok
  end.

Definition clone (it : token_iterator) : M L unique_token :=
  if negb (has_token it) then ret unique_token_null
  else
    t <- tu it ;;
    e <- extent it ;;
    p <- clang_getToken t (clang_getRangeStart e) ;;
    t' <- tu it ;;
    ret (mkUnique p (mkDeleter t')).

(** The end sentinel, [token_iterator() = default]. *)
Definition end_sentinel : token_iterator := mkIterator unique_token_null.

(** [token_iterator(CXTranslationUnit tu, const CURSOR_LOCATION &loc)]. *)
Definition construct (t : CXTranslationUnit) (loc : CXSourceLocation) : M L token_iterator :=
  p <- clang_getToken t loc ;;
  ret (mkIterator (mkUnique p (mkDeleter t))).

(** [token_iterator(const token_iterator &other)]. *)
Definition copy_construct (other : token_iterator) : M L token_iterator :=
  u <- clone other ;;
  ret (mkIterator u).

(** [operator=(const token_iterator &other)]; [other] may be [*this]. *)
Definition copy_assign (this other : token_iterator) : M L token_iterator :=
  u <- clone other ;;
  u' <- unique_token_move_assign (m_tok this) u ;;
  ret (mkIterator u').

(** [operator=(token_iterator &&other)], for an [other] that is another
    object than [*this]. *)
Definition move_assign (this other : token_iterator) : M L token_iterator :=
  u' <- unique_token_move_assign (m_tok this) (m_tok other) ;;
  ret (mkIterator u').

(** [operator=(token_iterator &&other)] when [other] is [*this]. *)
Definition move_assign_self (this : token_iterator) : M L token_iterator :=
  u' <- unique_token_move_assign_self (m_tok this) ;;
  ret (mkIterator u').

Definition operator_inc (it : token_iterator) : M L token_iterator :=
  assert (has_token it) assert_m_tok ;;
  prev_extent <- extent it ;;
  let prev_end := clang_getRangeEnd prev_extent in
  t <- tu it ;;
  p <- clang_getToken t prev_end ;;
  u <- unique_token_reset (m_tok it) p ;;
  ret (mkIterator u).

Definition is_end_sentinel (it : token_iterator) : bool := negb (has_token it).

Definition operator_eq (this other : token_iterator) : M L bool :=
  if negb (Bool.eqb (has_token this) (has_token other)) then ret false
  else if negb (has_token this) then ret true
  else
    t1 <- tu this ;;
    t2 <- tu other ;;
    if Nat.eqb t1 t2 then
      e1 <- extent this ;;
      e2 <- extent other ;;
      ret (clang_equalLocations (clang_getRangeEnd e1) (clang_getRangeEnd e2))
    else ret false.

(** *** The reverse step *)

(** What step 1 hands over to step 2: the offset it stopped at, the
    candidate token, and the end location that identifies it. *)
Record step1_result := mkStep1
  { s1_offset : nat; s1_candidate : unique_token; s1_end : CXSourceLocation }.

(** Step 1, the [while (true)] loop: [offset] is decremented until the lexer
    binds the end to a different position.  The recursion is on [offset],
    which the loop decrements after asserting that it is positive. *)
Fixpoint step1 (t : CXTranslationUnit) (file : CXFile) (file_buffer : list ascii)
    (curr_end : CXSourceLocation) (offset : nat) (candidate_tok : unique_token)
  : M L step1_result :=
  match offset with
  | 0 => stop assert_offset_gt_0
  | S offset' =>
      match file_buffer !! offset' with
      | None => stop span_out_of_bounds
      | Some c =>
          if isspace c then
            step1 t file file_buffer curr_end offset' candidate_tok
          else
            let candidate_loc := clang_getLocationForOffset t file offset' in
            p <- clang_getToken t candidate_loc ;;
            candidate_tok' <- unique_token_reset candidate_tok p ;;
            match p with
            | Some h =>
                e <- clang_getTokenExtent t h ;;
                let candidate_end := clang_getRangeEnd e in
                if negb (clang_equalLocations candidate_end curr_end) then
                  ret (mkStep1 offset' candidate_tok' candidate_end)
                else step1 t file file_buffer curr_end offset' candidate_tok'
            | None => step1 t file file_buffer curr_end offset' candidate_tok'
            end
      end
  end.

(** The lambda [consider_next_candidate]; [pos] is given as its distance from
    [file_buffer].  Every [pos] the search passes lies below the
    [unsigned int] offset step 1 stopped at, so [gsl::narrow<unsigned int>]
    does not fail on it and is left out.  The lambda returns its verdict and
    the candidate token, which it replaces when the verdict is [true]. *)
Definition consider_next_candidate (t : CXTranslationUnit) (file : CXFile)
    (candidate_end : CXSourceLocation) (candidate_tok : unique_token) (pos : nat)
  : M L (bool * unique_token) :=
  let offset := pos in
  let next_candidate_loc := clang_getLocationForOffset t file offset in
  p <- clang_getToken t next_candidate_loc ;;
  let next_candidate_tok := mkUnique p (mkDeleter t) in
  match p with
  | Some h =>
      e <- clang_getTokenExtent t h ;;
      let next_candidate_end := clang_getRangeEnd e in
      if negb (clang_equalLocations next_candidate_end candidate_end) then
        unique_token_destroy next_candidate_tok ;;
        ret (false, candidate_tok)
      else
        candidate_tok' <- unique_token_move_assign candidate_tok next_candidate_tok ;;
        ret (true, candidate_tok')
  | None => ret (false, candidate_tok)
  end.

(** The binary search, [while (!search_span.empty())].  Each round shrinks
    the span, so [sp_size] rounds are always enough ([fuel] is set to that by
    [step2]). *)
Fixpoint step2_loop (fuel : nat) (t : CXTranslationUnit) (file : CXFile)
    (candidate_end : CXSourceLocation) (search_span : span)
    (candidate_tok : unique_token) : M L unique_token :=
  if span_empty search_span then ret candidate_tok
  else
    match fuel with
    | 0 => stop out_of_fuel
    | S fuel' =>
        let mid_pos := sp_size search_span / 2 in
        pos <- span_at search_span mid_pos ;;
        r <- consider_next_candidate t file candidate_end candidate_tok pos ;;
        if fst r then
          search_span' <- span_first search_span mid_pos ;;
          step2_loop fuel' t file candidate_end search_span' (snd r)
        else
          search_span' <- span_subspan search_span (mid_pos + 1) ;;
          step2_loop fuel' t file candidate_end search_span' (snd r)
    end.

(** The span step 2 searches when [offset] lies in the buffer: the
    non-whitespace bytes that end just before [offset]. *)
Definition step2_span (file_buffer : list ascii) (offset : nat) : span :=
  let search_span := first_of (mkSpan 0 (length file_buffer)) offset in
  let str_length := find_if isspace (reverse (span_bytes file_buffer search_span)) in
  last_of search_span str_length.

(** Step 2: find the beginning of the candidate token. *)
Definition step2 (t : CXTranslationUnit) (file : CXFile) (file_buffer : list ascii)
    (candidate_end : CXSourceLocation) (offset : nat) (candidate_tok : unique_token)
  : M L unique_token :=
  search_span <- span_first (mkSpan 0 (length file_buffer)) offset ;;
  let str_length := find_if isspace (reverse (span_bytes file_buffer search_span)) in
  search_span <- span_last search_span str_length ;;
  if negb (span_empty search_span) then
    r <- consider_next_candidate t file candidate_end candidate_tok
           (sp_data search_span) ;;
    if fst r then ret (snd r)
    else
      search_span <- span_subspan search_span 1 ;;
      step2_loop (sp_size search_span) t file candidate_end search_span (snd r)
  else ret candidate_tok.

Definition operator_dec (it : token_iterator) : M L token_iterator :=
  assert (has_token it) assert_m_tok ;;
  curr_extent <- extent it ;;
  let curr_start := clang_getRangeStart curr_extent in
  let curr_end := clang_getRangeEnd curr_extent in
  let file := fst (clang_getSpellingLocation curr_start) in
  let offset := snd (clang_getSpellingLocation curr_start) in
  assert (negb (Nat.eqb file nullptr)) assert_file ;;
  assert (Nat.ltb 0 offset) assert_offset_gt_0 ;;
  t <- tu it ;;
  match lex_getFileContents L t file with
  | None => stop assert_file_buffer
  | Some file_buffer =>
      assert (Nat.ltb offset (length file_buffer)) assert_offset_lt_file_size ;;
      r <- step1 t file file_buffer curr_end offset (mkUnique None (mkDeleter t)) ;;
      candidate_tok <- step2 t file file_buffer (s1_end r) (s1_offset r) (s1_candidate r) ;;
      u <- unique_token_move_assign (m_tok it) candidate_tok ;;
      ret (mkIterator u)
  end.

(** *** The remaining members *)

(** [operator!=]. *)
Definition operator_ne (this other : token_iterator) : M L bool :=
  b <- operator_eq this other ;; ret (negb b).

(** [operator bool]. *)
Definition operator_bool (it : token_iterator) : bool := negb (is_end_sentinel it).

(** [operator*]: the token behind the handle. *)
Definition operator_star (it : token_iterator) : M L (CXToken L) :=
  assert (has_token it) assert_m_tok ;;
  match ut_get (m_tok it) with
  | Some p => deref p
  | None => stop assert_m_tok
  end.

(** [operator->]: the handle itself, [m_tok.get()]. *)
Definition operator_arrow (it : token_iterator) : M L nat :=
  assert (has_token it) assert_m_tok ;;
  match ut_get (m_tok it) with
  | Some p => ret p
  | None => stop assert_m_tok
  end.

(** [operator++(int)]: the value returned, and the cursor afterwards. *)
Definition operator_inc_post (this : token_iterator)
  : M L (token_iterator * token_iterator) :=
  temp <- copy_construct this ;;
  this' <- operator_inc this ;;
  ret (temp, this').

(** [operator--(int)]: the value returned, and the cursor afterwards. *)
Definition operator_dec_post (this : token_iterator)
  : M L (token_iterator * token_iterator) :=
  temp <- copy_construct this ;;
  this' <- operator_dec this ;;
  ret (temp, this').

(** What a moved-from cursor is left as: [release()] has nulled its
    pointer, its deleter is untouched. *)
Definition moved_from (other : token_iterator) : token_iterator :=
  mkIterator (mkUnique None (ut_deleter (m_tok other))).

(** [token_iterator(token_iterator &&other)]: the new cursor, and [other]
    afterwards. *)
Definition move_construct (other : token_iterator) : token_iterator * token_iterator :=
  (mkIterator (mkUnique (ut_get (m_tok other)) (ut_deleter (m_tok other))),
   moved_from other).

(** [operator=(token_iterator &&other)] for an [other] that is another
    object than [*this]: [*this] and [other] afterwards. *)
Definition move_assign_from (this other : token_iterator)
  : M L (token_iterator * token_iterator) :=
  this' <- move_assign this other ;;
  ret (this', moved_from other).

(** The destructor of a cursor: that of its [unique_token]. *)
Definition destroy (it : token_iterator) : M L unit :=
  unique_token_destroy (m_tok it).

End TokenIterator.

(** ** Observations on runs *)

(** The byte at [q] is whitespace. *)
Definition space_at (file_buffer : list ascii) (q : nat) : bool :=
  match file_buffer !! q with Some c => isspace c | None => false end.

(** The offsets from [offset - 1] down to [p]. *)
Fixpoint down_to (p offset : nat) : list nat :=
  match offset with
  | 0 => []
  | S o => if Nat.ltb o p then [] else o :: down_to p o
  end.

Section Observations.

Context (L : Lexer).

(** The handle [h] is live and holds [tok]. *)
Definition live (s : lex_state L) (h : nat) (tok : CXToken L) : Prop :=
  heap s !! h = Some (Some tok).

(** The token behind a [unique_token], if it has one that is still live. *)
Definition token_of (s : lex_state L) (u : unique_token) : option (CXToken L) :=
  match ut_get u with
  | Some h => match heap s !! h with Some (Some tok) => Some tok | _ => None end
  | None => None
  end.

(** The token a cursor holds. *)
Definition held (s : lex_state L) (it : token_iterator) : option (CXToken L) :=
  token_of s (m_tok it).

Definition iterator_tu (it : token_iterator) : CXTranslationUnit :=
  deleter_tu (ut_deleter (m_tok it)).

(** The end location of the extent of [tok]. *)
Definition token_end (t : CXTranslationUnit) (tok : CXToken L) : CXSourceLocation :=
  clang_getRangeEnd (lex_getTokenExtent L t tok).

Definition token_start (t : CXTranslationUnit) (tok : CXToken L) : CXSourceLocation :=
  clang_getRangeStart (lex_getTokenExtent L t tok).

(** The oracle [token_at] at a byte offset of [file]. *)
Definition token_at (t : CXTranslationUnit) (file : CXFile) (q : nat) : option (CXToken L) :=
  lex_getToken L t (clang_getLocationForOffset t file q).

(** The end location of the token the oracle yields at offset [q]. *)
Definition end_at (t : CXTranslationUnit) (file : CXFile) (q : nat) : option CXSourceLocation :=
  match token_at t file q with
  | Some tok => Some (token_end t tok)
  | None => None
  end.

(** The oracle yields at [q] a token whose end location is [e]. *)
Definition ends_at (t : CXTranslationUnit) (file : CXFile) (e : CXSourceLocation)
    (q : nat) : bool :=
  match end_at t file q with
  | Some e' => clang_equalLocations e' e
  | None => false
  end.

(** Every handle that was live in [s], except [o], is live in [s'] with the
    same token. *)
Definition frame_except (o : option nat) (s s' : lex_state L) : Prop :=
  forall h tok, Some h <> o -> live s h tok -> live s' h tok.

(** The run of [m] from [s] ends normally, in a result and state that
    satisfy [Q]. *)
Definition returns {A} (m : M L A) (s : lex_state L)
    (Q : A -> lex_state L -> Prop) : Prop :=
  match m s with
  | Ok (a, s') => Q a s'
  | Halt _ _ => False
  end.

(** The lexer calls made when a run has ended, whether it returned or
    stopped at an assertion. *)
Definition trace_of {A} (r : result (A * lex_state L)) : list event :=
  match r with
  | Ok (_, s') => trace s'
  | Halt _ tr => tr
  end.

(** *** Step 1, read off the buffer and the oracle *)

(** Step 1 stops at [q]: the byte is not whitespace and the oracle yields a
    token whose end differs from [curr_end]. *)
Definition is_stop (t : CXTranslationUnit) (file : CXFile) (file_buffer : list ascii)
    (curr_end : CXSourceLocation) (q : nat) : bool :=
  match file_buffer !! q with
  | Some c =>
      negb (isspace c) &&
      match end_at t file q with
      | Some e => negb (clang_equalLocations e curr_end)
      | None => false
      end
  | None => false
  end.

(** The offset step 1 stops at when started from [offset], if any. *)
Fixpoint step1_offset (t : CXTranslationUnit) (file : CXFile) (file_buffer : list ascii)
    (curr_end : CXSourceLocation) (offset : nat) : option nat :=
  match offset with
  | 0 => None
  | S offset' =>
      if is_stop t file file_buffer curr_end offset' then Some offset'
      else step1_offset t file file_buffer curr_end offset'
  end.

(** The offsets step 1 asks the oracle about, in the order it asks. *)
Fixpoint step1_probes (t : CXTranslationUnit) (file : CXFile) (file_buffer : list ascii)
    (curr_end : CXSourceLocation) (offset : nat) : list nat :=
  match offset with
  | 0 => []
  | S offset' =>
      match file_buffer !! offset' with
      | Some c =>
          if isspace c then step1_probes t file file_buffer curr_end offset'
          else if is_stop t file file_buffer curr_end offset' then [offset']
          else offset' :: step1_probes t file file_buffer curr_end offset'
      | None => []
      end
  end.

(** *** Step 2, read off the buffer and the oracle *)

(** The offset whose probe supplies the candidate the binary search ends
    with; [best] is the offset the current candidate was obtained at. *)
Fixpoint step2_loop_pos (fuel : nat) (ok : nat -> bool) (search_span : span)
    (best : nat) : nat :=
  if span_empty search_span then best
  else
    match fuel with
    | 0 => best
    | S fuel' =>
        let mid_pos := sp_size search_span / 2 in
        if ok (sp_data search_span + mid_pos) then
          step2_loop_pos fuel' ok (first_of search_span mid_pos)
            (sp_data search_span + mid_pos)
        else
          step2_loop_pos fuel' ok (subspan_of search_span (mid_pos + 1)) best
    end.

(** The offset whose probe supplies the token step 2 ends with, when step 1
    stopped at [offset]. *)
Definition step2_pos (ok : nat -> bool) (file_buffer : list ascii) (offset : nat) : nat :=
  let search_span := step2_span file_buffer offset in
  if negb (span_empty search_span) then
    if ok (sp_data search_span) then sp_data search_span
    else
      let search_span := subspan_of search_span 1 in
      step2_loop_pos (sp_size search_span) ok search_span offset
  else offset.

(** A cursor is valid in [s]: it is the end sentinel, or its handle is live. *)
Definition valid (s : lex_state L) (it : token_iterator) : Prop :=
  is_end_sentinel it = true \/ exists tok, held s it = Some tok.

(** The oracle, asked at the start location of [tok], yields a token with
    the end location of [tok]. *)
Definition requery_ok (t : CXTranslationUnit) (tok : CXToken L) : Prop :=
  exists tok', lex_getToken L t (token_start t tok) = Some tok' /\
               clang_equalLocations (token_end t tok') (token_end t tok) = true.

(** A cursor whose token can be released: the end sentinel, or a cursor with
    a live handle and a translation unit to dispose it on. *)
Definition releasable (s : lex_state L) (it : token_iterator) : Prop :=
  is_end_sentinel it = true \/
  ((exists tok, held s it = Some tok) /\ iterator_tu it <> nullptr).

(** In [s'], [c] is a copy of [other], which holds [tok]: it was obtained by
    one query at the start location of [tok], holds what the lexer found
    there through a handle of its own, and [other] still holds [tok]. *)
Definition copy_of (s s' : lex_state L) (c other : token_iterator)
    (tok : CXToken L) : Prop :=
  queries (trace s') = queries (trace s) ++ [token_start (iterator_tu other) tok] /\
  held s' c = lex_getToken L (iterator_tu other) (token_start (iterator_tu other) tok) /\
  iterator_tu c = iterator_tu other /\
  held s' other = Some tok /\
  ut_get (m_tok c) <> ut_get (m_tok other).

(** A [unique_token] of translation unit [t] whose handle, if any, is live. *)
Definition owned (t : CXTranslationUnit) (s : lex_state L) (u : unique_token) : Prop :=
  ut_deleter u = mkDeleter t /\
  match ut_get u with
  | Some h => exists tok, live s h tok
  | None => True
  end.

(** What a run that started in [s] leaves behind in [s']: the handles that
    were live, except [o], are untouched, the heap did not shrink, and the
    oracle was asked at the offsets [probes] of [file], in that order. *)
Definition run_effect (o : option nat) (file : CXFile) (probes : list nat)
    (s s' : lex_state L) : Prop :=
  frame_except o s s' /\
  length (heap s) <= length (heap s') /\
  exists evs, trace s' = trace s ++ evs /\
              queries evs = map (fun q => mkLoc file q) probes.

(** The outcome of step 1 when it stops at [p]. *)
Definition step1_post (t : CXTranslationUnit) (file : CXFile) (p : nat)
    (s : lex_state L) (r : step1_result) (s' : lex_state L) : Prop :=
  s1_offset r = p /\
  exists h tok,
    s1_candidate r = mkUnique (Some h) (mkDeleter t) /\
    live s' h tok /\ length (heap s) <= h /\
    token_at t file p = Some tok /\
    s1_end r = token_end t tok.

(** The candidate [u] of step 2 in [s]: a live handle of translation unit
    [t], allocated since [s0], for the token the oracle yields at offset
    [best]. *)
Definition candidate_at (t : CXTranslationUnit) (file : CXFile)
    (s0 s : lex_state L) (u : unique_token) (best : nat) : Prop :=
  exists h tok,
    u = mkUnique (Some h) (mkDeleter t) /\ live s h tok /\
    length (heap s0) <= h /\
    token_at t file best = Some tok.

(** [tok'] is the token the oracle yields at the smallest offset [q] of
    [lo .. p] at which it yields a token whose end location is [e]. *)
Definition smallest_match (t : CXTranslationUnit) (file : CXFile)
    (e : CXSourceLocation) (lo p : nat) (tok' : CXToken L) : Prop :=
  exists q, lo <= q <= p /\
            ends_at t file e q = true /\
            (forall q', lo <= q' < q -> ends_at t file e q' = false) /\
            token_at t file q = Some tok'.

(** The byte offset at which the token the oracle yields at [q] ends. *)
Definition end_offset_at (t : CXTranslationUnit) (file : CXFile) (q : nat) : option nat :=
  match token_at t file q with
  | Some tok => Some (loc_offset (token_end t tok))
  | None => None
  end.

(** What the cursor relies on from the lexer, for one file of a translation
    unit.  The oracle, asked at an offset, yields the token that covers it or
    else the next one; tokens lie in the file, and each has a byte that is
    not whitespace. *)
Record oracle_contract (t : CXTranslationUnit) (file : CXFile)
    (file_buffer : list ascii) : Prop := mkContract {
  (** the file has contents *)
  oc_contents : lex_getFileContents L t file = Some file_buffer;
  (** the extent of a token of the file lies in the file *)
  oc_in_file : forall q tok, token_at t file q = Some tok ->
    loc_file (token_start t tok) = file /\ loc_file (token_end t tok) = file;
  (** a token ends after the offset it was asked at, and inside the buffer *)
  oc_bounds : forall q e, end_offset_at t file q = Some e ->
    q < e <= length file_buffer;
  (** asked at the start location of a token, the oracle yields a token with
      the same end *)
  oc_requery : forall q tok, token_at t file q = Some tok ->
    end_offset_at t file (loc_offset (token_start t tok))
    = Some (loc_offset (token_end t tok));
  (** later offsets yield tokens that end later *)
  oc_mono : forall q q' e e', q <= q' ->
    end_offset_at t file q = Some e -> end_offset_at t file q' = Some e' -> e <= e';
  (** up to its end, a token is what the oracle yields *)
  oc_stable : forall q q' e, end_offset_at t file q = Some e -> q <= q' < e ->
    end_offset_at t file q' = Some e;
  (** before an offset that yields a token, every offset yields one *)
  oc_down : forall q q', q <= q' ->
    end_offset_at t file q' <> None -> end_offset_at t file q <> None;
  (** a token has a byte that is not whitespace, at which the oracle yields it *)
  oc_nonspace : forall q e, end_offset_at t file q = Some e ->
    exists r, r < e /\ space_at file_buffer r = false /\
              end_offset_at t file r = Some e
}.

(** *** Accounting for handles and queries *)

(** How many token handles are live. *)
Fixpoint count_live (hp : list (option (CXToken L))) : nat :=
  match hp with
  | [] => 0
  | Some _ :: hp' => S (count_live hp')
  | None :: hp' => count_live hp'
  end.

Definition live_count (s : lex_state L) : nat := count_live (heap s).

(** How many handles a [unique_token] owns: one, or none when it is null. *)
Definition owns (u : unique_token) : nat :=
  match ut_get u with Some _ => 1 | None => 0 end.

(** The translation units and handles of the [clang_disposeTokens] calls of
    a trace, oldest first. *)
Fixpoint disposals (tr : list event) : list (CXTranslationUnit * nat) :=
  match tr with
  | [] => []
  | EvGetToken _ _ :: tr' => disposals tr'
  | EvDispose t p :: tr' => (t, p) :: disposals tr'
  end.

(** The offsets the binary search of step 2 asks the oracle about, in the
    order it asks. *)
Fixpoint step2_loop_probes (fuel : nat) (ok : nat -> bool) (search_span : span)
  : list nat :=
  if span_empty search_span then []
  else
    match fuel with
    | 0 => []
    | S fuel' =>
        let mid_pos := sp_size search_span / 2 in
        (sp_data search_span + mid_pos) ::
        (if ok (sp_data search_span + mid_pos) then
           step2_loop_probes fuel' ok (first_of search_span mid_pos)
         else
           step2_loop_probes fuel' ok (subspan_of search_span (mid_pos + 1)))
    end.

(** The offsets step 2 asks the oracle about, when step 1 stopped at
    [offset]. *)
Definition step2_probes (ok : nat -> bool) (file_buffer : list ascii) (offset : nat)
  : list nat :=
  let search_span := step2_span file_buffer offset in
  if negb (span_empty search_span) then
    sp_data search_span ::
    (if ok (sp_data search_span) then []
     else
       let search_span := subspan_of search_span 1 in
       step2_loop_probes (sp_size search_span) ok search_span)
  else [].

(** The run from [s] to [s'] took [n_in] handles over from its arguments
    and hands [n_out] back: the live handles changed by the difference, and
    every handle disposed was disposed on the translation unit [t]. *)
Definition accounts (t : CXTranslationUnit) (s s' : lex_state L)
    (n_in n_out : nat) : Prop :=
  live_count s' + n_in = live_count s + n_out /\
  exists evs, trace s' = trace s ++ evs /\
              Forall (fun d => fst d = t) (disposals evs).

(** [tok] is a token of the file: the oracle yields it at some offset. *)
Definition file_token (t : CXTranslationUnit) (file : CXFile) (tok : CXToken L) : Prop :=
  exists q, token_at t file q = Some tok.

(** A cursor of the file: it holds, through a live handle of translation
    unit [t], a token of the file that ends at offset [E]. *)
Definition stands_at (t : CXTranslationUnit) (file : CXFile)
    (s : lex_state L) (it : token_iterator) (E : nat) : Prop :=
  exists h tok, it = mkIterator (mkUnique (Some h) (mkDeleter t)) /\
                live s h tok /\ file_token t file tok /\
                loc_offset (token_end t tok) = E.

End Observations.

Arguments returns {L A} m s Q.

(** ** An example lexer *)

(** The one translation unit and the one file of the example lexer. *)
Definition example_tu : CXTranslationUnit := 1.
Definition example_file : CXFile := 1.

(** Modelled from the spec: the lexer oracle [token_at] of the external
    interface, for one translation unit with one file whose tokens are given
    as a table of extents [(begin, end)] in source order.  A query inside a
    token yields the token itself, a query in the gap before a token yields
    that token (the next one); past the last token there is none. *)
Definition example_getToken (toks : list (nat * nat))
    (t : CXTranslationUnit) (loc : CXSourceLocation) : option (nat * nat) :=
  if Nat.eqb t example_tu && Nat.eqb (loc_file loc) example_file then
    match List.find (fun se => Nat.ltb (loc_offset loc) (snd se)) toks with
    | Some se => Some se
    | None => None
    end
  else None.

(** Modelled from the spec: a lexer for the source text [src] with the token
    table [toks]; a token is its extent, as a pair of byte offsets. *)
Definition example_lexer (src : string) (toks : list (nat * nat)) : Lexer :=
  {| CXToken := nat * nat;
     lex_getToken := example_getToken toks;
     lex_getTokenExtent := fun _ tok =>
       mkRange (mkLoc example_file (fst tok)) (mkLoc example_file (snd tok));
     lex_getFileContents := fun t f =>
       if Nat.eqb t example_tu && Nat.eqb f example_file
       then Some (list_ascii_of_string src) else None |}.

(** A token table the example lexer makes sense for: the extents are not
    empty, follow each other from offset [lo] on without overlap, lie in the
    buffer, and each begins with a byte that is not whitespace. *)
Fixpoint table_ok (file_buffer : list ascii) (lo : nat) (toks : list (nat * nat)) : bool :=
  match toks with
  | [] => true
  | se :: rest =>
      Nat.leb lo (fst se) && Nat.ltb (fst se) (snd se) &&
      Nat.leb (snd se) (length file_buffer) &&
      negb (space_at file_buffer (fst se)) &&
      table_ok file_buffer (snd se) rest
  end.

Definition init_state (L : Lexer) : lex_state L := mkState [] [].

(** Scenario S2, source [a··+··b]. *)
Definition lexer_S2 : Lexer := example_lexer "a  +  b" [(0, 1); (3, 4); (6, 7)].

(** Source [/* c */y], comments reported as tokens. *)
Definition lexer_comment : Lexer := example_lexer "/* c */y" [(0, 7); (7, 8)].

(** The other scenarios of the specification: S1 [int·x;], S3 [foo(bar)],
    S4 [x/*c*/y] with comments reported as tokens, S5 [z]. *)
Definition lexer_S1 : Lexer := example_lexer "int x;" [(0, 3); (4, 5); (5, 6)].
Definition lexer_S3 : Lexer := example_lexer "foo(bar)" [(0, 3); (3, 4); (4, 7); (7, 8)].
Definition lexer_S4 : Lexer := example_lexer "x/*c*/y" [(0, 1); (1, 6); (6, 7)].
Definition lexer_S5 : Lexer := example_lexer "z" [(0, 1)].

(** The token a cursor holds at the end of a run from the initial state. *)
Definition token_after {L : Lexer} (m : M L token_iterator)
  : result (option (CXToken L)) :=
  match m (init_state L) with
  | Ok (it, s) => Ok (held L s it)
  | Halt h tr => Halt h tr
  end.

(** [n] reverse steps, [n] forward steps. *)
Fixpoint dec_times (L : Lexer) (n : nat) (it : token_iterator) : M L token_iterator :=
  match n with
  | 0 => ret it
  | S n' => it' <- operator_dec L it ;; dec_times L n' it'
  end.

Fixpoint inc_times (L : Lexer) (n : nat) (it : token_iterator) : M L token_iterator :=
  match n with
  | 0 => ret it
  | S n' => it' <- operator_inc L it ;; inc_times L n' it'
  end.

(** A cursor that holds the first handle of a run, and the state a run is in
    after constructing it at offset [q], where the lexer yielded [tok]. *)
Definition first_cursor : token_iterator :=
  mkIterator (mkUnique (Some 0) (mkDeleter example_tu)).

Definition state_after_construct (L : Lexer) (tok : CXToken L) (q : nat) : lex_state L :=
  mkState [Some tok] [EvGetToken example_tu (mkLoc example_file q)].

(** The cursors of scenario S2 at [b] and at [a], and the cursor at [y] of
    the source with the comment. *)
Definition state_S2_b : lex_state lexer_S2 := state_after_construct lexer_S2 (6, 7) 6.
Definition state_S2_a : lex_state lexer_S2 := state_after_construct lexer_S2 (0, 1) 0.
Definition state_comment_y : lex_state lexer_comment :=
  state_after_construct lexer_comment (7, 8) 7.


(** Source [#b], where [#] is no token: asked at [#], the lexer yields [b].
    The cursor at [b]. *)
Definition lexer_hash : Lexer := example_lexer "#b" [(1, 2)].
Definition state_hash_b : lex_state lexer_hash :=
  state_after_construct lexer_hash (1, 2) 1.

(** Two cursors at [b], constructed one after the other. *)
Definition second_cursor : token_iterator :=
  mkIterator (mkUnique (Some 1) (mkDeleter example_tu)).

Definition state_S2_b_twice : lex_state lexer_S2 :=
  @mkState lexer_S2 [Some (6, 7); Some (6, 7)]
    [EvGetToken example_tu (mkLoc example_file 6);
     EvGetToken example_tu (mkLoc example_file 6)].


(** * Proofs *)

(** A pointer of the example is not [nullptr]. *)
Ltac not_null := let H := fresh in intro H; discriminate H.

Section Proofs.

Context (L : Lexer).

Implicit Types (s : lex_state L) (u : unique_token) (it : token_iterator).
Implicit Types (t : CXTranslationUnit) (file : CXFile) (h : nat).

(** ** Running the monad *)

Lemma bind_Ok {A B} (m : M L A) (k : A -> M L B) s a s' :
  m s = Ok (a, s') -> (x <- m ;; k x) s = k a s'.
Proof. intros H. unfold bind. now rewrite H. Qed.

Lemma bind_Halt {A B} (m : M L A) (k : A -> M L B) s e tr :
  m s = Halt e tr -> (x <- m ;; k x) s = Halt e tr.
Proof. intros H. unfold bind. now rewrite H. Qed.

Lemma returns_Ok {A} (m : M L A) s (Q : A -> lex_state L -> Prop) :
  returns m s Q <-> exists a s', m s = Ok (a, s') /\ Q a s'.
Proof.
  unfold returns. split.
  - destruct (m s) as [[a s']|e]; [eauto | tauto].
  - intros (a & s' & -> & HQ). exact HQ.
Qed.

Lemma returns_bind {A B} (m : M L A) (k : A -> M L B) s
    (Q : B -> lex_state L -> Prop) :
  returns m s (fun a s' => returns (k a) s' Q) -> returns (x <- m ;; k x) s Q.
Proof.
  unfold returns, bind. destruct (m s) as [[a s']|e]; [trivial | tauto].
Qed.

Lemma returns_mono {A} (m : M L A) s (Q Q' : A -> lex_state L -> Prop) :
  returns m s Q -> (forall a s', Q a s' -> Q' a s') -> returns m s Q'.
Proof.
  unfold returns. destruct (m s) as [[a s']|e]; [auto | tauto].
Qed.

Lemma assert_true (e : halt) s : assert (L:=L) true e s = Ok (tt, s).
Proof. reflexivity. Qed.

(** The checked span operations, when the check passes, and what a run of
    one that returned tells. *)
Lemma span_first_eq sp n s :
  n <= sp_size sp -> span_first L sp n s = Ok (first_of sp n, s).
Proof.
  intros H. unfold span_first. apply Nat.leb_le in H. now rewrite H.
Qed.

Lemma span_last_eq sp n s :
  n <= sp_size sp -> span_last L sp n s = Ok (last_of sp n, s).
Proof.
  intros H. unfold span_last. apply Nat.leb_le in H. now rewrite H.
Qed.

Lemma span_subspan_eq sp k s :
  k <= sp_size sp -> span_subspan L sp k s = Ok (subspan_of sp k, s).
Proof.
  intros H. unfold span_subspan. apply Nat.leb_le in H. now rewrite H.
Qed.

Lemma span_at_eq sp i s :
  i < sp_size sp -> span_at L sp i s = Ok (sp_data sp + i, s).
Proof.
  intros H. unfold span_at. apply Nat.ltb_lt in H. now rewrite H.
Qed.

Lemma span_first_inv sp n s r :
  span_first L sp n s = Ok r -> n <= sp_size sp /\ r = (first_of sp n, s).
Proof.
  unfold span_first. destruct (Nat.leb_spec n (sp_size sp)); [|discriminate].
  intros [= <-]. auto.
Qed.

Lemma span_last_inv sp n s r :
  span_last L sp n s = Ok r -> n <= sp_size sp /\ r = (last_of sp n, s).
Proof.
  unfold span_last. destruct (Nat.leb_spec n (sp_size sp)); [|discriminate].
  intros [= <-]. auto.
Qed.

Lemma span_subspan_inv sp k s r :
  span_subspan L sp k s = Ok r -> k <= sp_size sp /\ r = (subspan_of sp k, s).
Proof.
  unfold span_subspan. destruct (Nat.leb_spec k (sp_size sp)); [|discriminate].
  intros [= <-]. auto.
Qed.

Lemma span_at_inv sp i s r :
  span_at L sp i s = Ok r -> i < sp_size sp /\ r = (sp_data sp + i, s).
Proof.
  unfold span_at. destruct (Nat.ltb_spec i (sp_size sp)); [|discriminate].
  intros [= <-]. auto.
Qed.

Lemma neq_nullptr_eqb t : t <> nullptr -> negb (Nat.eqb t nullptr) = true.
Proof. intros H. apply negb_true_iff, Nat.eqb_neq, H. Qed.

(** ** The heap *)

Lemma live_lt s h tok : live L s h tok -> h < length (heap s).
Proof. unfold live. intros H. eapply lookup_lt_Some, H. Qed.

Lemma live_alloc_old s s' l h tok :
  heap s' = heap s ++ l -> live L s h tok -> live L s' h tok.
Proof.
  unfold live. intros -> H. rewrite lookup_app_l; [exact H|].
  eapply lookup_lt_Some, H.
Qed.

Lemma live_alloc_new s' (hp : list (option (CXToken L))) tok :
  heap s' = hp ++ [Some tok] -> live L s' (length hp) tok.
Proof.
  unfold live. intros ->. rewrite lookup_app_r by lia. now rewrite Nat.sub_diag.
Qed.

Lemma live_free_other s s' h h' tok :
  heap s' = <[h' := None]> (heap s) -> h <> h' ->
  live L s h tok -> live L s' h tok.
Proof.
  unfold live. intros -> Hne H. rewrite list_lookup_insert_ne; auto.
Qed.

Lemma live_same_heap s s' h tok :
  heap s' = heap s -> live L s h tok -> live L s' h tok.
Proof. unfold live. now intros ->. Qed.

Lemma token_of_live s h d tok :
  live L s h tok -> token_of L s (mkUnique (Some h) d) = Some tok.
Proof. unfold live, token_of. cbn. now intros ->. Qed.

Lemma token_of_Some s u tok :
  token_of L s u = Some tok <-> exists h, ut_get u = Some h /\ live L s h tok.
Proof.
  unfold token_of, live. split.
  - destruct (ut_get u) as [h|]; [|discriminate].
    destruct (heap s !! h) as [[tok'|]|] eqn:E; try discriminate.
    intros [= ->]. eauto.
  - intros (h & -> & ->). reflexivity.
Qed.

(** ** The libclang calls *)

Lemma clang_getToken_eq t loc s :
  clang_getToken L t loc s =
  match lex_getToken L t loc with
  | Some tok =>
      Ok (Some (length (heap s)),
          mkState (heap s ++ [Some tok]) (trace s ++ [EvGetToken t loc]))
  | None => Ok (None, mkState (heap s) (trace s ++ [EvGetToken t loc]))
  end.
Proof.
  unfold clang_getToken, bind, log, alloc, ret. cbn.
  destruct (lex_getToken L t loc); reflexivity.
Qed.

Lemma clang_getTokenExtent_eq t h s tok :
  live L s h tok -> clang_getTokenExtent L t h s = Ok (lex_getTokenExtent L t tok, s).
Proof.
  unfold live, clang_getTokenExtent, bind, deref, ret. now intros ->.
Qed.

Lemma clang_disposeTokens_eq t h s tok :
  live L s h tok ->
  clang_disposeTokens L t h s =
  Ok (tt, mkState (<[h := None]> (heap s)) (trace s ++ [EvDispose t h])).
Proof.
  unfold live, clang_disposeTokens, bind, log, free. cbn. now intros ->.
Qed.

Lemma token_deleter_call_eq t h s tok :
  t <> nullptr -> live L s h tok ->
  token_deleter_call L (mkDeleter t) (Some h) s =
  Ok (tt, mkState (<[h := None]> (heap s)) (trace s ++ [EvDispose t h])).
Proof.
  intros Ht Hl. unfold token_deleter_call. cbn [deleter_tu].
  rewrite (neq_nullptr_eqb _ Ht).
  erewrite bind_Ok by apply assert_true.
  eapply clang_disposeTokens_eq, Hl.
Qed.

Lemma unique_token_reset_null (d : token_deleter) p s :
  unique_token_reset L (mkUnique None d) p s = Ok (mkUnique p d, s).
Proof. reflexivity. Qed.

Lemma unique_token_reset_eq t h p s tok :
  t <> nullptr -> live L s h tok ->
  unique_token_reset L (mkUnique (Some h) (mkDeleter t)) p s =
  Ok (mkUnique p (mkDeleter t),
      mkState (<[h := None]> (heap s)) (trace s ++ [EvDispose t h])).
Proof.
  intros Ht Hl. unfold unique_token_reset. cbn [ut_get ut_deleter].
  erewrite bind_Ok by (eapply token_deleter_call_eq; eauto). reflexivity.
Qed.

Lemma unique_token_move_assign_null (d : token_deleter) v s :
  unique_token_move_assign L (mkUnique None d) v s =
  Ok (mkUnique (ut_get v) (ut_deleter v), s).
Proof. reflexivity. Qed.

Lemma unique_token_move_assign_eq t h v s tok :
  t <> nullptr -> live L s h tok ->
  unique_token_move_assign L (mkUnique (Some h) (mkDeleter t)) v s =
  Ok (mkUnique (ut_get v) (ut_deleter v),
      mkState (<[h := None]> (heap s)) (trace s ++ [EvDispose t h])).
Proof.
  intros Ht Hl. unfold unique_token_move_assign.
  erewrite bind_Ok by (eapply unique_token_reset_eq; eauto). reflexivity.
Qed.

(** ** The accessors of a cursor that holds a live token *)

Lemma tu_eq t h s :
  tu L (mkIterator (mkUnique (Some h) (mkDeleter t))) s = Ok (t, s).
Proof. reflexivity. Qed.

Lemma extent_eq t h s tok :
  live L s h tok ->
  extent L (mkIterator (mkUnique (Some h) (mkDeleter t))) s =
  Ok (lex_getTokenExtent L t tok, s).
Proof.
  intros Hl. unfold extent, tu, has_token, bind, assert, ret. cbn.
  eapply clang_getTokenExtent_eq, Hl.
Qed.

(** ** Construction, copy, forward step and equality, as equations *)

Lemma construct_eq t loc s :
  construct L t loc s =
  match lex_getToken L t loc with
  | Some tok =>
      Ok (mkIterator (mkUnique (Some (length (heap s))) (mkDeleter t)),
          mkState (heap s ++ [Some tok]) (trace s ++ [EvGetToken t loc]))
  | None =>
      Ok (mkIterator (mkUnique None (mkDeleter t)),
          mkState (heap s) (trace s ++ [EvGetToken t loc]))
  end.
Proof.
  unfold construct, bind. rewrite clang_getToken_eq.
  destruct (lex_getToken L t loc); reflexivity.
Qed.

Lemma clone_eq t h s tok :
  live L s h tok ->
  clone L (mkIterator (mkUnique (Some h) (mkDeleter t))) s =
  match lex_getToken L t (token_start L t tok) with
  | Some tok' =>
      Ok (mkUnique (Some (length (heap s))) (mkDeleter t),
          mkState (heap s ++ [Some tok'])
                  (trace s ++ [EvGetToken t (token_start L t tok)]))
  | None =>
      Ok (mkUnique None (mkDeleter t),
          mkState (heap s) (trace s ++ [EvGetToken t (token_start L t tok)]))
  end.
Proof.
  intros Hl. unfold clone. cbn [has_token m_tok ut_get negb].
  erewrite bind_Ok by apply tu_eq.
  erewrite bind_Ok by (eapply extent_eq, Hl).
  unfold bind. rewrite clang_getToken_eq. unfold token_start.
  destruct (lex_getToken L t _); reflexivity.
Qed.

Lemma clone_sentinel it s :
  has_token it = false -> clone L it s = Ok (unique_token_null, s).
Proof. intros H. unfold clone. now rewrite H. Qed.

Lemma operator_inc_eq t h s tok :
  t <> nullptr -> live L s h tok ->
  operator_inc L (mkIterator (mkUnique (Some h) (mkDeleter t))) s =
  match lex_getToken L t (token_end L t tok) with
  | Some tok' =>
      Ok (mkIterator (mkUnique (Some (length (heap s))) (mkDeleter t)),
          mkState (<[h := None]> (heap s ++ [Some tok']))
                  (trace s ++ [EvGetToken t (token_end L t tok); EvDispose t h]))
  | None =>
      Ok (mkIterator (mkUnique None (mkDeleter t)),
          mkState (<[h := None]> (heap s))
                  (trace s ++ [EvGetToken t (token_end L t tok); EvDispose t h]))
  end.
Proof.
  intros Ht Hl. unfold operator_inc. cbn [has_token m_tok ut_get].
  erewrite bind_Ok by apply assert_true.
  erewrite bind_Ok by (eapply extent_eq, Hl).
  erewrite bind_Ok by apply tu_eq.
  unfold bind at 1. rewrite clang_getToken_eq. fold (token_end L t tok).
  destruct (lex_getToken L t (token_end L t tok)) as [tok'|].
  - erewrite bind_Ok.
    2:{ eapply unique_token_reset_eq; [exact Ht|].
        eapply live_alloc_old; [reflexivity | exact Hl]. }
    cbn. now rewrite <- app_assoc.
  - erewrite bind_Ok.
    2:{ eapply unique_token_reset_eq; [exact Ht|].
        eapply live_same_heap; [reflexivity | exact Hl]. }
    cbn. now rewrite <- app_assoc.
Qed.

Lemma operator_eq_live t1 t2 h1 h2 s tok1 tok2 :
  live L s h1 tok1 -> live L s h2 tok2 ->
  operator_eq L (mkIterator (mkUnique (Some h1) (mkDeleter t1)))
                (mkIterator (mkUnique (Some h2) (mkDeleter t2))) s =
  Ok (Nat.eqb t1 t2 &&
      clang_equalLocations (token_end L t1 tok1) (token_end L t2 tok2), s).
Proof.
  intros H1 H2. unfold operator_eq. cbn [has_token m_tok ut_get Bool.eqb negb].
  erewrite bind_Ok by apply tu_eq.
  erewrite bind_Ok by apply tu_eq.
  destruct (Nat.eqb t1 t2); [|reflexivity].
  erewrite bind_Ok by (eapply extent_eq, H1).
  erewrite bind_Ok by (eapply extent_eq, H2).
  reflexivity.
Qed.

Lemma operator_eq_sentinel it1 it2 s :
  has_token it1 = false ->
  operator_eq L it1 it2 s = Ok (negb (has_token it2), s).
Proof.
  intros H. unfold operator_eq. rewrite H.
  destruct (has_token it2); reflexivity.
Qed.

Lemma operator_eq_sentinel_r it1 it2 s :
  has_token it2 = false ->
  operator_eq L it1 it2 s = Ok (negb (has_token it1), s).
Proof.
  intros H. unfold operator_eq. rewrite H.
  destruct (has_token it1); reflexivity.
Qed.

(** A cursor that holds a live token, taken apart. *)
Lemma held_Some s it tok :
  held L s it = Some tok ->
  exists h t, it = mkIterator (mkUnique (Some h) (mkDeleter t))
              /\ live L s h tok.
Proof.
  unfold held. intros H. apply token_of_Some in H as (h & Hg & Hl).
  destruct it as [[g [d]]]. cbn in *. subst. eauto.
Qed.

Lemma held_live s h d tok :
  live L s h tok -> held L s (mkIterator (mkUnique (Some h) d)) = Some tok.
Proof. apply token_of_live. Qed.

Lemma held_has_token s it tok : held L s it = Some tok -> has_token it = true.
Proof.
  intros H. apply held_Some in H as (h & t & -> & _). reflexivity.
Qed.

Lemma is_end_sentinel_has_token it :
  is_end_sentinel it = true <-> has_token it = false.
Proof. unfold is_end_sentinel. apply negb_true_iff. Qed.

Lemma held_not_sentinel s it tok :
  held L s it = Some tok -> is_end_sentinel it = false.
Proof.
  intros H. unfold is_end_sentinel. now rewrite (held_has_token _ _ _ H).
Qed.

Lemma clang_equalLocations_refl l : clang_equalLocations l l = true.
Proof. unfold clang_equalLocations. now rewrite !Nat.eqb_refl. Qed.

Lemma clang_equalLocations_eq a b : clang_equalLocations a b = true <-> a = b.
Proof.
  unfold clang_equalLocations. rewrite andb_true_iff, !Nat.eqb_eq.
  destruct a, b; cbn. split; [intros [-> ->]; reflexivity | intros [= -> ->]; auto].
Qed.

(** ** Equality *)

(** C4.  [operator==] on two valid cursors returns without touching the
    state.  For two cursors that hold tokens the result is [true] exactly
    when their translation units are the same and the end locations of
    their tokens' extents are equal; against an end sentinel the result is
    [true] exactly when the other cursor is an end sentinel too. *)
Theorem operator_eq_spec s a b :
  valid L s a -> valid L s b ->
  exists r, operator_eq L a b s = Ok (r, s) /\
    (forall tok1 tok2, held L s a = Some tok1 -> held L s b = Some tok2 ->
       (r = true <->
        iterator_tu a = iterator_tu b /\
        clang_equalLocations (token_end L (iterator_tu a) tok1)
                             (token_end L (iterator_tu b) tok2) = true)) /\
    (is_end_sentinel a = true -> (r = true <-> is_end_sentinel b = true)) /\
    (is_end_sentinel b = true -> (r = true <-> is_end_sentinel a = true)).
Proof.
  intros [Ha|[tok1 Ha]] Hb.
  - apply is_end_sentinel_has_token in Ha as Ha'.
    exists (negb (has_token b)). split; [now apply operator_eq_sentinel|].
    split; [|split].
    + intros t1 t2 H1 _. apply held_has_token in H1. congruence.
    + intros _. reflexivity.
    + unfold is_end_sentinel in *. intros ->. tauto.
  - destruct Hb as [Hb|[tok2 Hb]].
    + apply is_end_sentinel_has_token in Hb as Hb'.
      exists (negb (has_token a)). split; [now apply operator_eq_sentinel_r|].
      split; [|split].
      * intros t1 t2 _ H2. apply held_has_token in H2. congruence.
      * unfold is_end_sentinel in *. intros ->. tauto.
      * intros _. reflexivity.
    + pose proof (held_not_sentinel _ _ _ Ha) as Na.
      pose proof (held_not_sentinel _ _ _ Hb) as Nb.
      destruct (held_Some _ _ _ Ha) as (h1 & t1 & -> & L1).
      destruct (held_Some _ _ _ Hb) as (h2 & t2 & -> & L2).
      eexists. split.
      { eapply operator_eq_live; eauto. }
      split; [|split; intros; congruence].
      intros k1 k2 H1 H2.
      assert (k1 = tok1) as -> by congruence.
      assert (k2 = tok2) as -> by congruence.
      rewrite andb_true_iff, Nat.eqb_eq. reflexivity.
Qed.

(** ** The forward step *)

(** C5.  [operator++] on a cursor that holds a token asks the lexer for the
    token at the end location of the current token's extent, once, and
    returns: the cursor then holds what the lexer found there, and it is the
    end sentinel when the lexer found nothing. *)
Theorem operator_inc_spec s it tok :
  held L s it = Some tok -> iterator_tu it <> nullptr ->
  exists it' s',
    operator_inc L it s = Ok (it', s') /\
    queries (trace s') = queries (trace s) ++ [token_end L (iterator_tu it) tok] /\
    held L s' it' = lex_getToken L (iterator_tu it) (token_end L (iterator_tu it) tok) /\
    (lex_getToken L (iterator_tu it) (token_end L (iterator_tu it) tok) = None ->
     is_end_sentinel it' = true).
Proof.
  intros Hh Ht. destruct (held_Some _ _ _ Hh) as (h & t & -> & Hl).
  change (iterator_tu _) with t in *.
  rewrite (operator_inc_eq t h s tok Ht Hl).
  assert (Hq : forall tr e1 e2, queries (tr ++ [EvGetToken t e1; EvDispose t e2])
                                = queries tr ++ [e1]).
  { induction tr as [|[]]; intros; cbn; [reflexivity| |]; now rewrite ?IHtr. }
  destruct (lex_getToken L t (token_end L t tok)) as [tok'|].
  - do 2 eexists. split; [reflexivity|]. cbn [trace]. rewrite Hq.
    split; [reflexivity|]. split; [|discriminate].
    apply held_live.
    eapply (live_free_other (mkState (heap s ++ [Some tok']) (trace s)));
      [reflexivity | |].
    + apply live_lt in Hl. lia.
    + now apply live_alloc_new.
  - do 2 eexists. split; [reflexivity|]. cbn [trace]. rewrite Hq.
    split; [reflexivity|]. split; reflexivity.
Qed.

(** ** Copying *)

Lemma queries_app tr tr' : queries (tr ++ tr') = queries tr ++ queries tr'.
Proof.
  induction tr as [|[] tr IH]; cbn; [reflexivity| |]; now rewrite IH.
Qed.

Lemma copy_construct_eq t h s tok :
  live L s h tok ->
  copy_construct L (mkIterator (mkUnique (Some h) (mkDeleter t))) s =
  match lex_getToken L t (token_start L t tok) with
  | Some tok' =>
      Ok (mkIterator (mkUnique (Some (length (heap s))) (mkDeleter t)),
          mkState (heap s ++ [Some tok'])
                  (trace s ++ [EvGetToken t (token_start L t tok)]))
  | None =>
      Ok (mkIterator (mkUnique None (mkDeleter t)),
          mkState (heap s) (trace s ++ [EvGetToken t (token_start L t tok)]))
  end.
Proof.
  intros Hl. unfold copy_construct, bind. rewrite (clone_eq _ _ _ _ Hl).
  destruct (lex_getToken L t _); reflexivity.
Qed.

(** [this = other] when [this] holds a token; [other] may be [this]. *)
Lemma copy_assign_eq t1 h1 tok1 t2 h2 tok2 s :
  t1 <> nullptr -> live L s h1 tok1 -> live L s h2 tok2 ->
  copy_assign L (mkIterator (mkUnique (Some h1) (mkDeleter t1)))
                (mkIterator (mkUnique (Some h2) (mkDeleter t2))) s =
  match lex_getToken L t2 (token_start L t2 tok2) with
  | Some tok' =>
      Ok (mkIterator (mkUnique (Some (length (heap s))) (mkDeleter t2)),
          mkState (<[h1 := None]> (heap s ++ [Some tok']))
                  (trace s ++ [EvGetToken t2 (token_start L t2 tok2); EvDispose t1 h1]))
  | None =>
      Ok (mkIterator (mkUnique None (mkDeleter t2)),
          mkState (<[h1 := None]> (heap s))
                  (trace s ++ [EvGetToken t2 (token_start L t2 tok2); EvDispose t1 h1]))
  end.
Proof.
  intros Ht H1 H2. unfold copy_assign. unfold bind at 1.
  rewrite (clone_eq _ _ _ _ H2). cbn [m_tok].
  destruct (lex_getToken L t2 _) as [tok'|].
  - erewrite bind_Ok.
    2:{ eapply unique_token_move_assign_eq; [exact Ht|].
        eapply live_alloc_old; [reflexivity | exact H1]. }
    cbn. now rewrite <- app_assoc.
  - erewrite bind_Ok.
    2:{ eapply unique_token_move_assign_eq; [exact Ht|].
        eapply live_same_heap; [reflexivity | exact H1]. }
    cbn. now rewrite <- app_assoc.
Qed.

(** [this = other] when [this] is an end sentinel. *)
Lemma copy_assign_onto_sentinel d t2 h2 tok2 s :
  live L s h2 tok2 ->
  copy_assign L (mkIterator (mkUnique None d))
                (mkIterator (mkUnique (Some h2) (mkDeleter t2))) s =
  copy_construct L (mkIterator (mkUnique (Some h2) (mkDeleter t2))) s.
Proof.
  intros H2. rewrite (copy_construct_eq _ _ _ _ H2).
  unfold copy_assign. unfold bind at 1. rewrite (clone_eq _ _ _ _ H2).
  destruct (lex_getToken L t2 _); reflexivity.
Qed.

(** [this = other] when [other] is an end sentinel. *)
Lemma copy_assign_sentinel_eq t1 h1 tok1 other s :
  t1 <> nullptr -> live L s h1 tok1 -> has_token other = false ->
  copy_assign L (mkIterator (mkUnique (Some h1) (mkDeleter t1))) other s =
  Ok (end_sentinel,
      mkState (<[h1 := None]> (heap s)) (trace s ++ [EvDispose t1 h1])).
Proof.
  intros Ht H1 Ho. unfold copy_assign.
  erewrite bind_Ok by (apply clone_sentinel, Ho). cbn [m_tok].
  erewrite bind_Ok by (eapply unique_token_move_assign_eq; eauto).
  reflexivity.
Qed.

Lemma copy_equal t h s tok :
  live L s h tok -> requery_ok L t tok ->
  forall c s', copy_construct L (mkIterator (mkUnique (Some h) (mkDeleter t))) s = Ok (c, s') ->
  operator_eq L c (mkIterator (mkUnique (Some h) (mkDeleter t))) s' = Ok (true, s').
Proof.
  intros Hl (tok' & Hq & He) c s'. rewrite (copy_construct_eq _ _ _ _ Hl), Hq.
  intros [= <- <-].
  erewrite operator_eq_live.
  - now rewrite Nat.eqb_refl, He.
  - now apply live_alloc_new.
  - eapply live_alloc_old; [reflexivity | exact Hl].
Qed.

Lemma is_end_sentinel_true it :
  is_end_sentinel it = true -> exists d, it = mkIterator (mkUnique None d).
Proof.
  destruct it as [[[h|] d]]; cbn; [discriminate | eauto].
Qed.

Lemma copy_construct_copy_of t h s tok c s' :
  live L s h tok ->
  copy_construct L (mkIterator (mkUnique (Some h) (mkDeleter t))) s = Ok (c, s') ->
  copy_of L s s' c (mkIterator (mkUnique (Some h) (mkDeleter t))) tok.
Proof.
  intros Hl. rewrite (copy_construct_eq _ _ _ _ Hl). unfold copy_of.
  cbn [iterator_tu m_tok ut_deleter deleter_tu ut_get].
  destruct (lex_getToken L t (token_start L t tok)) as [tok'|];
    intros [= <- <-]; cbn [trace]; rewrite queries_app; cbn [queries].
  - split; [reflexivity|]. split; [apply held_live; now apply live_alloc_new|].
    split; [reflexivity|]. split.
    + apply held_live. eapply live_alloc_old; [reflexivity | exact Hl].
    + apply live_lt in Hl. cbn. intros [= E]. lia.
  - split; [reflexivity|]. split; [reflexivity|]. split; [reflexivity|].
    split; [apply held_live, Hl | discriminate].
Qed.

Lemma copy_assign_copy_of t1 h1 tok1 t h s tok c s' :
  t1 <> nullptr -> live L s h1 tok1 -> live L s h tok -> h1 <> h ->
  copy_assign L (mkIterator (mkUnique (Some h1) (mkDeleter t1)))
                (mkIterator (mkUnique (Some h) (mkDeleter t))) s = Ok (c, s') ->
  copy_of L s s' c (mkIterator (mkUnique (Some h) (mkDeleter t))) tok.
Proof.
  intros Ht H1 Hl Hne. rewrite (copy_assign_eq _ _ _ _ _ _ _ Ht H1 Hl).
  unfold copy_of. cbn [iterator_tu m_tok ut_deleter deleter_tu ut_get].
  pose proof (live_lt _ _ _ H1) as B1. pose proof (live_lt _ _ _ Hl) as B.
  destruct (lex_getToken L t (token_start L t tok)) as [tok'|];
    intros [= <- <-]; cbn [trace]; rewrite queries_app; cbn [queries].
  - split; [reflexivity|]. split.
    { apply held_live.
      eapply (live_free_other (mkState (heap s ++ [Some tok']) (trace s)));
        [reflexivity | lia | now apply live_alloc_new]. }
    split; [reflexivity|]. split.
    + apply held_live.
      eapply (live_free_other (mkState (heap s ++ [Some tok']) (trace s)));
        [reflexivity | congruence |].
      eapply live_alloc_old; [reflexivity | exact Hl].
    + cbn. intros [= E]. lia.
  - split; [reflexivity|]. split; [reflexivity|]. split; [reflexivity|].
    split; [|discriminate].
    apply held_live. eapply (live_free_other s); [reflexivity | congruence | exact Hl].
Qed.

Lemma copy_assign_equal t1 h1 tok1 t h s tok c s' :
  t1 <> nullptr -> live L s h1 tok1 -> live L s h tok -> h1 <> h ->
  requery_ok L t tok ->
  copy_assign L (mkIterator (mkUnique (Some h1) (mkDeleter t1)))
                (mkIterator (mkUnique (Some h) (mkDeleter t))) s = Ok (c, s') ->
  operator_eq L c (mkIterator (mkUnique (Some h) (mkDeleter t))) s' = Ok (true, s').
Proof.
  intros Ht H1 Hl Hne (tok' & Hq & He).
  rewrite (copy_assign_eq _ _ _ _ _ _ _ Ht H1 Hl), Hq. intros [= <- <-].
  pose proof (live_lt _ _ _ H1) as B1.
  erewrite operator_eq_live.
  - now rewrite Nat.eqb_refl, He.
  - eapply (live_free_other (mkState (heap s ++ [Some tok']) (trace s)));
      [reflexivity | lia | now apply live_alloc_new].
  - eapply (live_free_other (mkState (heap s ++ [Some tok']) (trace s)));
      [reflexivity | congruence |].
    eapply live_alloc_old; [reflexivity | exact Hl].
Qed.

(** C7.  Copy construction and copy assignment from a cursor that holds a
    token ask the lexer once, for the token at the start location of that
    token's extent; the copy holds what the lexer returns through a handle
    of its own, in the same translation unit, and the original keeps its
    token.  When the lexer, asked at that start location, yields a token
    with the same end location, the copy compares equal to the original.
    Copying an end sentinel yields an end sentinel, without a query. *)
Theorem copy_spec s this other :
  releasable L s this ->
  (forall tok,
     held L s other = Some tok -> ut_get (m_tok this) <> ut_get (m_tok other) ->
     exists c s1 c' s2,
       copy_construct L other s = Ok (c, s1) /\ copy_of L s s1 c other tok /\
       copy_assign L this other s = Ok (c', s2) /\ copy_of L s s2 c' other tok /\
       (requery_ok L (iterator_tu other) tok ->
        operator_eq L c other s1 = Ok (true, s1) /\
        operator_eq L c' other s2 = Ok (true, s2))) /\
  (is_end_sentinel other = true ->
     copy_construct L other s = Ok (end_sentinel, s) /\
     exists c' s2,
       copy_assign L this other s = Ok (c', s2) /\
       is_end_sentinel c' = true /\
       queries (trace s2) = queries (trace s)).
Proof.
  intros Hthis. split.
  - intros tok Ho Hne.
    destruct (held_Some _ _ _ Ho) as (h & t & -> & Hl).
    cbn [iterator_tu m_tok ut_deleter deleter_tu].
    destruct (copy_construct L _ s) as [[c s1]|e] eqn:Ec.
    2:{ rewrite (copy_construct_eq _ _ _ _ Hl) in Ec.
        destruct (lex_getToken L t _); discriminate. }
    pose proof (copy_construct_copy_of _ _ _ _ _ _ Hl Ec) as Hc.
    destruct Hthis as [Hs|[[tok1 H1] Ht1]].
    + apply is_end_sentinel_true in Hs as [d ->].
      exists c, s1, c, s1. rewrite (copy_assign_onto_sentinel _ _ _ _ _ Hl).
      split; [reflexivity|]. split; [exact Hc|]. split; [exact Ec|].
      split; [exact Hc|]. intros Hr. split; eapply copy_equal; eauto.
    + destruct (held_Some _ _ _ H1) as (h1 & t1 & -> & Hl1).
      cbn in Ht1, Hne. assert (h1 <> h) as Hh by congruence.
      destruct (copy_assign L _ _ s) as [[c' s2]|e] eqn:Ea.
      2:{ rewrite (copy_assign_eq _ _ _ _ _ _ _ Ht1 Hl1 Hl) in Ea.
          destruct (lex_getToken L t _); discriminate. }
      exists c, s1, c', s2.
      split; [reflexivity|]. split; [exact Hc|]. split; [reflexivity|].
      split; [eapply copy_assign_copy_of; eauto|].
      intros Hr. split; [eapply copy_equal; eauto|].
      eapply copy_assign_equal; eauto.
  - intros Ho. apply is_end_sentinel_has_token in Ho as Ho'.
    split.
    { unfold copy_construct. erewrite bind_Ok by (apply clone_sentinel, Ho').
      reflexivity. }
    destruct Hthis as [Hs|[[tok1 H1] Ht1]].
    + apply is_end_sentinel_true in Hs as [d ->].
      exists end_sentinel, s. split; [|split; reflexivity].
      unfold copy_assign. erewrite bind_Ok by (apply clone_sentinel, Ho').
      reflexivity.
    + destruct (held_Some _ _ _ H1) as (h1 & t1 & -> & Hl1). cbn in Ht1.
      do 2 eexists. split; [eapply copy_assign_sentinel_eq; eauto|].
      split; [reflexivity|]. cbn [trace]. rewrite queries_app. cbn.
      apply app_nil_r.
Qed.

(** C10.  Assigning a cursor that holds a token to itself returns: the
    replacement handle is obtained from the lexer (by a query at the start
    location of the held token) before the old handle is disposed.  When the
    lexer yields at that start location a token with the same end location,
    the cursor afterwards holds a token again, in the same translation unit
    and with an equal end location; its old handle is no longer live.
    Assigning an end sentinel to itself leaves an end sentinel. *)
Theorem self_assign_spec s it :
  (forall tok,
     held L s it = Some tok -> iterator_tu it <> nullptr ->
     requery_ok L (iterator_tu it) tok ->
     exists it' s' tok' h,
       copy_assign L it it s = Ok (it', s') /\
       ut_get (m_tok it) = Some h /\
       trace s' = trace s ++ [EvGetToken (iterator_tu it) (token_start L (iterator_tu it) tok);
                              EvDispose (iterator_tu it) h] /\
       held L s' it' = Some tok' /\
       is_end_sentinel it' = is_end_sentinel it /\
       iterator_tu it' = iterator_tu it /\
       clang_equalLocations (token_end L (iterator_tu it') tok')
                            (token_end L (iterator_tu it) tok) = true /\
       heap s' !! h = Some None) /\
  (is_end_sentinel it = true ->
     exists it', copy_assign L it it s = Ok (it', s) /\ is_end_sentinel it' = true).
Proof.
  split.
  - intros tok Hh Ht (tok' & Hq & He).
    destruct (held_Some _ _ _ Hh) as (h & t & -> & Hl).
    cbn [iterator_tu m_tok ut_deleter deleter_tu ut_get] in *.
    pose proof (live_lt _ _ _ Hl) as B.
    rewrite (copy_assign_eq _ _ _ _ _ _ _ Ht Hl Hl), Hq.
    do 4 eexists. split; [reflexivity|]. split; [reflexivity|].
    split; [reflexivity|]. split.
    { apply held_live.
      eapply (live_free_other (mkState (heap s ++ [Some tok']) (trace s)));
        [reflexivity | lia | now apply live_alloc_new]. }
    split; [reflexivity|]. split; [reflexivity|]. split; [exact He|].
    cbn [heap]. apply list_lookup_insert_eq. rewrite length_app. lia.
  - intros Hs. apply is_end_sentinel_has_token in Hs as Hs'.
    apply is_end_sentinel_true in Hs as [d ->].
    exists end_sentinel. split; [|reflexivity].
    unfold copy_assign. erewrite bind_Ok by (apply clone_sentinel, Hs').
    reflexivity.
Qed.

(** ** The reverse step *)

Lemma frame_except_refl o s : frame_except L o s s.
Proof. intros h tok _ H. exact H. Qed.

(** Frames compose when the handle the second run may release is new. *)
Lemma frame_except_trans o o' s1 s2 s3 :
  frame_except L o s1 s2 -> frame_except L o' s2 s3 ->
  (forall h, o' = Some h -> o = Some h \/ length (heap s1) <= h) ->
  frame_except L o s1 s3.
Proof.
  intros F1 F2 Ho h tok Hne Hl. apply F2; [|now apply F1].
  intros E. symmetry in E. destruct (Ho _ E) as [E'|Hge]; [congruence|].
  apply live_lt in Hl. lia.
Qed.

Lemma run_effect_refl o file s : run_effect L o file [] s s.
Proof.
  split; [apply frame_except_refl|]. split; [lia|].
  exists []. now rewrite app_nil_r.
Qed.

Lemma run_effect_trans o o' file pr pr' s1 s2 s3 :
  run_effect L o file pr s1 s2 -> run_effect L o' file pr' s2 s3 ->
  (forall h, o' = Some h -> o = Some h \/ length (heap s1) <= h) ->
  run_effect L o file (pr ++ pr') s1 s3.
Proof.
  intros (F1 & L1 & evs1 & T1 & Q1) (F2 & L2 & evs2 & T2 & Q2) Ho.
  split; [eapply frame_except_trans; eauto|]. split; [lia|].
  exists (evs1 ++ evs2). split.
  - now rewrite T2, T1, app_assoc.
  - now rewrite queries_app, Q1, Q2, map_app.
Qed.

(** Releasing an owned token. *)
Lemma unique_token_reset_owned t file u p s :
  t <> nullptr -> owned L t s u ->
  exists s', unique_token_reset L u p s = Ok (mkUnique p (mkDeleter t), s') /\
             run_effect L (ut_get u) file [] s s' /\
             length (heap s') = length (heap s).
Proof.
  intros Ht [Hd Hu]. destruct u as [[h|] d]; cbn in *; subst d.
  - destruct Hu as [tok Hl]. eexists. split; [eapply unique_token_reset_eq; eauto|].
    split; [|cbn; apply length_insert].
    split; [|split].
    + intros h' tok' Hne Hl'.
      eapply (live_free_other s); [reflexivity | congruence | exact Hl'].
    + cbn. rewrite length_insert. lia.
    + eexists. split; [reflexivity|reflexivity].
  - exists s. split; [reflexivity|]. split; [apply run_effect_refl | reflexivity].
Qed.

Lemma unique_token_move_assign_owned t file u v s :
  t <> nullptr -> owned L t s u ->
  exists s', unique_token_move_assign L u v s =
               Ok (mkUnique (ut_get v) (ut_deleter v), s') /\
             run_effect L (ut_get u) file [] s s' /\
             length (heap s') = length (heap s).
Proof.
  intros Ht Hu.
  destruct (unique_token_reset_owned t file u (ut_get v) s Ht Hu) as (s' & E & HR & HL).
  exists s'. split; [|auto]. unfold unique_token_move_assign.
  erewrite bind_Ok by exact E. reflexivity.
Qed.

(** One oracle query at an offset of [file]. *)
Lemma clang_getToken_at t file q s :
  exists p s',
    clang_getToken L t (clang_getLocationForOffset t file q) s = Ok (p, s') /\
    run_effect L None file [q] s s' /\
    match token_at L t file q with
    | Some tok => p = Some (length (heap s)) /\ live L s' (length (heap s)) tok /\
                  length (heap s') = S (length (heap s))
    | None => p = None /\ length (heap s') = length (heap s)
    end.
Proof.
  rewrite clang_getToken_eq. unfold token_at.
  destruct (lex_getToken L t _) as [tok|]; do 2 eexists; (split; [reflexivity|]).
  - split.
    + split; [|split].
      * intros h tok' _ Hl. eapply live_alloc_old; [reflexivity | exact Hl].
      * cbn. rewrite length_app. lia.
      * eexists. split; reflexivity.
    + split; [reflexivity|]. split; [now apply live_alloc_new|].
      cbn. rewrite length_app. cbn. lia.
  - split; [|split; reflexivity].
    split; [intros h tok _ Hl; exact Hl|]. split; [cbn; lia|].
    eexists. split; reflexivity.
Qed.

Lemma run_effect_weaken o file pr s s' :
  run_effect L None file pr s s' -> run_effect L o file pr s s'.
Proof.
  intros (F & Hl & Hq). split; [|auto].
  intros h tok _ H. apply F; [discriminate | exact H].
Qed.

Lemma owned_frame t o s s' u :
  owned L t s u -> frame_except L o s s' -> ut_get u <> o \/ ut_get u = None ->
  owned L t s' u.
Proof.
  intros [Hd Hu] F Hne. split; [exact Hd|].
  destruct (ut_get u) as [h|]; [|exact I].
  destruct Hu as [tok Hl]. exists tok. apply F; [|exact Hl].
  destruct Hne as [Hne|Hne]; congruence.
Qed.

Lemma owned_handle_lt t s u h :
  owned L t s u -> ut_get u = Some h -> h < length (heap s).
Proof.
  intros [_ Hu] E. rewrite E in Hu. destruct Hu as [tok Hl].
  eapply live_lt, Hl.
Qed.

(** ** The reverse step, read off the buffer and the oracle *)

Section ReverseStepPure.

Variables (t : CXTranslationUnit) (file : CXFile) (file_buffer : list ascii).

Lemma step1_offset_lt curr_end offset p :
  step1_offset L t file file_buffer curr_end offset = Some p -> p < offset.
Proof.
  induction offset as [|o IH]; cbn; [discriminate|].
  destruct (is_stop L t file file_buffer curr_end o).
  - intros [= ->]. lia.
  - intros H. apply IH in H. lia.
Qed.

Lemma step1_probes_lt curr_end offset :
  Forall (fun q => q < offset)
         (step1_probes L t file file_buffer curr_end offset).
Proof.
  induction offset as [|o IH]; cbn; [constructor|].
  assert (Forall (fun q => q < S o)
            (step1_probes L t file file_buffer curr_end o)) as IH'.
  { eapply Forall_impl; [exact IH|]. cbn. intros; lia. }
  destruct (file_buffer !! o); [|constructor].
  destruct (isspace a); [exact IH'|].
  destruct (is_stop L t file file_buffer curr_end o);
    constructor; auto.
Qed.

Lemma step1_offset_Some curr_end offset p :
  step1_offset L t file file_buffer curr_end offset = Some p <->
  p < offset /\ is_stop L t file file_buffer curr_end p = true /\
  forall q, p < q < offset -> is_stop L t file file_buffer curr_end q = false.
Proof.
  induction offset as [|o IH]; cbn.
  - split; [discriminate | intros [H _]; lia].
  - destruct (is_stop L t file file_buffer curr_end o) eqn:Ho.
    + split.
      * intros [= <-]. split; [lia|]. split; [exact Ho|]. intros q Hq. lia.
      * intros (Hlt & Hs & Hq). f_equal.
        destruct (decide (o = p)) as [E|Hne]; [exact E|].
        rewrite Hq in Ho by lia. discriminate.
    + rewrite IH. split.
      * intros (Hlt & Hs & Hq). split; [lia|]. split; [exact Hs|].
        intros q Hr. destruct (decide (q = o)) as [->|Hne]; [exact Ho|].
        apply Hq. lia.
      * intros (Hlt & Hs & Hq).
        assert (p <> o) by (intros ->; congruence).
        split; [lia|]. split; [exact Hs|]. intros q Hr. apply Hq. lia.
Qed.

Lemma step1_offset_None curr_end offset :
  step1_offset L t file file_buffer curr_end offset = None <->
  forall q, q < offset -> is_stop L t file file_buffer curr_end q = false.
Proof.
  induction offset as [|o IH]; cbn.
  - split; [intros _ q Hq; lia | reflexivity].
  - destruct (is_stop L t file file_buffer curr_end o) eqn:Ho.
    + split; [discriminate|]. intros H. rewrite H in Ho by lia. discriminate.
    + rewrite IH. split.
      * intros H q Hq. destruct (decide (q = o)) as [->|Hne]; [exact Ho|].
        apply H. lia.
      * intros H q Hq. apply H. lia.
Qed.

(** Step 1 asks the oracle at the bytes that are not whitespace, from
    [offset - 1] down to the offset it stops at, and nowhere else. *)
Lemma step1_probes_eq curr_end offset p :
  offset <= length file_buffer ->
  step1_offset L t file file_buffer curr_end offset = Some p ->
  step1_probes L t file file_buffer curr_end offset
  = List.filter (fun q => negb (space_at file_buffer q)) (down_to p offset).
Proof.
  induction offset as [|o IH]; cbn [step1_offset step1_probes down_to];
    [discriminate|].
  intros Hlen.
  destruct (file_buffer !! o) as [c|] eqn:Hb.
  2:{ apply lookup_ge_None in Hb. lia. }
  assert (space_at file_buffer o = isspace c) as Hsp
    by (unfold space_at; now rewrite Hb).
  unfold is_stop at 1 2. rewrite Hb.
  destruct (isspace c) eqn:Hc; cbn [negb andb].
  - intros Hp. pose proof (step1_offset_lt _ _ _ Hp) as Hlt.
    destruct (Nat.ltb_spec o p); [lia|].
    cbn [List.filter]. rewrite Hsp. cbn [negb].
    apply IH; [lia | exact Hp].
  - destruct (match end_at L t file o with
              | Some e => negb (clang_equalLocations e curr_end)
              | None => false
              end) eqn:Hs.
    + intros [= <-]. destruct (Nat.ltb_spec o o); [lia|].
      cbn [List.filter]. rewrite Hsp. cbn [negb].
      f_equal. destruct o; cbn [down_to]; [reflexivity|].
      destruct (Nat.ltb_spec o (S o)); [reflexivity | lia].
    + intros Hp. pose proof (step1_offset_lt _ _ _ Hp) as Hlt.
      destruct (Nat.ltb_spec o p); [lia|].
      cbn [List.filter]. rewrite Hsp. cbn [negb].
      f_equal. apply IH; [lia | exact Hp].
Qed.

Lemma find_if_le {A} (p : A -> bool) (l : list A) : find_if p l <= length l.
Proof. induction l as [|x l IH]; cbn; [lia|]. destruct (p x); cbn; lia. Qed.

Lemma find_if_spec {A} (p : A -> bool) (l : list A) :
  (forall i x, i < find_if p l -> l !! i = Some x -> p x = false) /\
  (find_if p l < length l -> exists x, l !! find_if p l = Some x /\ p x = true).
Proof.
  induction l as [|y l [IH1 IH2]]; cbn.
  - split; [intros; lia | lia].
  - destruct (p y) eqn:Hy; cbn.
    + split; [intros; lia | eauto].
    + split.
      * intros [|i] x Hi; cbn; [intros [= <-]; exact Hy|].
        apply IH1. lia.
      * intros H. apply IH2. lia.
Qed.

Lemma step2_span_bounds offset :
  offset <= length file_buffer ->
  sp_data (step2_span file_buffer offset)
  + sp_size (step2_span file_buffer offset) = offset.
Proof.
  intros Hle. unfold step2_span, last_of, first_of, span_bytes.
  cbn [sp_data sp_size]. change (drop 0 file_buffer) with file_buffer.
  pose proof (find_if_le isspace (reverse (take offset file_buffer))) as H.
  rewrite length_reverse, length_take in H. lia.
Qed.

(** The span of step 2 is the longest run of bytes that are not whitespace
    and end just before [offset]. *)
Lemma step2_span_spec offset :
  offset <= length file_buffer ->
  let w := sp_data (step2_span file_buffer offset) in
  w <= offset /\
  (forall q, w <= q < offset -> space_at file_buffer q = false) /\
  (0 < w -> space_at file_buffer (w - 1) = true).
Proof.
  intros Hle. cbv zeta.
  pose proof (step2_span_bounds offset Hle) as Hsp.
  unfold step2_span, last_of, first_of, span_bytes in *.
  cbn [sp_data sp_size] in *. change (drop 0 file_buffer) with file_buffer in *.
  set (l := reverse (take offset file_buffer)) in *.
  assert (length l = offset) as Hl.
  { unfold l. rewrite length_reverse, length_take. lia. }
  pose proof (find_if_le isspace l) as Hn.
  destruct (find_if_spec isspace l) as [H1 H2].
  assert (forall i, i < offset -> l !! i = file_buffer !! (offset - S i)) as Hlook.
  { intros i Hi. unfold l. rewrite reverse_lookup by (rewrite length_take; lia).
    rewrite length_take, Nat.min_l by lia. apply lookup_take_lt. lia. }
  split; [lia|]. split.
  - intros q Hq. unfold space_at.
    destruct (file_buffer !! q) as [c|] eqn:Hc; [|reflexivity].
    apply (H1 (offset - S q)); [lia|].
    rewrite Hlook by lia. replace (offset - S (offset - S q)) with q by lia.
    exact Hc.
  - intros Hw. destruct H2 as (x & Hx & Hpx); [lia|].
    rewrite Hlook in Hx by lia. unfold space_at.
    replace (0 + (offset - find_if isspace l) - 1)
      with (offset - S (find_if isspace l)) by lia.
    now rewrite Hx.
Qed.

Lemma step2_loop_pos_spec (ok : nat -> bool) fuel : forall search_span best,
  sp_size search_span <= fuel ->
  best = sp_data search_span + sp_size search_span ->
  let r := step2_loop_pos fuel ok search_span best in
  sp_data search_span <= r <= best /\
  (r < best -> ok r = true) /\
  ((forall q q', sp_data search_span <= q <= q' -> q' < best ->
                 ok q = true -> ok q' = true) ->
   forall q, sp_data search_span <= q < r -> ok q = false).
Proof.
  induction fuel as [|fuel IH]; intros sp best Hfuel Hbest;
    cbn [step2_loop_pos]; unfold span_empty;
    destruct (Nat.eqb_spec (sp_size sp) 0) as [Hz|Hnz]; cbv zeta.
  1,3: (split; [lia|]; split; [lia|]; intros; lia).
  - lia.
  - assert (sp_size sp / 2 < sp_size sp) as Hmid by (apply Nat.div_lt; lia).
    generalize dependent (sp_size sp / 2). intros mid Hmid.
    destruct (ok (sp_data sp + mid)) eqn:Hok.
    + destruct (IH (first_of sp mid) (sp_data sp + mid)
                  ltac:(cbn; lia) ltac:(reflexivity)) as (Hr & Hokr & Hleast).
      cbn [first_of sp_data sp_size] in *.
      set (r := step2_loop_pos fuel ok _ _) in *.
      split; [lia|]. split.
      * intros _. destruct (decide (r = sp_data sp + mid)) as [->|Hne];
          [exact Hok | apply Hokr; lia].
      * intros Hmono. apply Hleast. intros q q' Hq Hq'. apply Hmono; lia.
    + destruct (IH (subspan_of sp (mid + 1)) best
                  ltac:(cbn; lia) ltac:(cbn; lia)) as (Hr & Hokr & Hleast).
      cbn [subspan_of sp_data sp_size] in *.
      set (r := step2_loop_pos fuel ok _ _) in *.
      split; [lia|]. split; [exact Hokr|].
      intros Hmono q Hq.
      destruct (Nat.le_gt_cases q (sp_data sp + mid)) as [Hle|Hgt].
      * destruct (ok q) eqn:Hoq; [|reflexivity].
        rewrite (Hmono q (sp_data sp + mid)) in Hok; [discriminate|lia|lia|exact Hoq].
      * apply Hleast; [|lia]. intros a b Ha Hb. apply Hmono; lia.
Qed.

Lemma step2_pos_spec (ok : nat -> bool) offset :
  offset <= length file_buffer -> ok offset = true ->
  let w := sp_data (step2_span file_buffer offset) in
  let r := step2_pos ok file_buffer offset in
  w <= r <= offset /\ ok r = true /\
  ((forall q q', w <= q <= q' -> q' < offset -> ok q = true -> ok q' = true) ->
   forall q, w <= q < r -> ok q = false).
Proof.
  intros Hle Hok. cbv zeta. unfold step2_pos. cbv zeta.
  pose proof (step2_span_bounds offset Hle) as Hsp.
  generalize dependent (step2_span file_buffer offset). intros sp Hsp.
  unfold span_empty. destruct (Nat.eqb_spec (sp_size sp) 0) as [Hz|Hnz]; cbn [negb].
  { split; [lia|]. split; [exact Hok|]. intros; lia. }
  destruct (ok (sp_data sp)) eqn:Hw.
  { split; [lia|]. split; [exact Hw|]. intros; lia. }
  destruct (step2_loop_pos_spec ok (sp_size (subspan_of sp 1))
              (subspan_of sp 1) offset ltac:(lia) ltac:(cbn; lia))
    as (Hr & Hokr & Hleast).
  cbn [subspan_of sp_data sp_size] in *.
  set (r := step2_loop_pos _ ok _ _) in *.
  split; [lia|]. split.
  - destruct (decide (r = offset)) as [->|Hne]; [exact Hok | apply Hokr; lia].
  - intros Hmono q Hq.
    destruct (decide (q = sp_data sp)) as [->|Hne]; [exact Hw|].
    apply Hleast; [|lia]. intros a b Ha Hb. apply Hmono; lia.
Qed.

(** The checks of [first(offset)] and [last(str_length)] at the head of
    step 2 pass for an offset in the buffer, and leave [step2_span]. *)
Lemma step2_prefix {A} offset s (k : span -> M L A) :
  offset <= length file_buffer ->
  (search_span <- span_first L (mkSpan 0 (length file_buffer)) offset ;;
   search_span' <- span_last L search_span
                     (find_if isspace (reverse (span_bytes file_buffer search_span))) ;;
   k search_span') s
  = k (step2_span file_buffer offset) s.
Proof.
  intros Hle.
  rewrite (bind_Ok _ _ _ _ _ (span_first_eq (mkSpan 0 (length file_buffer)) offset s Hle)).
  erewrite bind_Ok; [reflexivity|].
  apply span_last_eq.
  pose proof (find_if_le isspace
                (reverse (span_bytes file_buffer (first_of (mkSpan 0 (length file_buffer)) offset)))) as H.
  rewrite length_reverse in H. unfold span_bytes, first_of in *.
  cbn [sp_size sp_data] in *. rewrite length_take in H. lia.
Qed.

End ReverseStepPure.

Section ReverseStep.

Variables (t : CXTranslationUnit) (file : CXFile) (file_buffer : list ascii).
Hypothesis t_not_null : t <> nullptr.

(** Step 1 either stops at the offset [step1_offset] gives, with the token
    the oracle yields there, or runs into [assert(offset > 0)]. *)
Lemma step1_run curr_end offset : forall candidate_tok s,
  offset <= length file_buffer -> owned L t s candidate_tok ->
  match step1_offset L t file file_buffer curr_end offset with
  | Some p =>
      returns (step1 L t file file_buffer curr_end offset candidate_tok) s
        (fun r s' =>
           step1_post L t file p s r s' /\
           run_effect L (ut_get candidate_tok) file
             (step1_probes L t file file_buffer curr_end offset) s s')
  | None =>
      exists evs,
        step1 L t file file_buffer curr_end offset candidate_tok s
        = Halt assert_offset_gt_0 (trace s ++ evs) /\
        queries evs =
        map (fun q => mkLoc file q)
            (step1_probes L t file file_buffer curr_end offset)
  end.
Proof.
  induction offset as [|o IH]; intros cand s Hlen Hown.
  - exists []. cbn. unfold stop. now rewrite app_nil_r.
  - cbn [step1 step1_offset step1_probes]. unfold is_stop.
    destruct (file_buffer !! o) as [c|] eqn:Hb.
    2:{ apply lookup_ge_None in Hb. lia. }
    destruct (isspace c) eqn:Hc; cbn [negb andb].
    { apply IH; [lia | exact Hown]. }
    destruct (clang_getToken_at t file o s) as (p & s1 & E1 & R1 & Hm).
    assert (owned L t s1 cand) as Hown1.
    { eapply owned_frame; [exact Hown | apply R1 |].
      destruct (ut_get cand); [left; discriminate | now right]. }
    destruct (unique_token_reset_owned t file cand p s1 t_not_null Hown1)
      as (s2 & E2 & R2 & L2).
    assert (run_effect L (ut_get cand) file [o] s s2) as R12.
    { change [o] with ([o] ++ @nil nat).
      eapply run_effect_trans; [apply run_effect_weaken, R1 | exact R2 |].
      intros h ->. now left. }
    unfold returns.
    rewrite !(bind_Ok _ _ _ _ _ E1), !(bind_Ok _ _ _ _ _ E2).
    unfold end_at. destruct (token_at L t file o) as [tok|] eqn:Htok.
    + destruct Hm as (-> & Hl1 & Hlen1).
      assert (live L s2 (length (heap s)) tok) as Hl2.
      { apply R2; [|exact Hl1]. intros E. symmetry in E.
        pose proof (owned_handle_lt _ _ _ _ Hown E). lia. }
      rewrite !(bind_Ok _ _ _ _ _ (clang_getTokenExtent_eq t _ _ _ Hl2)).
      fold (token_end L t tok).
      destruct (clang_equalLocations (token_end L t tok) curr_end) eqn:He;
        cbn [negb].
      * assert (owned L t s2 (mkUnique (Some (length (heap s))) (mkDeleter t))) as Hown2.
        { split; [reflexivity|]. cbn. eauto. }
        specialize (IH _ s2 ltac:(lia) Hown2).
        destruct (step1_offset L t file file_buffer curr_end o) as [p|].
        2:{ destruct IH as (evs & EH & Hq).
            destruct R12 as (_ & _ & evs12 & Htr & Hq12).
            exists (evs12 ++ evs). rewrite EH, Htr, app_assoc.
            split; [reflexivity|]. now rewrite queries_app, Hq12, Hq. }
        unfold returns in IH.
        destruct (step1 L t file file_buffer curr_end o _ s2) as [[r s']|]; [|exact IH].
        destruct IH as [(Hp & h & tok' & Hc' & Hl' & Hge & Hat & Hend) R3].
        split.
        -- split; [exact Hp|]. exists h, tok'.
           repeat (split; [assumption|]). split; [|split; assumption].
           destruct R12 as (_ & ? & _). lia.
        -- change (o :: ?l) with ([o] ++ l).
           eapply run_effect_trans; [exact R12 | exact R3 |].
           cbn. intros h' [= <-]. right. lia.
      * unfold ret. split; [|exact R12].
        split; [reflexivity|]. exists (length (heap s)), tok. cbn.
        repeat (split; [first [reflexivity | assumption | lia]|]). reflexivity.
    + destruct Hm as (-> & Hlen1).
      assert (owned L t s2 (mkUnique None (mkDeleter t))) as Hown2.
      { split; [reflexivity | exact I]. }
      specialize (IH _ s2 ltac:(lia) Hown2).
      destruct (step1_offset L t file file_buffer curr_end o) as [p|].
        2:{ destruct IH as (evs & EH & Hq).
            destruct R12 as (_ & _ & evs12 & Htr & Hq12).
            exists (evs12 ++ evs). rewrite EH, Htr, app_assoc.
            split; [reflexivity|]. now rewrite queries_app, Hq12, Hq. }
      unfold returns in IH.
      destruct (step1 L t file file_buffer curr_end o _ s2) as [[r s']|]; [|exact IH].
      destruct IH as [(Hp & h & tok' & Hc' & Hl' & Hge & Hat & Hend) R3].
      split.
      * split; [exact Hp|]. exists h, tok'.
        repeat (split; [assumption|]). split; [|split; assumption].
        destruct R12 as (_ & ? & _). lia.
      * change (o :: ?l) with ([o] ++ l).
        eapply run_effect_trans; [exact R12 | exact R3 |].
        cbn. discriminate.
Qed.

Lemma unique_token_destroy_eq h s tok :
  live L s h tok ->
  unique_token_destroy L (mkUnique (Some h) (mkDeleter t)) s =
  Ok (tt, mkState (<[h := None]> (heap s)) (trace s ++ [EvDispose t h])).
Proof. intros Hl. unfold unique_token_destroy. cbn. eapply token_deleter_call_eq; eauto. Qed.

(** One probe of step 2: the verdict is what [ends_at] says, and the
    candidate is replaced by the probed token exactly when it is [true]. *)
Lemma consider_next_candidate_run candidate_end hc tokc pos s :
  live L s hc tokc ->
  exists u' s' h' tok',
    consider_next_candidate L t file candidate_end
      (mkUnique (Some hc) (mkDeleter t)) pos s
    = Ok ((ends_at L t file candidate_end pos, u'), s') /\
    run_effect L (Some hc) file [pos] s s' /\
    u' = mkUnique (Some h') (mkDeleter t) /\ live L s' h' tok' /\
    (if ends_at L t file candidate_end pos
     then length (heap s) <= h' /\ token_at L t file pos = Some tok'
     else h' = hc /\ tok' = tokc).
Proof.
  intros Hc. unfold consider_next_candidate.
  destruct (clang_getToken_at t file pos s) as (p & s1 & E1 & R1 & Hm).
  rewrite (bind_Ok _ _ _ _ _ E1). unfold ends_at, end_at.
  assert (live L s1 hc tokc) as Hc1 by (apply R1; [discriminate | exact Hc]).
  pose proof (live_lt _ _ _ Hc) as Hlt.
  destruct (token_at L t file pos) as [tok|].
  - destruct Hm as (-> & Hl1 & Hlen1).
    rewrite (bind_Ok _ _ _ _ _ (clang_getTokenExtent_eq t _ _ _ Hl1)).
    fold (token_end L t tok).
    destruct (clang_equalLocations (token_end L t tok) candidate_end) eqn:He;
      cbn [negb].
    + rewrite (bind_Ok _ _ _ _ _
                 (unique_token_move_assign_eq t hc _ s1 tokc t_not_null Hc1)).
      cbn [ut_get ut_deleter].
      destruct R1 as (F1 & Hle1 & evs & T1 & Q1).
      do 2 eexists. exists (length (heap s)), tok.
      split; [reflexivity|]. split.
      * split; [|split].
        -- intros h tok' Hne Hl.
           eapply (live_free_other s1); [reflexivity | congruence |].
           apply F1; [discriminate | exact Hl].
        -- cbn. rewrite length_insert. lia.
        -- exists (evs ++ [EvDispose t hc]). cbn [trace]. split.
           ++ now rewrite T1, app_assoc.
           ++ rewrite queries_app, Q1. reflexivity.
      * split; [reflexivity|]. split; [|split; [lia|reflexivity]].
        eapply (live_free_other s1); [reflexivity | lia | exact Hl1].
    + rewrite (bind_Ok _ _ _ _ _ (unique_token_destroy_eq _ s1 tok Hl1)).
      destruct R1 as (F1 & Hle1 & evs & T1 & Q1).
      do 2 eexists. exists hc, tokc.
      split; [reflexivity|]. split.
      * split; [|split].
        -- intros h tok' Hne Hl. pose proof (live_lt _ _ _ Hl).
           eapply (live_free_other s1); [reflexivity | lia |].
           apply F1; [discriminate | exact Hl].
        -- cbn. rewrite length_insert. lia.
        -- exists (evs ++ [EvDispose t (length (heap s))]). cbn [trace]. split.
           ++ now rewrite T1, app_assoc.
           ++ rewrite queries_app, Q1. reflexivity.
      * split; [reflexivity|]. split; [|split; reflexivity].
        eapply (live_free_other s1); [reflexivity | lia | exact Hc1].
  - destruct Hm as (-> & Hlen1).
    do 2 eexists. exists hc, tokc.
    split; [reflexivity|]. split; [apply run_effect_weaken, R1|].
    split; [reflexivity|]. split; [exact Hc1 | split; reflexivity].
Qed.

(** The binary search returns (its fuel is never used up), with the token
    the oracle yields at the offset [step2_loop_pos] gives. *)
Lemma step2_loop_run candidate_end s0 bound fuel : forall search_span u s best,
  sp_size search_span <= fuel ->
  sp_data search_span + sp_size search_span <= bound ->
  length (heap s0) <= length (heap s) ->
  candidate_at L t file s0 s u best ->
  returns (step2_loop L fuel t file candidate_end search_span u) s
    (fun u' s' =>
       candidate_at L t file s0 s' u'
         (step2_loop_pos fuel (ends_at L t file candidate_end) search_span best) /\
       exists pr, run_effect L (ut_get u) file pr s s' /\
                  Forall (fun q => q < bound) pr).
Proof.
  induction fuel as [|fuel IH]; intros sp u s best Hfuel Hbound Hs0 Hcand;
    cbn [step2_loop step2_loop_pos]; unfold span_empty;
    destruct (Nat.eqb_spec (sp_size sp) 0) as [Hz|Hnz].
  1,3: (unfold returns, ret; split; [exact Hcand|];
        exists []; split; [apply run_effect_refl | constructor]).
  - lia.
  - destruct Hcand as (h & tok & -> & Hl & Hge & Hat).
    assert (sp_size sp / 2 < sp_size sp) as Hmid by (apply Nat.div_lt; lia).
    generalize dependent (sp_size sp / 2). intros mid Hmid.
    destruct (consider_next_candidate_run candidate_end h tok
                (sp_data sp + mid) s Hl)
      as (u1 & s1 & h1 & tok1 & E & R & -> & Hl1 & Hcase).
    unfold returns. rewrite (bind_Ok _ _ _ _ _ (span_at_eq sp mid s Hmid)).
    rewrite (bind_Ok _ _ _ _ _ E). cbn [fst snd].
    assert (length (heap s0) <= length (heap s1)) as Hs1
      by (destruct R as (_ & ? & _); lia).
    destruct (ends_at L t file candidate_end (sp_data sp + mid)).
    + destruct Hcase as [Hge1 Hat1].
      rewrite (bind_Ok _ _ _ _ _
                 (span_first_eq sp mid s1 (Nat.lt_le_incl _ _ Hmid))).
      assert (candidate_at L t file s0 s1 (mkUnique (Some h1) (mkDeleter t))
                (sp_data sp + mid)) as Hc1.
      { exists h1, tok1. repeat (split; [first [reflexivity|assumption|lia]|]).
        exact Hat1. }
      specialize (IH (first_of sp mid) _ s1 (sp_data sp + mid)
                     ltac:(cbn; lia) ltac:(cbn; lia) Hs1 Hc1).
      unfold returns in IH.
      destruct (step2_loop L fuel t file candidate_end _ _ s1) as [[u' s']|];
        [|exact IH].
      destruct IH as [Hc' (pr & R' & Hpr)]. split; [exact Hc'|].
      exists ([sp_data sp + mid] ++ pr). split.
      * eapply run_effect_trans; [exact R | exact R' |].
        cbn. intros h' [= <-]. right. lia.
      * constructor; [lia | exact Hpr].
    + destruct Hcase as [-> ->].
      rewrite (bind_Ok _ _ _ _ _ (span_subspan_eq sp (mid + 1) s1 ltac:(lia))).
      assert (candidate_at L t file s0 s1 (mkUnique (Some h) (mkDeleter t)) best)
        as Hc1.
      { exists h, tok. repeat (split; [first [reflexivity|assumption|lia]|]).
        exact Hat. }
      specialize (IH (subspan_of sp (mid + 1)) _ s1 best
                     ltac:(cbn; lia) ltac:(cbn; lia) Hs1 Hc1).
      unfold returns in IH.
      destruct (step2_loop L fuel t file candidate_end _ _ s1) as [[u' s']|];
        [|exact IH].
      destruct IH as [Hc' (pr & R' & Hpr)]. split; [exact Hc'|].
      exists ([sp_data sp + mid] ++ pr). split.
      * eapply run_effect_trans; [exact R | exact R' |].
        cbn. intros h' [= <-]. now left.
      * constructor; [lia | exact Hpr].
Qed.

(** Step 2 returns, with the token the oracle yields at the offset
    [step2_pos] gives; it probes only offsets below [offset]. *)
Lemma step2_run candidate_end s0 offset u s :
  offset <= length file_buffer ->
  length (heap s0) <= length (heap s) ->
  candidate_at L t file s0 s u offset ->
  returns (step2 L t file file_buffer candidate_end offset u) s
    (fun u' s' =>
       candidate_at L t file s0 s' u'
         (step2_pos (ends_at L t file candidate_end) file_buffer offset) /\
       exists pr, run_effect L (ut_get u) file pr s s' /\
                  Forall (fun q => q < offset) pr).
Proof.
  intros Hle Hs0 Hcand. unfold step2, step2_pos. cbv zeta.
  unfold returns. rewrite (step2_prefix file_buffer offset s _ Hle). cbv beta.
  pose proof (step2_span_bounds file_buffer offset Hle) as Hsp.
  generalize dependent (step2_span file_buffer offset). intros sp Hsp.
  unfold span_empty. destruct (Nat.eqb_spec (sp_size sp) 0) as [Hz|Hnz]; cbn [negb].
  { unfold returns, ret. split; [exact Hcand|].
    exists []. split; [apply run_effect_refl | constructor]. }
  destruct Hcand as (h & tok & -> & Hl & Hge & Hat).
  destruct (consider_next_candidate_run candidate_end h tok (sp_data sp) s Hl)
    as (u1 & s1 & h1 & tok1 & E & R & -> & Hl1 & Hcase).
  unfold returns. rewrite (bind_Ok _ _ _ _ _ E). cbn [fst snd].
  assert (length (heap s0) <= length (heap s1)) as Hs1
    by (destruct R as (_ & ? & _); lia).
  destruct (ends_at L t file candidate_end (sp_data sp)).
  - destruct Hcase as [Hge1 Hat1]. unfold ret. split.
    + exists h1, tok1. repeat (split; [first [reflexivity|assumption|lia]|]).
      exact Hat1.
    + exists [sp_data sp]. split; [exact R|]. constructor; [lia|constructor].
  - destruct Hcase as [-> ->].
    rewrite (bind_Ok _ _ _ _ _ (span_subspan_eq sp 1 s1 ltac:(lia))).
    assert (candidate_at L t file s0 s1 (mkUnique (Some h) (mkDeleter t)) offset)
      as Hc1.
    { exists h, tok. repeat (split; [first [reflexivity|assumption|lia]|]).
      exact Hat. }
    pose proof (step2_loop_run candidate_end s0 offset
                  (sp_size (subspan_of sp 1)) (subspan_of sp 1) _ s1 offset
                  ltac:(lia) ltac:(cbn; lia) Hs1 Hc1) as Hloop.
    unfold returns in Hloop.
    destruct (step2_loop L _ t file candidate_end _ _ s1) as [[u' s']|];
      [|exact Hloop].
    destruct Hloop as [Hc' (pr & R' & Hpr)]. split; [exact Hc'|].
    exists ([sp_data sp] ++ pr). split.
    + eapply run_effect_trans; [exact R | exact R' |].
      cbn. intros h' [= <-]. now left.
    + constructor; [lia | exact Hpr].
Qed.

(** The reverse step as a whole, when step 1 finds an offset [p] to stop
    at: the cursor ends up with a new handle for the token the oracle yields
    at the offset step 2 settles on. *)
Lemma operator_dec_run h tok s offset p :
  live L s h tok ->
  clang_getSpellingLocation (token_start L t tok) = (file, offset) ->
  file <> nullptr -> 0 < offset ->
  lex_getFileContents L t file = Some file_buffer ->
  offset < length file_buffer ->
  step1_offset L t file file_buffer (token_end L t tok) offset = Some p ->
  returns (operator_dec L (mkIterator (mkUnique (Some h) (mkDeleter t)))) s
    (fun it' s' =>
       exists h' tok' tokp,
         it' = mkIterator (mkUnique (Some h') (mkDeleter t)) /\
         live L s' h' tok' /\ length (heap s) <= h' /\
         token_at L t file p = Some tokp /\
         token_at L t file
           (step2_pos (ends_at L t file (token_end L t tokp)) file_buffer p)
         = Some tok' /\
         exists pr, run_effect L (Some h) file pr s s' /\
                    Forall (fun q => q < offset) pr).
Proof.
  intros Hl Hstart Hfile Hpos Hbuf Hlt Hp.
  unfold operator_dec, returns. cbn [has_token m_tok ut_get].
  rewrite (bind_Ok _ _ _ _ _ (assert_true _ s)).
  rewrite (bind_Ok _ _ _ _ _ (extent_eq t h s tok Hl)).
  fold (token_start L t tok) (token_end L t tok). rewrite Hstart. cbn [fst snd].
  rewrite (neq_nullptr_eqb _ Hfile), (bind_Ok _ _ _ _ _ (assert_true _ s)).
  apply Nat.ltb_lt in Hpos as Hpos'. rewrite Hpos'.
  rewrite (bind_Ok _ _ _ _ _ (assert_true _ s)).
  rewrite (bind_Ok _ _ _ _ _ (tu_eq t h s)). rewrite Hbuf.
  apply Nat.ltb_lt in Hlt as Hlt'. rewrite Hlt'.
  rewrite (bind_Ok _ _ _ _ _ (assert_true _ s)).
  pose proof (step1_run (token_end L t tok) offset
                (mkUnique None (mkDeleter t)) s ltac:(lia)
                ltac:(split; [reflexivity | exact I])) as H1.
  rewrite Hp in H1. unfold returns in H1.
  destruct (step1 L t file file_buffer _ offset _ s) as [[r s1]|] eqn:E1;
    [|contradiction].
  destruct H1 as [(Hr & h1 & tok1 & Hcand & Hl1 & Hge1 & Hat1 & Hend1) R1].
  cbn [ut_get] in R1. rewrite (bind_Ok _ _ _ _ _ E1).
  pose proof (step1_offset_lt _ _ _ _ _ _ Hp) as Hpo.
  assert (length (heap s) <= length (heap s1)) as Hs1
    by (destruct R1 as (_ & ? & _); lia).
  pose proof (step2_run (s1_end r) s (s1_offset r) (s1_candidate r) s1
                ltac:(lia) Hs1
                ltac:(exists h1, tok1; rewrite Hr; auto)) as H2.
  unfold returns in H2.
  destruct (step2 L t file file_buffer _ _ _ s1) as [[u' s2]|] eqn:E2;
    [|contradiction].
  destruct H2 as [(h' & tok' & -> & Hl' & Hge' & Hat') (pr & R2 & Hpr)].
  rewrite Hcand in R2. cbn [ut_get] in R2.
  rewrite (bind_Ok _ _ _ _ _ E2).
  pose proof (live_lt _ _ _ Hl) as Hh.
  assert (live L s2 h tok) as Hl2.
  { apply R2; [intros [= E]; lia|]. apply R1; [discriminate | exact Hl]. }
  rewrite (bind_Ok _ _ _ _ _
             (unique_token_move_assign_eq t h _ s2 tok t_not_null Hl2)).
  cbn [ut_get ut_deleter ret].
  exists h', tok', tok1.
  split; [reflexivity|]. split.
  { eapply (live_free_other s2); [reflexivity | lia | exact Hl']. }
  split; [exact Hge'|]. split; [exact Hat1|].
  split; [now rewrite Hend1, Hr in Hat'|].
  exists (step1_probes L t file file_buffer (token_end L t tok) offset ++ pr).
  split.
  - destruct R1 as (F1 & Hle1 & evs1 & T1 & Q1).
    destruct R2 as (F2 & Hle2 & evs2 & T2 & Q2).
    split; [|split].
    + intros k tokk Hne Hk. pose proof (live_lt _ _ _ Hk).
      eapply (live_free_other s2); [reflexivity | congruence |].
      apply F2; [intros [= E]; lia|]. apply F1; [discriminate | exact Hk].
    + cbn. rewrite length_insert. lia.
    + exists (evs1 ++ evs2 ++ [EvDispose t h]). cbn [trace]. split.
      * now rewrite T2, T1, !app_assoc.
      * rewrite !queries_app, Q1, Q2, map_app. cbn. now rewrite app_nil_r.
  - apply Forall_app. split; [apply step1_probes_lt|].
    eapply Forall_impl; [exact Hpr|]. cbn. intros; lia.
Qed.

End ReverseStep.

(** *** When the reverse step halts, and when it returns *)

Lemma operator_dec_sentinel it s :
  has_token it = false -> operator_dec L it s = Halt assert_m_tok (trace s).
Proof. intros H. unfold operator_dec. now rewrite H. Qed.

Lemma operator_dec_offset_0 t h tok s :
  live L s h tok -> loc_offset (token_start L t tok) = 0 ->
  operator_dec L (mkIterator (mkUnique (Some h) (mkDeleter t))) s
  = Halt (if Nat.eqb (loc_file (token_start L t tok)) nullptr
          then assert_file else assert_offset_gt_0) (trace s).
Proof.
  intros Hl Ho. unfold operator_dec. cbn [has_token m_tok ut_get].
  rewrite (bind_Ok _ _ _ _ _ (assert_true _ s)).
  rewrite (bind_Ok _ _ _ _ _ (extent_eq t h s tok Hl)).
  fold (token_start L t tok). unfold clang_getSpellingLocation. cbn [fst snd].
  rewrite Ho. destruct (Nat.eqb _ nullptr); reflexivity.
Qed.

(** A reverse step that returns has passed every assertion, and its step 1
    has found an offset to stop at. *)
Lemma operator_dec_inv t h tok s it' s' :
  t <> nullptr -> live L s h tok ->
  operator_dec L (mkIterator (mkUnique (Some h) (mkDeleter t))) s = Ok (it', s') ->
  exists file_buffer p,
    loc_file (token_start L t tok) <> nullptr /\
    0 < loc_offset (token_start L t tok) /\
    lex_getFileContents L t (loc_file (token_start L t tok)) = Some file_buffer /\
    loc_offset (token_start L t tok) < length file_buffer /\
    step1_offset L t (loc_file (token_start L t tok)) file_buffer
      (token_end L t tok) (loc_offset (token_start L t tok)) = Some p.
Proof.
  intros Ht Hl. unfold operator_dec. cbn [has_token m_tok ut_get].
  rewrite (bind_Ok _ _ _ _ _ (assert_true _ s)).
  rewrite (bind_Ok _ _ _ _ _ (extent_eq t h s tok Hl)).
  fold (token_start L t tok) (token_end L t tok).
  unfold clang_getSpellingLocation. cbn [fst snd].
  set (file := loc_file (token_start L t tok)).
  set (offset := loc_offset (token_start L t tok)).
  destruct (Nat.eqb_spec file nullptr) as [|Hfile]; [discriminate|]. cbn [negb].
  rewrite (bind_Ok _ _ _ _ _ (assert_true _ s)).
  destruct (Nat.ltb_spec 0 offset) as [Hpos|]; [|discriminate].
  rewrite (bind_Ok _ _ _ _ _ (assert_true _ s)).
  rewrite (bind_Ok _ _ _ _ _ (tu_eq t h s)).
  destruct (lex_getFileContents L t file) as [buf|]; [|discriminate].
  destruct (Nat.ltb_spec offset (length buf)) as [Hlt|]; [|discriminate].
  rewrite (bind_Ok _ _ _ _ _ (assert_true _ s)).
  pose proof (step1_run t file buf Ht (token_end L t tok) offset
                (mkUnique None (mkDeleter t)) s ltac:(lia)
                ltac:(split; [reflexivity | exact I])) as H1.
  destruct (step1_offset L t file buf (token_end L t tok) offset) as [p|] eqn:Hs1.
  - intros _. exists buf, p.
    split; [exact Hfile|]. split; [exact Hpos|]. split; [reflexivity|].
    split; [exact Hlt | exact Hs1].
  - destruct H1 as (evs & H1 & _). rewrite (bind_Halt _ _ _ _ _ H1). discriminate.
Qed.

(** ** The reverse step: what it guarantees *)

(** C3.  Step 1 of the reverse step, started at [offset] (the start offset
    of the current token) with no candidate.  Let [p] be an offset below
    [offset] whose byte is not whitespace and where the lexer yields a token
    whose end location differs from [curr_end], and let every offset between
    [p] and [offset] hold a whitespace byte, or yield no token, or yield a
    token whose end location is [curr_end].  Then step 1 returns with offset
    [p], with that token as the candidate and its end location as the
    discriminator; and it has asked the lexer exactly at the bytes that are
    not whitespace, from [offset - 1] down to [p]. *)
Theorem step1_spec t file file_buffer curr_end offset s p c tok :
  t <> nullptr -> offset <= length file_buffer -> p < offset ->
  file_buffer !! p = Some c -> isspace c = false ->
  token_at L t file p = Some tok ->
  clang_equalLocations (token_end L t tok) curr_end = false ->
  (forall q, p < q < offset ->
     space_at file_buffer q = true \/
     token_at L t file q = None \/
     exists tok', token_at L t file q = Some tok' /\
                  clang_equalLocations (token_end L t tok') curr_end = true) ->
  exists r s' h,
    step1 L t file file_buffer curr_end offset (mkUnique None (mkDeleter t)) s
    = Ok (r, s') /\
    s1_offset r = p /\
    s1_candidate r = mkUnique (Some h) (mkDeleter t) /\ live L s' h tok /\
    s1_end r = token_end L t tok /\
    queries (trace s') =
    queries (trace s) ++
    map (fun q => mkLoc file q)
        (List.filter (fun q => negb (space_at file_buffer q)) (down_to p offset)).
Proof.
  intros Ht Hlen Hp Hc Hsp Htok Hend Hbetween.
  assert (step1_offset L t file file_buffer curr_end offset = Some p) as H1.
  { apply (proj2 (step1_offset_Some t file file_buffer curr_end offset p)).
    split; [exact Hp|]. split.
    - unfold is_stop, end_at. now rewrite Hc, Hsp, Htok, Hend.
    - intros q Hq. unfold is_stop, end_at.
      destruct (Hbetween q Hq) as [Hs|[Hn|(tok' & Ht' & He')]].
      + unfold space_at in Hs. destruct (file_buffer !! q); [|reflexivity].
        now rewrite Hs.
      + rewrite Hn. destruct (file_buffer !! q); [apply andb_false_r | reflexivity].
      + rewrite Ht', He'. destruct (file_buffer !! q); [apply andb_false_r | reflexivity]. }
  pose proof (step1_run t file file_buffer Ht curr_end offset
                (mkUnique None (mkDeleter t)) s Hlen
                ltac:(split; [reflexivity | exact I])) as Hrun.
  rewrite H1 in Hrun. apply returns_Ok in Hrun
    as (r & s' & E & (Hr & h & tok' & Hcand & Hl & _ & Hat & He) & R).
  assert (tok' = tok) as -> by congruence.
  exists r, s', h. split; [exact E|]. split; [exact Hr|].
  split; [exact Hcand|]. split; [exact Hl|]. split; [exact He|].
  destruct R as (_ & _ & evs & -> & Hq).
  rewrite queries_app, Hq. f_equal. f_equal.
  now apply step1_probes_eq.
Qed.

(** Whatever way a reverse step from a cursor with a live token ends, it
    has asked the lexer only in the file of the token's start location,
    below its start offset. *)
Lemma operator_dec_trace t h tok s :
  t <> nullptr -> live L s h tok ->
  exists evs,
    trace_of L (operator_dec L (mkIterator (mkUnique (Some h) (mkDeleter t))) s)
    = trace s ++ evs /\
    Forall (fun l =>
              loc_file l = loc_file (token_start L t tok) /\
              loc_offset l < loc_offset (token_start L t tok))
           (queries evs).
Proof.
  intros Ht Hl.
  set (file := loc_file (token_start L t tok)).
  set (offset := loc_offset (token_start L t tok)).
  assert (forall e, exists evs : list event,
             trace_of L (@Halt (token_iterator * lex_state L) e (trace s))
             = trace s ++ evs /\
             Forall (fun l => loc_file l = file /\ loc_offset l < offset)
                    (queries evs)) as Hnil.
  { intros e. exists []. cbn. rewrite app_nil_r. split; [reflexivity | constructor]. }
  destruct (Nat.eq_dec offset 0) as [Ho|Ho].
  { rewrite (operator_dec_offset_0 t h tok s Hl Ho). apply Hnil. }
  assert (0 < offset) as Hpos by lia.
  unfold operator_dec. cbn [has_token m_tok ut_get].
  rewrite (bind_Ok _ _ _ _ _ (assert_true _ s)).
  rewrite (bind_Ok _ _ _ _ _ (extent_eq t h s tok Hl)).
  fold (token_start L t tok) (token_end L t tok).
  unfold clang_getSpellingLocation. cbn [fst snd]. fold file offset.
  destruct (Nat.eqb_spec file nullptr) as [Hf|Hf]; [apply Hnil|]. cbn [negb].
  rewrite (bind_Ok _ _ _ _ _ (assert_true _ s)).
  apply Nat.ltb_lt in Hpos as Hpos'. rewrite Hpos'.
  rewrite (bind_Ok _ _ _ _ _ (assert_true _ s)).
  rewrite (bind_Ok _ _ _ _ _ (tu_eq t h s)).
  destruct (lex_getFileContents L t file) as [buf|] eqn:Hbuf; [|apply Hnil].
  destruct (Nat.ltb_spec offset (length buf)) as [Hlt|Hge]; [|apply Hnil].
  rewrite (bind_Ok _ _ _ _ _ (assert_true _ s)).
  destruct (step1_offset L t file buf (token_end L t tok) offset) as [p|] eqn:Hp.
  - pose proof (operator_dec_run t file buf Ht h tok s offset p Hl eq_refl
                  Hf Hpos Hbuf Hlt Hp) as Hrun.
    unfold returns, operator_dec in Hrun. cbn [has_token m_tok ut_get] in Hrun.
    rewrite (bind_Ok _ _ _ _ _ (assert_true _ s)) in Hrun.
    rewrite (bind_Ok _ _ _ _ _ (extent_eq t h s tok Hl)) in Hrun.
    fold (token_start L t tok) (token_end L t tok) in Hrun.
    unfold clang_getSpellingLocation in Hrun. cbn [fst snd] in Hrun.
    fold file offset in Hrun.
    rewrite (neq_nullptr_eqb _ Hf), (bind_Ok _ _ _ _ _ (assert_true _ s)) in Hrun.
    rewrite Hpos', (bind_Ok _ _ _ _ _ (assert_true _ s)) in Hrun.
    rewrite (bind_Ok _ _ _ _ _ (tu_eq t h s)), Hbuf in Hrun.
    apply Nat.ltb_lt in Hlt as Hlt'. rewrite Hlt' in Hrun.
    rewrite (bind_Ok _ _ _ _ _ (assert_true _ s)) in Hrun.
    destruct (bind (step1 L t file buf (token_end L t tok) offset _) _ s)
      as [[it' s']|e tr]; [|contradiction].
    destruct Hrun as (h' & tok' & tokp & _ & _ & _ & _ & _ & pr & R & Hpr).
    destruct R as (_ & _ & evs & Htr & Hq). exists evs. split; [exact Htr|].
    rewrite Hq. apply Forall_map. eapply Forall_impl; [exact Hpr|].
    cbn. auto.
  - pose proof (step1_run t file buf Ht (token_end L t tok) offset
                  (mkUnique None (mkDeleter t)) s ltac:(lia)
                  ltac:(split; [reflexivity | exact I])) as H1.
    rewrite Hp in H1. destruct H1 as (evs & H1 & Hq).
    rewrite (bind_Halt _ _ _ _ _ H1). exists evs. split; [reflexivity|].
    rewrite Hq. apply Forall_map.
    eapply Forall_impl; [apply step1_probes_lt|]. cbn. auto.
Qed.

(** C6.  [operator--] on an end sentinel stops at [assert(m_tok)], before
    any lexer call.  On a cursor whose token starts at byte offset 0 it
    stops at an assertion as well ([assert(file)] or [assert(offset > 0)]).
    From a cursor that holds a token, when it returns the start offset of
    the token was positive; and however the run ends, returning or stopped
    at an assertion after some probes, every location at which it asked the
    lexer lies in the file of the token's start location, at a byte offset
    below that start. *)
Theorem operator_dec_preconditions s it :
  (is_end_sentinel it = true ->
   operator_dec L it s = Halt assert_m_tok (trace s)) /\
  (forall tok,
     held L s it = Some tok ->
     loc_offset (token_start L (iterator_tu it) tok) = 0 ->
     operator_dec L it s = Halt assert_file (trace s) \/
     operator_dec L it s = Halt assert_offset_gt_0 (trace s)) /\
  (forall tok,
     held L s it = Some tok -> iterator_tu it <> nullptr ->
     (forall it' s', operator_dec L it s = Ok (it', s') ->
                     0 < loc_offset (token_start L (iterator_tu it) tok)) /\
     exists evs,
       trace_of L (operator_dec L it s) = trace s ++ evs /\
       Forall (fun l =>
                 loc_file l = loc_file (token_start L (iterator_tu it) tok) /\
                 loc_offset l < loc_offset (token_start L (iterator_tu it) tok))
              (queries evs)).
Proof.
  split; [|split].
  - intros H. apply operator_dec_sentinel, is_end_sentinel_has_token, H.
  - intros tok Hh Ho. destruct (held_Some _ _ _ Hh) as (h & t & -> & Hl).
    cbn [iterator_tu m_tok ut_deleter deleter_tu] in Ho.
    rewrite (operator_dec_offset_0 t h tok s Hl Ho).
    destruct (Nat.eqb _ nullptr); auto.
  - intros tok Hh Ht.
    destruct (held_Some _ _ _ Hh) as (h & t & -> & Hl).
    cbn [iterator_tu m_tok ut_deleter deleter_tu] in *.
    split; [|exact (operator_dec_trace t h tok s Ht Hl)].
    intros it' s' Hok.
    destruct (operator_dec_inv t h tok s it' s' Ht Hl Hok)
      as (buf & p & Hfile & Hpos & Hbuf & Hlt & Hp).
    exact Hpos.
Qed.

(** C8.  A cursor carries one translation unit, in the deleter of its token
    handle.  A forward or reverse step that returns leaves that translation
    unit unchanged, and the token the cursor then holds was obtained from the
    lexer for that translation unit. *)
Theorem translation_unit_invariant s it tok it' s' :
  held L s it = Some tok -> iterator_tu it <> nullptr ->
  operator_inc L it s = Ok (it', s') \/ operator_dec L it s = Ok (it', s') ->
  iterator_tu it' = iterator_tu it /\
  forall tok', held L s' it' = Some tok' ->
               exists loc, lex_getToken L (iterator_tu it) loc = Some tok'.
Proof.
  intros Hh Ht Hstep. destruct (held_Some _ _ _ Hh) as (h & t & -> & Hl).
  cbn [iterator_tu m_tok ut_deleter deleter_tu] in *.
  destruct Hstep as [Hinc|Hdec].
  - rewrite (operator_inc_eq t h s tok Ht Hl) in Hinc.
    destruct (lex_getToken L t (token_end L t tok)) as [tok1|] eqn:Hq;
      injection Hinc as <- <-.
    + split; [reflexivity|]. intros tok' Hh'.
      exists (token_end L t tok). rewrite Hq, <- Hh'. symmetry.
      apply held_live.
      eapply (live_free_other (mkState (heap s ++ [Some tok1]) (trace s)));
        [reflexivity | | now apply live_alloc_new].
      apply live_lt in Hl. lia.
    + split; [reflexivity|]. intros tok'. discriminate.
  - destruct (operator_dec_inv t h tok s it' s' Ht Hl Hdec)
      as (buf & p & Hfile & Hpos & Hbuf & Hlt & Hp).
    pose proof (operator_dec_run t _ buf Ht h tok s _ p Hl eq_refl
                  Hfile Hpos Hbuf Hlt Hp) as Hrun.
    unfold returns in Hrun. rewrite Hdec in Hrun.
    destruct Hrun as (h' & tok1 & tokp & -> & Hl' & _ & _ & Hat & _).
    split; [reflexivity|]. intros tok' Hh'.
    rewrite (held_live _ _ _ _ Hl') in Hh'. injection Hh' as <-.
    eexists. exact Hat.
Qed.




(** ** The round trip *)

Section RoundTrip.

Variables (t : CXTranslationUnit) (file : CXFile) (file_buffer : list ascii).
Hypothesis contract : oracle_contract L t file file_buffer.

Lemma token_end_in_file q tok :
  token_at L t file q = Some tok ->
  token_end L t tok = mkLoc file (loc_offset (token_end L t tok)).
Proof.
  intros H. destruct (oc_in_file _ _ _ _ contract q tok H) as [_ Hf].
  destruct (token_end L t tok) as [f o]. cbn in *. now subst.
Qed.

Lemma token_start_in_file q tok :
  token_at L t file q = Some tok ->
  token_start L t tok = mkLoc file (loc_offset (token_start L t tok)).
Proof.
  intros H. destruct (oc_in_file _ _ _ _ contract q tok H) as [Hf _].
  destruct (token_start L t tok) as [f o]. cbn in *. now subst.
Qed.

Lemma end_offset_at_Some q e :
  end_offset_at L t file q = Some e <->
  exists tok, token_at L t file q = Some tok /\ token_end L t tok = mkLoc file e.
Proof.
  unfold end_offset_at. split.
  - destruct (token_at L t file q) as [tok|] eqn:H; [|discriminate].
    intros [= <-]. exists tok. split; [reflexivity|].
    eapply token_end_in_file, H.
  - intros (tok & -> & ->). reflexivity.
Qed.

(** Under the contract, step 1 stops at [q] exactly when the byte there is
    not whitespace and the oracle yields a token that ends elsewhere. *)
Lemma is_stop_contract E q :
  is_stop L t file file_buffer (mkLoc file E) q = true <->
  space_at file_buffer q = false /\
  exists e, end_offset_at L t file q = Some e /\ e <> E.
Proof.
  unfold is_stop, end_at, space_at. split.
  - destruct (file_buffer !! q) as [c|]; [|discriminate].
    intros [Hc He]%andb_true_iff. apply negb_true_iff in Hc. split; [exact Hc|].
    destruct (token_at L t file q) as [tok|] eqn:Htok; [|discriminate].
    exists (loc_offset (token_end L t tok)). split.
    + unfold end_offset_at. now rewrite Htok.
    + intros <-. rewrite <- (token_end_in_file _ _ Htok) in He.
      now rewrite clang_equalLocations_refl in He.
  - intros [Hc (e & He & Hne)].
    pose proof (oc_bounds _ _ _ _ contract _ _ He) as Hb.
    apply end_offset_at_Some in He as (tok & Htok & Hend).
    destruct (file_buffer !! q) as [c|] eqn:Hq.
    2:{ apply lookup_ge_None in Hq. lia. }
    rewrite Hc, Htok, Hend. cbn.
    apply negb_true_iff. destruct (clang_equalLocations _ _) eqn:Heq; [|reflexivity].
    apply clang_equalLocations_eq in Heq. congruence.
Qed.

(** A token that ends at [E] and is not the one at offset 0 has a token
    before it: step 1, started from an offset [S] that yields it, stops at
    some [p], and the token found there ends at an offset that yields the
    token ending at [E] again. *)
Lemma contract_previous S E :
  end_offset_at L t file S = Some E ->
  end_offset_at L t file 0 <> Some E ->
  0 < S /\ S < length file_buffer /\
  exists p e',
    step1_offset L t file file_buffer (mkLoc file E) S = Some p /\
    end_offset_at L t file p = Some e' /\
    end_offset_at L t file e' = Some E.
Proof.
  intros HS H0.
  pose proof (oc_bounds _ _ _ _ contract _ _ HS) as HbS.
  assert (forall q e, q <= S -> end_offset_at L t file q = Some e -> e <> E ->
                      e <= S) as Hbefore.
  { intros q e Hq He Hne.
    pose proof (oc_mono _ _ _ _ contract _ _ _ _ Hq He HS).
    destruct (Nat.le_gt_cases e S) as [|Hgt]; [assumption|].
    pose proof (oc_stable _ _ _ _ contract q S e He ltac:(lia)). congruence. }
  split; [destruct S; [congruence | lia]|]. split; [lia|].
  destruct (step1_offset L t file file_buffer (mkLoc file E) S) as [p|] eqn:Hp.
  - exists p. apply step1_offset_Some in Hp as (HpS & Hstop & Hnone).
    apply is_stop_contract in Hstop as (Hsp & e' & He' & Hne).
    exists e'. split; [reflexivity|]. split; [exact He'|].
    pose proof (Hbefore p e' ltac:(lia) He' Hne) as He'S.
    pose proof (oc_bounds _ _ _ _ contract _ _ He') as Hb'.
    destruct (end_offset_at L t file e') as [e''|] eqn:He''.
    2:{ exfalso. eapply (oc_down _ _ _ _ contract e' S); [lia|congruence|exact He'']. }
    destruct (decide (e'' = E)) as [->|Hne'']; [reflexivity|]. exfalso.
    pose proof (Hbefore e' e'' He'S He'' Hne'') as He''S.
    pose proof (oc_bounds _ _ _ _ contract _ _ He'') as Hb''.
    destruct (oc_nonspace _ _ _ _ contract _ _ He'') as (r & Hr & Hrsp & Hre).
    assert (p < r) as Hpr.
    { destruct (Nat.le_gt_cases r p) as [Hle|]; [|assumption].
      pose proof (oc_mono _ _ _ _ contract _ _ _ _ Hle Hre He'). lia. }
    assert (is_stop L t file file_buffer (mkLoc file E) r = true) as Hstop.
    { apply is_stop_contract. split; [exact Hrsp|]. eauto. }
    rewrite Hnone in Hstop by lia. discriminate.
  - exfalso.
    destruct (end_offset_at L t file 0) as [e0|] eqn:He0.
    2:{ eapply (oc_down _ _ _ _ contract 0 S); [lia|congruence|exact He0]. }
    assert (e0 <> E) as Hne by congruence.
    pose proof (Hbefore 0 e0 ltac:(lia) He0 Hne) as He0S.
    destruct (oc_nonspace _ _ _ _ contract _ _ He0) as (r & Hr & Hrsp & Hre).
    assert (is_stop L t file file_buffer (mkLoc file E) r = true) as Hstop.
    { apply is_stop_contract. split; [exact Hrsp|]. eauto. }
    rewrite (proj1 (step1_offset_None _ _ _ _ _) Hp r) in Hstop by lia.
    discriminate.
Qed.

End RoundTrip.

(** C1.  Let the lexer keep the oracle contract for a file, and let [tok] be
    a token of that file other than the one the oracle yields at offset 0.
    Construct a cursor at the start location of [tok] and keep a copy of it;
    step the cursor backward, then forward.  Every one of these calls
    returns, and the cursor compares equal to the copy. *)
Theorem round_trip t file file_buffer q0 tok s :
  oracle_contract L t file file_buffer -> t <> nullptr -> file <> nullptr ->
  token_at L t file q0 = Some tok ->
  end_offset_at L t file 0 <> Some (loc_offset (token_end L t tok)) ->
  exists it s1 orig s2 it1 s3 it2 s4,
    construct L t (token_start L t tok) s = Ok (it, s1) /\
    copy_construct L it s1 = Ok (orig, s2) /\
    operator_dec L it s2 = Ok (it1, s3) /\
    operator_inc L it1 s3 = Ok (it2, s4) /\
    operator_eq L it2 orig s4 = Ok (true, s4).
Proof.
  intros C Ht Hfile Htok Hfirst.
  set (E := loc_offset (token_end L t tok)) in *.
  (* the cursor *)
  pose proof (oc_requery _ _ _ _ C _ _ Htok) as Hre. fold E in Hre.
  apply (end_offset_at_Some t file file_buffer C) in Hre as (tok1 & Htok1 & Hend1).
  rewrite (token_start_in_file t file file_buffer C _ _ Htok).
  rewrite construct_eq.
  change (lex_getToken L t (mkLoc file ?q)) with (token_at L t file q).
  rewrite Htok1.
  set (s1 := mkState (heap s ++ [Some tok1]) _).
  assert (live L s1 (length (heap s)) tok1) as Hl1 by now apply live_alloc_new.
  clearbody s1.
  (* the copy *)
  pose proof (oc_requery _ _ _ _ C _ _ Htok1) as Hre1. rewrite Hend1 in Hre1.
  cbn [loc_offset] in Hre1.
  pose proof (token_start_in_file t file file_buffer C _ _ Htok1) as Hstart1.
  set (S1 := loc_offset (token_start L t tok1)) in *.
  pose proof Hre1 as Hre1'.
  apply (end_offset_at_Some t file file_buffer C) in Hre1' as (tok2 & Htok2 & Hend2).
  pose proof (copy_construct_eq t _ s1 tok1 Hl1) as Hcopy.
  rewrite Hstart1 in Hcopy.
  change (lex_getToken L t (mkLoc file ?q)) with (token_at L t file q) in Hcopy.
  rewrite Htok2 in Hcopy.
  set (s2 := mkState (heap s1 ++ [Some tok2]) _) in Hcopy.
  assert (live L s2 (length (heap s1)) tok2) as Hl2 by now apply live_alloc_new.
  assert (live L s2 (length (heap s)) tok1) as Hl1'
    by (eapply live_alloc_old; [reflexivity | exact Hl1]).
  pose proof (live_lt _ _ _ Hl1) as Hlt1.
  assert (length (heap s2) = S (length (heap s1))) as Hlen2
    by (cbn; rewrite length_app; cbn; lia).
  clearbody s2.
  (* the reverse step *)
  destruct (contract_previous t file file_buffer C S1 E Hre1 Hfirst)
    as (Hpos & HltS & p & e' & Hp & Hep & Hee).
  rewrite <- Hend1 in Hp.
  pose proof (operator_dec_run t file file_buffer Ht _ tok1 s2 S1 p Hl1'
                ltac:(now rewrite Hstart1) Hfile Hpos
                (oc_contents _ _ _ _ C) HltS Hp) as Hdec.
  apply returns_Ok in Hdec
    as (it1 & s3 & Edec & h' & tok' & tokp & -> & Hl' & Hge' & Htokp & Hat'
        & pr & R & _).
  apply (end_offset_at_Some t file file_buffer C) in Hep as (tokp' & Htokp' & Hendp).
  assert (tokp' = tokp) as -> by congruence.
  assert (token_end L t tok' = mkLoc file e') as Hend'.
  { pose proof (step1_offset_lt _ _ _ _ _ _ Hp) as Hpo.
    destruct (step2_pos_spec file_buffer
                (ends_at L t file (token_end L t tokp)) p ltac:(lia)) as (_ & Hok & _).
    { unfold ends_at, end_at. rewrite Htokp. apply clang_equalLocations_refl. }
    unfold ends_at at 1 in Hok. unfold end_at at 1 in Hok. rewrite Hat' in Hok.
    apply clang_equalLocations_eq in Hok. congruence. }
  assert (live L s3 (length (heap s1)) tok2) as Hl2'.
  { destruct R as (F & _). apply F; [|exact Hl2]. intros [= Eh]. lia. }
  (* the forward step *)
  apply (end_offset_at_Some t file file_buffer C) in Hee as (tok3 & Htok3 & Hend3).
  pose proof (operator_inc_eq t h' s3 tok' Ht Hl') as Hinc.
  rewrite Hend' in Hinc.
  change (lex_getToken L t (mkLoc file ?q)) with (token_at L t file q) in Hinc.
  rewrite Htok3 in Hinc.
  set (s4 := mkState (<[h' := None]> (heap s3 ++ [Some tok3])) _) in Hinc.
  pose proof (live_lt _ _ _ Hl') as Hlt'.
  pose proof (live_lt _ _ _ Hl2) as Hlt2.
  assert (live L s4 (length (heap s3)) tok3) as Hl3.
  { eapply (live_free_other (mkState (heap s3 ++ [Some tok3]) (trace s3)));
      [reflexivity | lia | now apply live_alloc_new]. }
  assert (live L s4 (length (heap s1)) tok2) as Hl2''.
  { eapply (live_free_other (mkState (heap s3 ++ [Some tok3]) (trace s3)));
      [reflexivity | lia | eapply live_alloc_old; [reflexivity | exact Hl2']]. }
  do 8 eexists.
  split; [reflexivity|]. split; [exact Hcopy|]. split; [exact Edec|].
  split; [exact Hinc|].
  rewrite (operator_eq_live t t _ _ s4 tok3 tok2 Hl3 Hl2'').
  now rewrite Nat.eqb_refl, Hend3, Hend2, clang_equalLocations_refl.
Qed.

(** * Further properties *)

(** ** Handles are neither leaked nor released twice *)

Lemma bind_inv {A B} (m : M L A) (k : A -> M L B) s r :
  (x <- m ;; k x) s = Ok r -> exists a s1, m s = Ok (a, s1) /\ k a s1 = Ok r.
Proof.
  unfold bind. destruct (m s) as [[a s1]|e]; [eauto | discriminate].
Qed.

Lemma assert_inv (b : bool) (e : halt) s r :
  assert (L:=L) b e s = Ok r -> b = true /\ r = (tt, s).
Proof. destruct b; cbn; [intros [= <-]; auto | discriminate]. Qed.

(** One round of the binary search that returned: its span checks passed. *)
Lemma step2_loop_inv fuel t file candidate_end sp cand s u' s' :
  span_empty sp = false ->
  step2_loop L (S fuel) t file candidate_end sp cand s = Ok (u', s') ->
  exists r s1,
    consider_next_candidate L t file candidate_end cand
      (sp_data sp + sp_size sp / 2) s = Ok (r, s1) /\
    step2_loop L fuel t file candidate_end
      (if fst r then first_of sp (sp_size sp / 2)
       else subspan_of sp (sp_size sp / 2 + 1)) (snd r) s1 = Ok (u', s').
Proof.
  intros He. cbn [step2_loop]. rewrite He. intros H.
  apply bind_inv in H as (pos & s0 & Hp & H).
  apply span_at_inv in Hp as [_ [= -> ->]].
  apply bind_inv in H as (r & s1 & Hc & H).
  exists r, s1. split; [exact Hc|].
  destruct (fst r); apply bind_inv in H as (sp' & s2 & Hs & H).
  - apply span_first_inv in Hs as [_ [= -> ->]]. exact H.
  - apply span_subspan_inv in Hs as [_ [= -> ->]]. exact H.
Qed.

(** Step 2 that returned: its span checks passed, and it searched
    [step2_span]. *)
Lemma step2_inv t file file_buffer candidate_end offset cand s u' s' :
  step2 L t file file_buffer candidate_end offset cand s = Ok (u', s') ->
  let sp := step2_span file_buffer offset in
  if span_empty sp then u' = cand /\ s' = s
  else
    exists r s1,
      consider_next_candidate L t file candidate_end cand (sp_data sp) s
      = Ok (r, s1) /\
      if fst r then u' = snd r /\ s' = s1
      else step2_loop L (sp_size (subspan_of sp 1)) t file candidate_end
             (subspan_of sp 1) (snd r) s1 = Ok (u', s').
Proof.
  unfold step2. cbv zeta. intros H.
  apply bind_inv in H as (sp1 & s1 & H1 & H).
  apply span_first_inv in H1 as [_ [= -> ->]].
  apply bind_inv in H as (sp2 & s2 & H2 & H).
  apply span_last_inv in H2 as [_ [= -> ->]].
  fold (step2_span file_buffer offset) in H.
  destruct (span_empty (step2_span file_buffer offset)); cbn [negb] in H.
  - injection H as <- <-. auto.
  - apply bind_inv in H as (r & s1 & Hc & H). exists r, s1.
    split; [exact Hc|]. destruct (fst r).
    + injection H as <- <-. auto.
    + apply bind_inv in H as (sp3 & s3 & H3 & H).
      apply span_subspan_inv in H3 as [_ [= -> ->]]. exact H.
Qed.

Lemma count_live_app (l l' : list (option (CXToken L))) :
  count_live L (l ++ l') = count_live L l + count_live L l'.
Proof.
  induction l as [|[x|] l IH]; cbn [app count_live]; rewrite ?IH; reflexivity.
Qed.

Lemma count_live_free (l : list (option (CXToken L))) h tok :
  l !! h = Some (Some tok) ->
  S (count_live L (<[h := None]> l)) = count_live L l.
Proof.
  revert h. induction l as [|x l IH]; intros [|h]; try discriminate.
  - intros [= ->]. reflexivity.
  - intros H. specialize (IH h H).
    change (<[S h := None]> (x :: l)) with (x :: <[h := None]> l).
    destruct x; cbn [count_live]; lia.
Qed.

Lemma disposals_app tr tr' : disposals (tr ++ tr') = disposals tr ++ disposals tr'.
Proof.
  induction tr as [|[] tr IH]; cbn; [reflexivity| |]; now rewrite IH.
Qed.

Lemma accounts_refl t s n : accounts L t s s n n.
Proof.
  split; [reflexivity|]. exists []. split; [now rewrite app_nil_r | constructor].
Qed.

Lemma accounts_trans t s1 s2 s3 a b c d :
  accounts L t s1 s2 a b -> accounts L t s2 s3 c d ->
  accounts L t s1 s3 (a + c) (b + d).
Proof.
  intros (H1 & e1 & T1 & F1) (H2 & e2 & T2 & F2). split; [lia|].
  exists (e1 ++ e2). split; [now rewrite T2, T1, app_assoc|].
  rewrite disposals_app. apply Forall_app. auto.
Qed.

Lemma accounts_eq t s s' a b a' b' :
  accounts L t s s' a b -> a + b' = a' + b -> accounts L t s s' a' b'.
Proof. intros (H & He) E. split; [lia | exact He]. Qed.

Lemma clang_getToken_accounts t t' loc s p s' :
  clang_getToken L t loc s = Ok (p, s') ->
  accounts L t' s s' 0 (owns (mkUnique p (mkDeleter t))).
Proof.
  rewrite clang_getToken_eq.
  destruct (lex_getToken L t loc); intros [= <- <-]; (split;
    [unfold live_count; cbn; rewrite ?count_live_app; cbn; lia|]);
    (eexists; split; [reflexivity | constructor]).
Qed.

Lemma token_deleter_call_accounts t p s r s' :
  token_deleter_call L (mkDeleter t) p s = Ok (r, s') ->
  accounts L t s s' (owns (mkUnique p (mkDeleter t))) 0.
Proof.
  destruct p as [h|]; cbn [token_deleter_call].
  - intros H. apply bind_inv in H as ([] & s1 & Ha & H).
    apply assert_inv in Ha as [_ [= ->]].
    unfold clang_disposeTokens, bind, log, free in H. cbn in H.
    destruct (heap s !! h) as [[tok|]|] eqn:Hh; try discriminate.
    injection H as <- <-. split.
    + unfold live_count. cbn. pose proof (count_live_free _ _ _ Hh). lia.
    + eexists. split; [reflexivity|]. cbn. constructor; [reflexivity | constructor].
  - intros [= <- <-]. apply accounts_refl.
Qed.

Lemma unique_token_reset_accounts t u p s u' s' :
  ut_deleter u = mkDeleter t ->
  unique_token_reset L u p s = Ok (u', s') ->
  u' = mkUnique p (mkDeleter t) /\ accounts L t s s' (owns u) 0.
Proof.
  intros Hd H. unfold unique_token_reset in H. rewrite Hd in H.
  apply bind_inv in H as ([] & s1 & Hc & [= <- <-]).
  split; [reflexivity|].
  apply token_deleter_call_accounts in Hc. exact Hc.
Qed.

Lemma unique_token_move_assign_accounts t u v s u' s' :
  ut_deleter u = mkDeleter t ->
  unique_token_move_assign L u v s = Ok (u', s') ->
  u' = mkUnique (ut_get v) (ut_deleter v) /\ accounts L t s s' (owns u) 0.
Proof.
  intros Hd H. unfold unique_token_move_assign in H.
  apply bind_inv in H as (u1 & s1 & Hr & [= <- <-]).
  apply (unique_token_reset_accounts t) in Hr as [-> Ha]; auto.
Qed.

Lemma clang_getTokenExtent_inv t h s e s' :
  clang_getTokenExtent L t h s = Ok (e, s') ->
  s' = s /\ exists tok, live L s h tok /\ e = lex_getTokenExtent L t tok.
Proof.
  unfold clang_getTokenExtent, bind, deref, ret, live.
  destruct (heap s !! h) as [[tok|]|]; try discriminate.
  intros [= <- <-]. eauto.
Qed.

Lemma tu_inv it s t s' :
  tu L it s = Ok (t, s') -> s' = s /\ t = iterator_tu it /\ has_token it = true.
Proof.
  unfold tu. intros H. apply bind_inv in H as ([] & s1 & Ha & [= <- <-]).
  apply assert_inv in Ha as [Hb [= ->]]. auto.
Qed.

Lemma extent_inv it s e s' :
  extent L it s = Ok (e, s') ->
  s' = s /\ exists tok, held L s it = Some tok /\
                        e = lex_getTokenExtent L (iterator_tu it) tok.
Proof.
  unfold extent. intros H. apply bind_inv in H as ([] & s1 & Ha & H).
  apply assert_inv in Ha as [Hb [= ->]].
  apply bind_inv in H as (t & s2 & Ht & H). apply tu_inv in Ht as (-> & -> & _).
  destruct it as [[[h|] d]]; [|discriminate]. cbn [m_tok ut_get] in H.
  apply clang_getTokenExtent_inv in H as (-> & tok & Hl & ->).
  split; [reflexivity|]. exists tok. split; [apply held_live, Hl | reflexivity].
Qed.

Section Accounting.

Variables (t : CXTranslationUnit) (file : CXFile) (file_buffer : list ascii).

Lemma step1_accounts curr_end offset : forall candidate_tok s r s',
  ut_deleter candidate_tok = mkDeleter t ->
  step1 L t file file_buffer curr_end offset candidate_tok s = Ok (r, s') ->
  ut_deleter (s1_candidate r) = mkDeleter t /\
  owns (s1_candidate r) = 1 /\
  accounts L t s s' (owns candidate_tok) 1.
Proof.
  induction offset as [|o IH]; intros cand s r s' Hd; [discriminate|].
  cbn [step1]. destruct (file_buffer !! o) as [c|]; [|discriminate].
  destruct (isspace c); [apply IH, Hd|].
  intros H. apply bind_inv in H as (p & s1 & Hg & H).
  apply bind_inv in H as (cand' & s2 & Hr & H).
  apply (clang_getToken_accounts t t) in Hg.
  apply (unique_token_reset_accounts t) in Hr as [-> Hr]; [|exact Hd].
  pose proof (accounts_trans _ _ _ _ _ _ _ _ Hg Hr) as H12.
  destruct p as [h|].
  - apply bind_inv in H as (e & s3 & He & H).
    apply clang_getTokenExtent_inv in He as (-> & _).
    destruct (negb _).
    + injection H as <- <-. cbn [s1_candidate ut_deleter].
      split; [reflexivity|]. split; [reflexivity|].
      eapply accounts_eq; [exact H12|]. cbn. lia.
    + apply IH in H as (H1 & H2 & H3); [|reflexivity].
      split; [exact H1|]. split; [exact H2|].
      eapply accounts_eq; [exact (accounts_trans _ _ _ _ _ _ _ _ H12 H3)|].
      cbn. lia.
  - apply IH in H as (H1 & H2 & H3); [|reflexivity].
    split; [exact H1|]. split; [exact H2|].
    eapply accounts_eq; [exact (accounts_trans _ _ _ _ _ _ _ _ H12 H3)|].
    cbn. lia.
Qed.

Lemma consider_next_candidate_accounts candidate_end candidate_tok pos s r s' :
  ut_deleter candidate_tok = mkDeleter t ->
  consider_next_candidate L t file candidate_end candidate_tok pos s = Ok (r, s') ->
  ut_deleter (snd r) = mkDeleter t /\
  (owns candidate_tok = 1 -> owns (snd r) = 1) /\
  accounts L t s s' (owns candidate_tok) (owns (snd r)).
Proof.
  intros Hd H. unfold consider_next_candidate in H.
  apply bind_inv in H as (p & s1 & Hg & H).
  apply (clang_getToken_accounts t t) in Hg.
  destruct p as [h|].
  - apply bind_inv in H as (e & s2 & He & H).
    apply clang_getTokenExtent_inv in He as (-> & _).
    destruct (negb _).
    + apply bind_inv in H as ([] & s3 & Hx & [= <- <-]).
      apply token_deleter_call_accounts in Hx. cbn [snd].
      split; [exact Hd|]. split; [trivial|].
      eapply accounts_eq; [exact (accounts_trans _ _ _ _ _ _ _ _ Hg Hx)|].
      cbn. lia.
    + apply bind_inv in H as (u' & s3 & Hm & [= <- <-]).
      apply (unique_token_move_assign_accounts t) in Hm as [-> Hm]; [|exact Hd].
      cbn [snd ut_get ut_deleter]. split; [reflexivity|]. split; [reflexivity|].
      eapply accounts_eq; [exact (accounts_trans _ _ _ _ _ _ _ _ Hg Hm)|].
      cbn. lia.
  - injection H as <- <-. cbn [snd]. split; [exact Hd|]. split; [trivial|].
    eapply accounts_eq; [exact Hg|]. cbn. lia.
Qed.

Lemma step2_loop_accounts candidate_end fuel : forall search_span candidate_tok s u' s',
  ut_deleter candidate_tok = mkDeleter t ->
  step2_loop L fuel t file candidate_end search_span candidate_tok s = Ok (u', s') ->
  ut_deleter u' = mkDeleter t /\
  (owns candidate_tok = 1 -> owns u' = 1) /\
  accounts L t s s' (owns candidate_tok) (owns u').
Proof.
  induction fuel as [|fuel IH]; intros sp cand s u' s' Hd;
    destruct (span_empty sp) eqn:He.
  1,3: (cbn [step2_loop]; rewrite He; intros [= <- <-]; split; [exact Hd|];
        split; [trivial|]; apply accounts_refl).
  - cbn [step2_loop]. rewrite He. discriminate.
  - intros H. apply step2_loop_inv in H as (r & s1 & Hc & H'); [|exact He].
    apply consider_next_candidate_accounts in Hc as (Hd1 & Ho1 & Ha1); [|exact Hd].
    apply IH in H' as (Hd2 & Ho2 & Ha2); [|exact Hd1].
    split; [exact Hd2|]. split; [auto|].
    eapply accounts_eq; [exact (accounts_trans _ _ _ _ _ _ _ _ Ha1 Ha2)|]. lia.
Qed.

Lemma step2_accounts candidate_end offset candidate_tok s u' s' :
  ut_deleter candidate_tok = mkDeleter t ->
  step2 L t file file_buffer candidate_end offset candidate_tok s = Ok (u', s') ->
  ut_deleter u' = mkDeleter t /\
  (owns candidate_tok = 1 -> owns u' = 1) /\
  accounts L t s s' (owns candidate_tok) (owns u').
Proof.
  intros Hd H. apply step2_inv in H. cbv zeta in H.
  destruct (span_empty _).
  - destruct H as [-> ->]. split; [exact Hd|]. split; [trivial|].
    apply accounts_refl.
  - destruct H as (r & s1 & Hc & H).
    apply consider_next_candidate_accounts in Hc as (Hd1 & Ho1 & Ha1); [|exact Hd].
    destruct (fst r).
    + destruct H as [-> ->]. auto.
    + apply step2_loop_accounts in H as (Hd2 & Ho2 & Ha2); [|exact Hd1].
      split; [exact Hd2|]. split; [auto|].
      eapply accounts_eq; [exact (accounts_trans _ _ _ _ _ _ _ _ Ha1 Ha2)|]. lia.
Qed.

End Accounting.

Lemma operator_dec_accounts it s it' s' :
  operator_dec L it s = Ok (it', s') ->
  has_token it = true /\ has_token it' = true /\
  iterator_tu it' = iterator_tu it /\
  accounts L (iterator_tu it) s s' 1 1.
Proof.
  unfold operator_dec. intros H.
  apply bind_inv in H as ([] & s0 & Ha & H). apply assert_inv in Ha as [Hb [= ->]].
  apply bind_inv in H as (e & s1 & He & H). apply extent_inv in He as (-> & _).
  apply bind_inv in H as ([] & s1 & Ha & H). apply assert_inv in Ha as [_ [= ->]].
  apply bind_inv in H as ([] & s1 & Ha & H). apply assert_inv in Ha as [_ [= ->]].
  apply bind_inv in H as (t & s1 & Ht & H). apply tu_inv in Ht as (-> & -> & _).
  destruct (lex_getFileContents L _ _) as [buf|]; [|discriminate].
  apply bind_inv in H as ([] & s1 & Ha & H). apply assert_inv in Ha as [_ [= ->]].
  apply bind_inv in H as (r & s1 & H1 & H).
  apply bind_inv in H as (u & s2 & H2 & H).
  apply bind_inv in H as (u' & s3 & H3 & [= <- <-]).
  apply step1_accounts in H1 as (Hd1 & Ho1 & Ha1); [|reflexivity].
  apply step2_accounts in H2 as (Hd2 & Ho2 & Ha2); [|exact Hd1].
  assert (ut_deleter (m_tok it) = mkDeleter (iterator_tu it)) as Hd
    by (destruct it as [[g [d]]]; reflexivity).
  apply (unique_token_move_assign_accounts (iterator_tu it)) in H3 as [-> Ha3];
    [|exact Hd].
  specialize (Ho2 Ho1).
  assert (owns (m_tok it) = 1) as Ho.
  { unfold owns. unfold has_token in Hb. destruct (ut_get (m_tok it)); [reflexivity|discriminate]. }
  split; [exact Hb|]. split.
  { unfold has_token. cbn. unfold owns in Ho2. destruct (ut_get u); [reflexivity|discriminate]. }
  split; [unfold iterator_tu; cbn; now rewrite Hd2|].
  eapply accounts_eq;
    [exact (accounts_trans _ _ _ _ _ _ _ _
              (accounts_trans _ _ _ _ _ _ _ _ Ha1 Ha2) Ha3)|].
  cbn [owns ut_get]. lia.
Qed.

Lemma owns_has_token it : owns (m_tok it) = if has_token it then 1 else 0.
Proof. unfold owns, has_token. destruct (ut_get (m_tok it)); reflexivity. Qed.

Lemma deleter_iterator_tu it : ut_deleter (m_tok it) = mkDeleter (iterator_tu it).
Proof. destruct it as [[g [d]]]. reflexivity. Qed.

Lemma construct_accounts t loc s it s' :
  construct L t loc s = Ok (it, s') ->
  iterator_tu it = t /\ accounts L t s s' 0 (owns (m_tok it)).
Proof.
  unfold construct. intros H. apply bind_inv in H as (p & s1 & Hg & [= <- <-]).
  split; [reflexivity|]. apply (clang_getToken_accounts t t) in Hg. exact Hg.
Qed.

Lemma clone_accounts t it s u s' :
  clone L it s = Ok (u, s') -> accounts L t s s' 0 (owns u).
Proof.
  unfold clone. destruct (negb (has_token it)).
  - intros [= <- <-]. apply accounts_refl.
  - intros H. apply bind_inv in H as (t1 & s1 & Ht & H).
    apply tu_inv in Ht as (-> & -> & _).
    apply bind_inv in H as (e & s1 & He & H). apply extent_inv in He as (-> & _).
    apply bind_inv in H as (p & s1 & Hg & H).
    apply bind_inv in H as (t2 & s2 & Ht & [= <- <-]).
    apply tu_inv in Ht as (-> & -> & _).
    apply (clang_getToken_accounts _ t) in Hg. exact Hg.
Qed.

Lemma operator_inc_accounts it s it' s' :
  operator_inc L it s = Ok (it', s') ->
  has_token it = true /\ iterator_tu it' = iterator_tu it /\
  accounts L (iterator_tu it) s s' 1 (owns (m_tok it')).
Proof.
  unfold operator_inc. intros H.
  apply bind_inv in H as ([] & s0 & Ha & H). apply assert_inv in Ha as [Hb [= ->]].
  apply bind_inv in H as (e & s1 & He & H). apply extent_inv in He as (-> & _).
  apply bind_inv in H as (t & s1 & Ht & H). apply tu_inv in Ht as (-> & -> & _).
  apply bind_inv in H as (p & s1 & Hg & H).
  apply bind_inv in H as (u & s2 & Hr & [= <- <-]).
  apply (clang_getToken_accounts _ (iterator_tu it)) in Hg.
  apply (unique_token_reset_accounts (iterator_tu it)) in Hr as [-> Hr];
    [|apply deleter_iterator_tu].
  split; [exact Hb|]. split; [reflexivity|].
  eapply accounts_eq; [exact (accounts_trans _ _ _ _ _ _ _ _ Hg Hr)|].
  rewrite owns_has_token, Hb. cbn. lia.
Qed.

Lemma copy_assign_accounts this other s c s' :
  copy_assign L this other s = Ok (c, s') ->
  accounts L (iterator_tu this) s s' (owns (m_tok this)) (owns (m_tok c)).
Proof.
  unfold copy_assign. intros H.
  apply bind_inv in H as (u & s1 & Hc & H).
  apply bind_inv in H as (u' & s2 & Hm & [= <- <-]).
  apply (clone_accounts (iterator_tu this)) in Hc.
  apply (unique_token_move_assign_accounts (iterator_tu this)) in Hm as [-> Hm];
    [|apply deleter_iterator_tu].
  eapply accounts_eq; [exact (accounts_trans _ _ _ _ _ _ _ _ Hc Hm)|].
  unfold owns. cbn [m_tok ut_get]. lia.
Qed.

Lemma destroy_accounts it s r s' :
  destroy L it s = Ok (r, s') ->
  accounts L (iterator_tu it) s s' (owns (m_tok it)) 0.
Proof.
  unfold destroy, unique_token_destroy. rewrite deleter_iterator_tu.
  intros H. apply token_deleter_call_accounts in H. exact H.
Qed.


(** X2.  Construction, copy, copy assignment, the forward step and destruction
    account for every handle: the number of live token handles changes by
    the handles the resulting cursor owns minus those the overwritten or
    destroyed cursor owned.  In particular a forward step onto a token
    leaves the number unchanged, and one onto the end sentinel lowers it by
    one. *)
Theorem handles_accounted s s' :
  (forall t loc it, construct L t loc s = Ok (it, s') ->
     live_count L s' = live_count L s + owns (m_tok it)) /\
  (forall other c, copy_construct L other s = Ok (c, s') ->
     live_count L s' = live_count L s + owns (m_tok c)) /\
  (forall this other c, copy_assign L this other s = Ok (c, s') ->
     live_count L s' + owns (m_tok this) = live_count L s + owns (m_tok c)) /\
  (forall it it', operator_inc L it s = Ok (it', s') ->
     live_count L s' + 1 = live_count L s + owns (m_tok it')) /\
  (forall it r, destroy L it s = Ok (r, s') ->
     live_count L s' + owns (m_tok it) = live_count L s).
Proof.
  split; [|split; [|split; [|split]]].
  - intros t loc it H. apply construct_accounts in H as (_ & H & _). lia.
  - intros other c H. unfold copy_construct in H.
    apply bind_inv in H as (u & s1 & Hc & [= <- <-]).
    apply (clone_accounts 0) in Hc as (H & _). cbn [m_tok]. lia.
  - intros this other c H. apply copy_assign_accounts in H as (H & _). lia.
  - intros it it' H. apply operator_inc_accounts in H as (_ & _ & H & _). lia.
  - intros it r H. apply destroy_accounts in H as (H & _). lia.
Qed.

Lemma dec_times_accounts n : forall it s it' s',
  dec_times L n it s = Ok (it', s') ->
  live_count L s' + owns (m_tok it) = live_count L s + owns (m_tok it').
Proof.
  induction n as [|n IH]; intros it s it' s'; cbn [dec_times].
  - intros [= <- <-]. reflexivity.
  - intros H. apply bind_inv in H as (it1 & s1 & Hd & H).
    apply IH in H. apply operator_dec_accounts in Hd as (Hb & Hb1 & _ & Ha & _).
    rewrite !owns_has_token in *. rewrite Hb. rewrite Hb1 in H. lia.
Qed.

Lemma inc_times_accounts n : forall it s it' s',
  inc_times L n it s = Ok (it', s') ->
  live_count L s' + owns (m_tok it) = live_count L s + owns (m_tok it').
Proof.
  induction n as [|n IH]; intros it s it' s'; cbn [inc_times].
  - intros [= <- <-]. reflexivity.
  - intros H. apply bind_inv in H as (it1 & s1 & Hd & H).
    apply IH in H. apply operator_inc_accounts in Hd as (Hb & _ & Ha & _).
    rewrite (owns_has_token it), Hb. lia.
Qed.

(** X3.  The life of a cursor leaves no token handle behind: constructed, moved
    [n] steps back and [m] steps forward, then destroyed, it leaves as many
    live handles as there were. *)
Theorem lifecycle_leaves_no_handle t loc n m s r s' :
  (c <- construct L t loc ;;
   c1 <- dec_times L n c ;;
   c2 <- inc_times L m c1 ;;
   destroy L c2) s = Ok (r, s') ->
  live_count L s' = live_count L s.
Proof.
  intros H.
  apply bind_inv in H as (c & s1 & Hc & H).
  apply bind_inv in H as (c1 & s2 & Hd & H).
  apply bind_inv in H as (c2 & s3 & Hi & H).
  apply construct_accounts in Hc as (_ & Hc & _).
  apply dec_times_accounts in Hd. apply inc_times_accounts in Hi.
  apply destroy_accounts in H as (H & _). lia.
Qed.

(** ** What stops a reverse step *)

(** X4.  A reverse step from a cursor with a live token stops only at one of
    the assertions of [operator--] on the file, the offset and the buffer,
    each for its own reason: it never uses a disposed handle, never fails a
    bounds check of the span ([search_span[offset]], [first], [last],
    [subspan], [search_span[mid_pos]]), and its binary search always ends.
    It runs
    into [assert(offset > 0)] inside the loop only when no byte below the
    start of the token makes step 1 stop. *)
Theorem operator_dec_halts_only_at_assertions s it tok e tr :
  held L s it = Some tok -> iterator_tu it <> nullptr ->
  operator_dec L it s = Halt e tr ->
  let t := iterator_tu it in
  let file := loc_file (token_start L t tok) in
  let offset := loc_offset (token_start L t tok) in
  (e = assert_file /\ file = nullptr) \/
  (e = assert_offset_gt_0 /\ file <> nullptr /\ offset = 0) \/
  (e = assert_file_buffer /\ file <> nullptr /\ 0 < offset /\
   lex_getFileContents L t file = None) \/
  (e = assert_offset_lt_file_size /\ file <> nullptr /\ 0 < offset /\
   exists file_buffer, lex_getFileContents L t file = Some file_buffer /\
                       length file_buffer <= offset) \/
  (e = assert_offset_gt_0 /\ file <> nullptr /\ 0 < offset /\
   exists file_buffer, lex_getFileContents L t file = Some file_buffer /\
                       offset < length file_buffer /\
                       forall q, q < offset ->
                         is_stop L t file file_buffer (token_end L t tok) q = false).
Proof.
  intros Hh Ht. destruct (held_Some _ _ _ Hh) as (h & t & -> & Hl).
  cbn [iterator_tu m_tok ut_deleter deleter_tu] in *. cbv zeta.
  set (file := loc_file (token_start L t tok)).
  set (offset := loc_offset (token_start L t tok)).
  destruct (Nat.eq_dec file nullptr) as [Hf|Hf].
  { intros H. left. split; [|exact Hf].
    unfold operator_dec in H. cbn [has_token m_tok ut_get] in H.
    rewrite (bind_Ok _ _ _ _ _ (assert_true _ s)) in H.
    rewrite (bind_Ok _ _ _ _ _ (extent_eq t h s tok Hl)) in H.
    fold (token_start L t tok) in H. unfold clang_getSpellingLocation in H.
    cbn [fst snd] in H. fold file in H. rewrite Hf in H. cbn in H. congruence. }
  destruct (Nat.eq_dec offset 0) as [Ho|Ho].
  { intros H. right. left.
    rewrite (operator_dec_offset_0 t h tok s Hl Ho) in H. fold file in H.
    destruct (Nat.eqb_spec file nullptr); [contradiction|].
    injection H as <- _. auto. }
  assert (0 < offset) as Hpos by lia.
  unfold operator_dec. cbn [has_token m_tok ut_get].
  rewrite (bind_Ok _ _ _ _ _ (assert_true _ s)).
  rewrite (bind_Ok _ _ _ _ _ (extent_eq t h s tok Hl)).
  fold (token_start L t tok) (token_end L t tok).
  unfold clang_getSpellingLocation. cbn [fst snd]. fold file offset.
  rewrite (neq_nullptr_eqb _ Hf), (bind_Ok _ _ _ _ _ (assert_true _ s)).
  apply Nat.ltb_lt in Hpos as Hpos'. rewrite Hpos'.
  rewrite (bind_Ok _ _ _ _ _ (assert_true _ s)).
  rewrite (bind_Ok _ _ _ _ _ (tu_eq t h s)).
  destruct (lex_getFileContents L t file) as [buf|] eqn:Hbuf.
  2:{ intros [= <- _]. right. right. left. auto. }
  destruct (Nat.ltb_spec offset (length buf)) as [Hlt|Hge].
  2:{ intros [= <- _]. right. right. right. left.
      split; [reflexivity|]. split; [exact Hf|]. split; [exact Hpos|].
      exists buf. auto. }
  rewrite (bind_Ok _ _ _ _ _ (assert_true _ s)).
  destruct (step1_offset L t file buf (token_end L t tok) offset) as [p|] eqn:Hp.
  - intros H. exfalso.
    pose proof (operator_dec_run t file buf Ht h tok s offset p Hl eq_refl
                  Hf Hpos Hbuf Hlt Hp) as Hrun.
    unfold returns, operator_dec in Hrun. cbn [has_token m_tok ut_get] in Hrun.
    rewrite (bind_Ok _ _ _ _ _ (assert_true _ s)) in Hrun.
    rewrite (bind_Ok _ _ _ _ _ (extent_eq t h s tok Hl)) in Hrun.
    fold (token_start L t tok) (token_end L t tok) in Hrun.
    unfold clang_getSpellingLocation in Hrun. cbn [fst snd] in Hrun.
    fold file offset in Hrun.
    rewrite (neq_nullptr_eqb _ Hf), (bind_Ok _ _ _ _ _ (assert_true _ s)) in Hrun.
    rewrite Hpos', (bind_Ok _ _ _ _ _ (assert_true _ s)) in Hrun.
    rewrite (bind_Ok _ _ _ _ _ (tu_eq t h s)), Hbuf in Hrun.
    apply Nat.ltb_lt in Hlt as Hlt'. rewrite Hlt' in Hrun.
    rewrite (bind_Ok _ _ _ _ _ (assert_true _ s)) in Hrun.
    rewrite H in Hrun. exact Hrun.
  - pose proof (step1_run t file buf Ht (token_end L t tok) offset
                  (mkUnique None (mkDeleter t)) s ltac:(lia)
                  ltac:(split; [reflexivity | exact I])) as H1.
    rewrite Hp in H1. destruct H1 as (evs & H1 & _).
    rewrite (bind_Halt _ _ _ _ _ H1).
    intros [= <- _]. right. right. right. right.
    split; [reflexivity|]. split; [exact Hf|]. split; [exact Hpos|].
    exists buf. split; [reflexivity|]. split; [exact Hlt|].
    now apply step1_offset_None.
Qed.

(** ** Equality is an equivalence *)

Lemma clang_equalLocations_sym a b :
  clang_equalLocations a b = clang_equalLocations b a.
Proof.
  unfold clang_equalLocations.
  now rewrite (Nat.eqb_sym (loc_file a)), (Nat.eqb_sym (loc_offset a)).
Qed.

Lemma valid_cases s it :
  valid L s it ->
  (exists d, it = mkIterator (mkUnique None d)) \/
  (exists h t tok, it = mkIterator (mkUnique (Some h) (mkDeleter t)) /\ live L s h tok).
Proof.
  intros [Hs|[tok Hh]].
  - left. now apply is_end_sentinel_true.
  - right. destruct (held_Some _ _ _ Hh) as (h & t & -> & Hl). eauto.
Qed.

Lemma operator_ne_eq a b s r s' :
  operator_eq L a b s = Ok (r, s') -> operator_ne L a b s = Ok (negb r, s').
Proof. intros H. unfold operator_ne. now rewrite (bind_Ok _ _ _ _ _ H). Qed.

Lemma operator_eq_returns s a b :
  valid L s a -> valid L s b -> exists r, operator_eq L a b s = Ok (r, s).
Proof.
  intros Ha Hb.
  apply valid_cases in Ha as [[da ->]|(ha & ta & toka & -> & La)].
  - eexists. now apply operator_eq_sentinel.
  - apply valid_cases in Hb as [[db ->]|(hb & tb & tokb & -> & Lb)].
    + eexists. now apply operator_eq_sentinel_r.
    + eexists. eapply operator_eq_live; eauto.
Qed.

(** X5.  [operator==] is an equivalence on the valid cursors of a state: it is
    reflexive, symmetric and transitive, it always returns and leaves the
    state as it was, and [operator!=] answers the opposite. *)
Theorem operator_eq_equivalence s a b c :
  valid L s a -> valid L s b -> valid L s c ->
  operator_eq L a a s = Ok (true, s) /\
  operator_eq L a b s = operator_eq L b a s /\
  (operator_eq L a b s = Ok (true, s) -> operator_eq L b c s = Ok (true, s) ->
   operator_eq L a c s = Ok (true, s)) /\
  (exists r, operator_eq L a b s = Ok (r, s) /\
             operator_ne L a b s = Ok (negb r, s)).
Proof.
  intros Ha Hb Hc.
  assert (exists r, operator_eq L a b s = Ok (r, s)) as [r Hr].
  { now apply operator_eq_returns. }
  split; [|split; [|split; [|exists r; split;
                               [exact Hr | now apply operator_ne_eq]]]];
  clear r Hr;
  apply valid_cases in Ha as [[da ->]|(ha & ta & toka & -> & La)];
  apply valid_cases in Hb as [[db ->]|(hb & tb & tokb & -> & Lb)];
  apply valid_cases in Hc as [[dc ->]|(hc & tc & tokc & -> & Lc)];
  repeat first
    [ rewrite (operator_eq_live _ _ _ _ _ _ _ La La)
    | rewrite (operator_eq_live _ _ _ _ _ _ _ La Lb)
    | rewrite (operator_eq_live _ _ _ _ _ _ _ La Lc)
    | rewrite (operator_eq_live _ _ _ _ _ _ _ Lb La)
    | rewrite (operator_eq_live _ _ _ _ _ _ _ Lb Lc)
    | rewrite (operator_eq_sentinel (mkIterator (mkUnique None _)) _ _ eq_refl)
    | rewrite (operator_eq_sentinel_r _ (mkIterator (mkUnique None _)) _ eq_refl) ];
  cbn [has_token m_tok ut_get negb];
  rewrite ?Nat.eqb_refl, ?clang_equalLocations_refl;
  try first [ reflexivity
            | now rewrite Nat.eqb_sym, clang_equalLocations_sym
            | intros; first [assumption | discriminate | reflexivity] ].
  intros [= H1] [= H2].
  apply andb_true_iff in H1 as [T1 E1]. apply andb_true_iff in H2 as [T2 E2].
  apply Nat.eqb_eq in T1, T2. apply clang_equalLocations_eq in E1, E2.
  subst. now rewrite Nat.eqb_refl, E1, E2, clang_equalLocations_refl.
Qed.

(** ** Walking a file back and forth *)

Section Traversal.

Variables (t : CXTranslationUnit) (file : CXFile) (file_buffer : list ascii).
Hypothesis contract : oracle_contract L t file file_buffer.

Lemma file_token_facts tok :
  file_token L t file tok ->
  token_start L t tok = mkLoc file (loc_offset (token_start L t tok)) /\
  token_end L t tok = mkLoc file (loc_offset (token_end L t tok)) /\
  end_offset_at L t file (loc_offset (token_start L t tok))
  = Some (loc_offset (token_end L t tok)).
Proof.
  intros [q Hq]. split; [eapply token_start_in_file; eauto|].
  split; [eapply token_end_in_file; eauto|].
  eapply oc_requery; eauto.
Qed.

Lemma end_offset_at_token q e :
  end_offset_at L t file q = Some e ->
  exists tok, token_at L t file q = Some tok /\ file_token L t file tok /\
              token_end L t tok = mkLoc file e.
Proof.
  intros H. apply (end_offset_at_Some t file file_buffer contract) in H
    as (tok & Htok & He).
  exists tok. split; [exact Htok|]. split; [exists q; exact Htok | exact He].
Qed.

(** A token that ends before the one found at [S] ends at or before [S]. *)
Lemma contract_ends_before S E q e :
  end_offset_at L t file S = Some E -> q <= S ->
  end_offset_at L t file q = Some e -> e <> E -> e <= S.
Proof.
  intros HS Hq He Hne.
  pose proof (oc_mono _ _ _ _ contract _ _ _ _ Hq He HS).
  destruct (Nat.le_gt_cases e S) as [|Hgt]; [assumption|].
  pose proof (oc_stable _ _ _ _ contract q S e He ltac:(lia)). congruence.
Qed.

(** Where step 1 stops, the oracle yields the token just before: one that
    ends at or before [S], at an offset that yields the token ending at [E]. *)
Lemma contract_step1 S E p :
  end_offset_at L t file S = Some E ->
  step1_offset L t file file_buffer (mkLoc file E) S = Some p ->
  exists e', end_offset_at L t file p = Some e' /\ e' <= S /\ e' < E /\
             end_offset_at L t file e' = Some E.
Proof.
  intros HS Hp.
  pose proof (oc_bounds _ _ _ _ contract _ _ HS) as HbS.
  apply step1_offset_Some in Hp as (HpS & Hstop & Hnone).
  apply (is_stop_contract t file file_buffer contract) in Hstop
    as (Hsp & e' & He' & Hne).
  exists e'. split; [exact He'|].
  pose proof (contract_ends_before S E p e' HS ltac:(lia) He' Hne) as He'S.
  split; [exact He'S|]. split; [lia|].
  destruct (end_offset_at L t file e') as [e''|] eqn:He''.
  2:{ exfalso. eapply (oc_down _ _ _ _ contract e' S); [lia|congruence|exact He'']. }
  destruct (decide (e'' = E)) as [->|Hne'']; [reflexivity|]. exfalso.
  pose proof (contract_ends_before S E e' e'' HS He'S He'' Hne'') as He''S.
  destruct (oc_nonspace _ _ _ _ contract _ _ He'') as (r & Hr & Hrsp & Hre).
  pose proof (oc_bounds _ _ _ _ contract _ _ He'') as Hb''.
  assert (p < r) as Hpr.
  { destruct (Nat.le_gt_cases r p) as [Hle|]; [|assumption].
    pose proof (oc_mono _ _ _ _ contract _ _ _ _ Hle Hre He'). lia. }
  assert (is_stop L t file file_buffer (mkLoc file E) r = true) as Hstop.
  { apply (is_stop_contract t file file_buffer contract). split; [exact Hrsp|]. eauto. }
  rewrite Hnone in Hstop by lia. discriminate.
Qed.

(** From the token that follows the one ending at [E], step 1 stops inside
    the token that ends at [E]. *)
Lemma contract_next_previous qT E E2 S2 :
  end_offset_at L t file qT = Some E ->
  end_offset_at L t file E = Some E2 ->
  end_offset_at L t file S2 = Some E2 ->
  0 < S2 /\ S2 < length file_buffer /\
  exists p, step1_offset L t file file_buffer (mkLoc file E2) S2 = Some p /\
            end_offset_at L t file p = Some E.
Proof.
  intros HT HE HS2.
  pose proof (oc_bounds _ _ _ _ contract _ _ HT) as HbT.
  pose proof (oc_bounds _ _ _ _ contract _ _ HE) as HbE.
  pose proof (oc_bounds _ _ _ _ contract _ _ HS2) as HbS.
  assert (E <= S2) as HES.
  { destruct (Nat.le_gt_cases E S2) as [|Hgt]; [assumption|]. exfalso.
    destruct (Nat.le_gt_cases qT S2) as [Hle|Hlt].
    - pose proof (oc_stable _ _ _ _ contract qT S2 E HT ltac:(lia)).
      assert (E = E2) by congruence. lia.
    - pose proof (oc_mono _ _ _ _ contract S2 qT E2 E ltac:(lia) HS2 HT). lia. }
  split; [lia|]. split; [lia|].
  destruct (oc_nonspace _ _ _ _ contract _ _ HT) as (r & Hr & Hrsp & Hre).
  assert (is_stop L t file file_buffer (mkLoc file E2) r = true) as Hstopr.
  { apply (is_stop_contract t file file_buffer contract).
    split; [exact Hrsp|]. exists E. split; [exact Hre | lia]. }
  destruct (step1_offset L t file file_buffer (mkLoc file E2) S2) as [p|] eqn:Hp.
  2:{ rewrite (proj1 (step1_offset_None _ _ _ _ _) Hp r) in Hstopr by lia.
      discriminate. }
  exists p. split; [reflexivity|].
  destruct (contract_step1 S2 E2 p HS2 Hp) as (e' & He' & He'S & He'E & Hee).
  apply step1_offset_Some in Hp as (HpS & _ & Hnone).
  pose proof (oc_bounds _ _ _ _ contract _ _ He') as Hbp.
  destruct (Nat.lt_trichotomy e' E) as [Hlt|[->|Hgt]]; [exfalso| exact He' |exfalso].
  - assert (p < r) as Hpr.
    { destruct (Nat.le_gt_cases r p) as [Hle|]; [|assumption].
      pose proof (oc_mono _ _ _ _ contract _ _ _ _ Hle Hre He'). lia. }
    rewrite Hnone in Hstopr by lia. discriminate.
  - assert (p < E) as HpE.
    { destruct (Nat.le_gt_cases E p) as [Hle|]; [|assumption].
      pose proof (oc_mono _ _ _ _ contract _ _ _ _ Hle HE He'). lia. }
    destruct (Nat.le_gt_cases p qT) as [Hle|Hlt'].
    + pose proof (oc_mono _ _ _ _ contract _ _ _ _ Hle He' HT). lia.
    + pose proof (oc_stable _ _ _ _ contract qT p E HT ltac:(lia)).
      assert (e' = E) by congruence. lia.
Qed.

End Traversal.

Lemma inc_times_snoc k : forall it s,
  inc_times L (S k) it s = (x <- inc_times L k it ;; operator_inc L x) s.
Proof.
  induction k as [|k IH]; intros it s.
  - cbn [inc_times]. unfold bind, ret. destruct (operator_inc L it s) as [[a s1]|];
      reflexivity.
  - change (inc_times L (S (S k)) it s)
      with (bind (operator_inc L it) (fun it' => inc_times L (S k) it') s).
    change (inc_times L (S k) it)
      with (bind (operator_inc L it) (fun it' => inc_times L k it')).
    unfold bind. destruct (operator_inc L it s) as [[a s1]|]; [|reflexivity].
    rewrite IH. reflexivity.
Qed.

Lemma dec_times_snoc k : forall it s,
  dec_times L (S k) it s = (x <- dec_times L k it ;; operator_dec L x) s.
Proof.
  induction k as [|k IH]; intros it s.
  - cbn [dec_times]. unfold bind, ret. destruct (operator_dec L it s) as [[a s1]|];
      reflexivity.
  - change (dec_times L (S (S k)) it s)
      with (bind (operator_dec L it) (fun it' => dec_times L (S k) it') s).
    change (dec_times L (S k) it)
      with (bind (operator_dec L it) (fun it' => dec_times L k it')).
    unfold bind. destruct (operator_dec L it s) as [[a s1]|]; [|reflexivity].
    rewrite IH. reflexivity.
Qed.

Section TraversalSteps.

Variables (t : CXTranslationUnit) (file : CXFile) (file_buffer : list ascii).
Hypothesis contract : oracle_contract L t file file_buffer.
Hypothesis t_not_null : t <> nullptr.
Hypothesis file_not_null : file <> nullptr.

Lemma operator_inc_sentinel it s :
  has_token it = false -> operator_inc L it s = Halt assert_m_tok (trace s).
Proof. intros H. unfold operator_inc. now rewrite H. Qed.

Lemma stands_at_facts s it E :
  stands_at L t file s it E ->
  exists h tok S,
    it = mkIterator (mkUnique (Some h) (mkDeleter t)) /\ live L s h tok /\
    file_token L t file tok /\
    token_start L t tok = mkLoc file S /\ token_end L t tok = mkLoc file E /\
    end_offset_at L t file S = Some E /\ S < E <= length file_buffer.
Proof.
  intros (h & tok & -> & Hl & Hf & <-).
  destruct (file_token_facts t file file_buffer contract tok Hf) as (Hs & He & Hr).
  pose proof (oc_bounds _ _ _ _ contract _ _ Hr).
  exists h, tok, (loc_offset (token_start L t tok)). auto 10.
Qed.

(** The reverse step from a token of the file, when step 1 stops at [p]:
    it returns with a token of the file that ends where the token at [p]
    ends. *)
Lemma dec_lands h tok s p :
  live L s h tok -> file_token L t file tok ->
  0 < loc_offset (token_start L t tok) ->
  step1_offset L t file file_buffer (token_end L t tok)
    (loc_offset (token_start L t tok)) = Some p ->
  exists it' s' e',
    operator_dec L (mkIterator (mkUnique (Some h) (mkDeleter t))) s = Ok (it', s') /\
    stands_at L t file s' it' e' /\
    end_offset_at L t file p = Some e'.
Proof.
  intros Hl Hf Hpos Hp.
  destruct (file_token_facts t file file_buffer contract tok Hf) as (Hs & He & Hr).
  pose proof (oc_bounds _ _ _ _ contract _ _ Hr) as Hb.
  assert (loc_offset (token_start L t tok) < length file_buffer) as Hlt by lia.
  pose proof (operator_dec_run t file file_buffer t_not_null h tok s
                (loc_offset (token_start L t tok)) p Hl
                ltac:(now rewrite Hs) file_not_null Hpos
                (oc_contents _ _ _ _ contract) Hlt Hp) as Hrun.
  apply returns_Ok in Hrun
    as (it' & s' & Edec & h' & tok' & tokp & -> & Hl' & _ & Htokp & Hat' & _).
  pose proof (step1_offset_lt _ _ _ _ _ _ Hp) as Hpo.
  destruct (step2_pos_spec file_buffer
              (ends_at L t file (token_end L t tokp)) p ltac:(lia)) as (_ & Hok & _).
  { unfold ends_at, end_at. rewrite Htokp. apply clang_equalLocations_refl. }
  unfold ends_at at 1 in Hok. unfold end_at at 1 in Hok. rewrite Hat' in Hok.
  apply clang_equalLocations_eq in Hok.
  exists (mkIterator (mkUnique (Some h') (mkDeleter t))), s',
         (loc_offset (token_end L t tok')).
  split; [exact Edec|]. split.
  - exists h', tok'. split; [reflexivity|]. split; [exact Hl'|].
    split; [eexists; exact Hat' | reflexivity].
  - unfold end_offset_at. now rewrite Htokp, Hok.
Qed.

(** A reverse step that returns, from a token of the file that ends at [E],
    lands on a token of the file that ends earlier, at an offset where the
    oracle yields the token ending at [E]. *)
Lemma dec_step s it E it' s' :
  stands_at L t file s it E -> operator_dec L it s = Ok (it', s') ->
  exists e', stands_at L t file s' it' e' /\ e' < E /\
             end_offset_at L t file e' = Some E.
Proof.
  intros Hst Hdec.
  destruct (stands_at_facts _ _ _ Hst)
    as (h & tok & S & -> & Hl & Hf & Hs & He & Hr & Hb).
  destruct (operator_dec_inv t h tok s it' s' t_not_null Hl Hdec)
    as (buf & p & _ & Hpos & Hc & _ & Hp).
  rewrite Hs in Hpos, Hc, Hp. cbn [loc_file loc_offset] in Hpos, Hc, Hp.
  rewrite (oc_contents _ _ _ _ contract) in Hc. injection Hc as <-.
  destruct (dec_lands h tok s p Hl Hf) as (it1 & s1 & e' & E1 & Hst' & Hep).
  { rewrite Hs. exact Hpos. }
  { rewrite Hs. exact Hp. }
  rewrite Hdec in E1. injection E1 as <- <-.
  rewrite He in Hp.
  destruct (contract_step1 t file file_buffer contract S E p Hr Hp)
    as (e'' & He'' & _ & Hlt & Hee).
  assert (e'' = e') as -> by congruence.
  exists e'. auto.
Qed.

(** The forward step from a token of the file that ends at [E]: it lands on
    the token the oracle yields at [E], and on the end sentinel when it
    yields none. *)
Lemma inc_step s it E :
  stands_at L t file s it E ->
  exists it' s',
    operator_inc L it s = Ok (it', s') /\
    match end_offset_at L t file E with
    | Some E2 => stands_at L t file s' it' E2
    | None => is_end_sentinel it' = true
    end.
Proof.
  intros Hst.
  destruct (stands_at_facts _ _ _ Hst)
    as (h & tok & S & -> & Hl & Hf & Hs & He & Hr & Hb).
  rewrite (operator_inc_eq t h s tok t_not_null Hl), He.
  change (lex_getToken L t (mkLoc file E)) with (token_at L t file E).
  unfold end_offset_at.
  destruct (token_at L t file E) as [tok2|] eqn:H2.
  - do 2 eexists. split; [reflexivity|].
    exists (length (heap s)), tok2. split; [reflexivity|]. split.
    + eapply (live_free_other (mkState (heap s ++ [Some tok2]) (trace s)));
        [reflexivity | | now apply live_alloc_new].
      apply live_lt in Hl. lia.
    + split; [eexists; exact H2 | reflexivity].
  - do 2 eexists. split; reflexivity.
Qed.

(** The reverse step from the token that follows the one ending at [E]. *)
Lemma dec_after_inc s it qT E E2 :
  end_offset_at L t file qT = Some E ->
  end_offset_at L t file E = Some E2 ->
  stands_at L t file s it E2 ->
  exists it' s', operator_dec L it s = Ok (it', s') /\ stands_at L t file s' it' E.
Proof.
  intros HT HE Hst.
  destruct (stands_at_facts _ _ _ Hst)
    as (h & tok & S & -> & Hl & Hf & Hs & He & Hr & Hb).
  destruct (contract_next_previous t file file_buffer contract qT E E2 S HT HE Hr)
    as (Hpos & _ & p & Hp & Hep).
  destruct (dec_lands h tok s p Hl Hf) as (it1 & s1 & e' & E1 & Hst' & Hep').
  { rewrite Hs. exact Hpos. }
  { rewrite Hs, He. exact Hp. }
  assert (e' = E) as -> by congruence.
  eauto.
Qed.

Lemma inc_times_from_sentinel k : forall it s it' s',
  has_token it = false -> inc_times L k it s = Ok (it', s') -> it' = it.
Proof.
  destruct k as [|k]; intros it s it' s' Hs; cbn [inc_times].
  - now intros [= <- <-].
  - rewrite (bind_Halt _ _ _ _ _ (operator_inc_sentinel it s Hs)). discriminate.
Qed.

(** X6.  Back and forth.  Whenever [k] reverse steps from a token of the file
    return, [k] forward steps from there return as well and bring the
    cursor to a token of the file with the end offset it started from: a
    cursor that compares equal to the one it was. *)
Theorem back_then_forward k : forall s it E it' s',
  stands_at L t file s it E ->
  dec_times L k it s = Ok (it', s') ->
  exists it'' s'',
    inc_times L k it' s' = Ok (it'', s'') /\ stands_at L t file s'' it'' E.
Proof.
  induction k as [|k IH]; intros s it E it' s' Hst.
  - cbn. intros [= <- <-]. eauto.
  - cbn [dec_times]. intros H. apply bind_inv in H as (it1 & s1 & Hd & H).
    destruct (dec_step _ _ _ _ _ Hst Hd) as (e' & Hst1 & _ & Hee).
    destruct (IH _ _ _ _ _ Hst1 H) as (it2 & s2 & Hi & Hst2).
    destruct (inc_step _ _ _ Hst2) as (it3 & s3 & Hi3 & Hst3).
    rewrite Hee in Hst3.
    exists it3, s3. split; [|exact Hst3].
    rewrite inc_times_snoc. now rewrite (bind_Ok _ _ _ _ _ Hi).
Qed.

(** X7.  Forth and back.  Whenever [k] forward steps from a token of the file
    return on a token, [k] reverse steps from there return as well and
    bring the cursor to a token of the file with the end offset it started
    from. *)
Theorem forward_then_back k : forall s it E it' s',
  stands_at L t file s it E ->
  inc_times L k it s = Ok (it', s') -> is_end_sentinel it' = false ->
  exists it'' s'',
    dec_times L k it' s' = Ok (it'', s'') /\ stands_at L t file s'' it'' E.
Proof.
  induction k as [|k IH]; intros s it E it' s' Hst.
  - cbn. intros [= <- <-] _. eauto.
  - cbn [inc_times]. intros H Hns. apply bind_inv in H as (it1 & s1 & Hi & H).
    destruct (inc_step _ _ _ Hst) as (it1' & s1' & Hi' & Hcase).
    rewrite Hi in Hi'. injection Hi' as <- <-.
    destruct (stands_at_facts _ _ _ Hst)
      as (h & tok & S & _ & _ & _ & _ & _ & Hr & _).
    destruct (end_offset_at L t file E) as [E2|] eqn:HE.
    + destruct (IH _ _ _ _ _ Hcase H Hns) as (it2 & s2 & Hd & Hst2).
      destruct (dec_after_inc _ _ _ _ _ Hr HE Hst2) as (it3 & s3 & Hd3 & Hst3).
      exists it3, s3. split; [|exact Hst3].
      rewrite dec_times_snoc. now rewrite (bind_Ok _ _ _ _ _ Hd).
    + apply is_end_sentinel_has_token in Hcase as Hcase'.
      apply (inc_times_from_sentinel _ _ _ _ _ Hcase') in H. subst it'.
      congruence.
Qed.

(** X8.  Steps move strictly.  From a token of the file that ends at [E], a
    forward step that lands on a token lands on one that ends after [E],
    and a reverse step that returns lands on one that ends before [E]. *)
Theorem steps_move_strictly s it E it' s' :
  stands_at L t file s it E ->
  (operator_inc L it s = Ok (it', s') -> is_end_sentinel it' = false ->
   exists E2, stands_at L t file s' it' E2 /\ E < E2) /\
  (operator_dec L it s = Ok (it', s') ->
   exists e', stands_at L t file s' it' e' /\ e' < E).
Proof.
  intros Hst. split.
  - intros Hi Hns. destruct (inc_step _ _ _ Hst) as (it1 & s1 & Hi' & Hcase).
    rewrite Hi in Hi'. injection Hi' as <- <-.
    destruct (end_offset_at L t file E) as [E2|] eqn:HE; [|congruence].
    exists E2. split; [exact Hcase|].
    pose proof (oc_bounds _ _ _ _ contract _ _ HE). lia.
  - intros Hd. destruct (dec_step _ _ _ _ _ Hst Hd) as (e' & Hst' & Hlt & _).
    eauto.
Qed.

(** The reverse step when step 1 finds no offset to stop at. *)
Lemma operator_dec_no_stop h tok s offset :
  live L s h tok ->
  clang_getSpellingLocation (token_start L t tok) = (file, offset) ->
  0 < offset -> offset < length file_buffer ->
  step1_offset L t file file_buffer (token_end L t tok) offset = None ->
  exists evs,
    operator_dec L (mkIterator (mkUnique (Some h) (mkDeleter t))) s
    = Halt assert_offset_gt_0 (trace s ++ evs).
Proof.
  intros Hl Hstart Hpos Hlt Hp.
  unfold operator_dec. cbn [has_token m_tok ut_get].
  rewrite (bind_Ok _ _ _ _ _ (assert_true _ s)).
  rewrite (bind_Ok _ _ _ _ _ (extent_eq t h s tok Hl)).
  fold (token_start L t tok) (token_end L t tok). rewrite Hstart. cbn [fst snd].
  rewrite (neq_nullptr_eqb _ file_not_null), (bind_Ok _ _ _ _ _ (assert_true _ s)).
  apply Nat.ltb_lt in Hpos as Hpos'. rewrite Hpos'.
  rewrite (bind_Ok _ _ _ _ _ (assert_true _ s)).
  rewrite (bind_Ok _ _ _ _ _ (tu_eq t h s)).
  rewrite (oc_contents _ _ _ _ contract).
  apply Nat.ltb_lt in Hlt as Hlt'. rewrite Hlt'.
  rewrite (bind_Ok _ _ _ _ _ (assert_true _ s)).
  pose proof (step1_run t file file_buffer t_not_null (token_end L t tok) offset
                (mkUnique None (mkDeleter t)) s ltac:(lia)
                ltac:(split; [reflexivity | exact I])) as H1.
  rewrite Hp in H1. destruct H1 as (evs & H1 & _).
  exists evs. now rewrite (bind_Halt _ _ _ _ _ H1).
Qed.

(** X9.  At the first token of a file the reverse step is a precondition
    violation: from the token the oracle yields at offset 0 it runs into
    [assert(offset > 0)], also when the token starts after leading
    whitespace. *)
Theorem operator_dec_at_first_token s it E :
  stands_at L t file s it E ->
  end_offset_at L t file 0 = Some E ->
  exists evs, operator_dec L it s = Halt assert_offset_gt_0 (trace s ++ evs).
Proof.
  intros Hst H0.
  destruct (stands_at_facts _ _ _ Hst)
    as (h & tok & S & -> & Hl & Hf & Hs & He & Hr & Hb).
  destruct (Nat.eq_dec S 0) as [->|HS].
  { rewrite (operator_dec_offset_0 t h tok s Hl) by now rewrite Hs.
    rewrite Hs. cbn [loc_file].
    destruct (Nat.eqb_spec file nullptr); [contradiction|].
    exists []. now rewrite app_nil_r. }
  apply (operator_dec_no_stop h tok s S Hl); [now rewrite Hs | lia | lia |].
  rewrite He. apply step1_offset_None. intros q Hq.
  destruct (is_stop L t file file_buffer (mkLoc file E) q) eqn:Hstop; [|reflexivity].
  exfalso. apply (is_stop_contract t file file_buffer contract) in Hstop
    as (_ & e & Heq & Hne).
  pose proof (oc_mono _ _ _ _ contract 0 q E e ltac:(lia) H0 Heq).
  pose proof (oc_mono _ _ _ _ contract q S e E ltac:(lia) Heq Hr). lia.
Qed.

End TraversalSteps.

(** ** Where and how often a reverse step asks the lexer *)

Lemma token_deleter_call_queries d p s r s' :
  token_deleter_call L d p s = Ok (r, s') -> queries (trace s') = queries (trace s).
Proof.
  destruct p as [h|]; cbn [token_deleter_call].
  - intros H. apply bind_inv in H as ([] & s1 & Ha & H).
    apply assert_inv in Ha as [_ [= ->]].
    unfold clang_disposeTokens, bind, log, free in H. cbn in H.
    destruct (heap s !! h) as [[tok|]|]; try discriminate.
    injection H as <- <-. cbn [trace]. rewrite queries_app. cbn. apply app_nil_r.
  - now intros [= <- <-].
Qed.

Lemma unique_token_move_assign_queries u v s u' s' :
  unique_token_move_assign L u v s = Ok (u', s') ->
  queries (trace s') = queries (trace s).
Proof.
  unfold unique_token_move_assign, unique_token_reset. intros H.
  apply bind_inv in H as (u1 & s1 & H & [= <- <-]).
  apply bind_inv in H as ([] & s2 & H & [= <- <-]).
  eapply token_deleter_call_queries, H.
Qed.

Section Asking.

Variables (t : CXTranslationUnit) (file : CXFile) (file_buffer : list ascii).

Lemma consider_next_candidate_asks candidate_end candidate_tok pos s r s' :
  consider_next_candidate L t file candidate_end candidate_tok pos s = Ok (r, s') ->
  fst r = ends_at L t file candidate_end pos /\
  queries (trace s') = queries (trace s) ++ [mkLoc file pos].
Proof.
  unfold consider_next_candidate, ends_at, end_at, token_at. intros H.
  apply bind_inv in H as (p & s1 & Hg & H). rewrite clang_getToken_eq in Hg.
  destruct (lex_getToken L t (clang_getLocationForOffset t file pos)) as [tok|];
    injection Hg as <- <-.
  - rewrite (bind_Ok _ _ _ _ _
               (clang_getTokenExtent_eq t _ _ tok
                  (live_alloc_new (mkState _ _) (heap s) tok eq_refl))) in H.
    fold (token_end L t tok) in H.
    destruct (clang_equalLocations (token_end L t tok) candidate_end); cbn [negb] in H.
    + apply bind_inv in H as (u' & s3 & Hm & [= <- <-]).
      apply unique_token_move_assign_queries in Hm. rewrite Hm. cbn [trace fst].
      split; [reflexivity|]. now rewrite queries_app.
    + apply bind_inv in H as ([] & s3 & Hx & [= <- <-]).
      apply token_deleter_call_queries in Hx. rewrite Hx. cbn [trace fst].
      split; [reflexivity|]. now rewrite queries_app.
  - injection H as <- <-. cbn [trace fst]. split; [reflexivity|].
    now rewrite queries_app.
Qed.

Lemma step2_loop_asks candidate_end fuel : forall search_span candidate_tok s u' s',
  step2_loop L fuel t file candidate_end search_span candidate_tok s = Ok (u', s') ->
  queries (trace s') =
  queries (trace s) ++
  map (fun q => mkLoc file q)
      (step2_loop_probes fuel (ends_at L t file candidate_end) search_span).
Proof.
  induction fuel as [|fuel IH]; intros sp cand s u' s';
    destruct (span_empty sp) eqn:He.
  1,3: (cbn [step2_loop step2_loop_probes]; rewrite He; intros [= <- <-]; cbn;
        now rewrite app_nil_r).
  - cbn [step2_loop]. rewrite He. discriminate.
  - intros H. apply step2_loop_inv in H as (r & s1 & Hc & H); [|exact He].
    cbn [step2_loop_probes]. rewrite He.
    apply consider_next_candidate_asks in Hc as [Hv Hq]. rewrite <- Hv.
    cbn [map]. destruct (fst r); apply IH in H; rewrite H, Hq, <- app_assoc;
      reflexivity.
Qed.

Lemma step2_asks candidate_end offset candidate_tok s u' s' :
  step2 L t file file_buffer candidate_end offset candidate_tok s = Ok (u', s') ->
  queries (trace s') =
  queries (trace s) ++
  map (fun q => mkLoc file q)
      (step2_probes (ends_at L t file candidate_end) file_buffer offset).
Proof.
  intros H. apply step2_inv in H. cbv zeta in H.
  unfold step2_probes. cbv zeta.
  destruct (span_empty _); cbn [negb].
  - destruct H as [-> ->]. cbn. now rewrite app_nil_r.
  - destruct H as (r & s1 & Hc & H).
    apply consider_next_candidate_asks in Hc as [Hv Hq]. rewrite <- Hv.
    cbn [map]. destruct (fst r).
    + destruct H as [-> ->]. exact Hq.
    + apply step2_loop_asks in H. rewrite H, Hq, <- app_assoc. reflexivity.
Qed.

(** The probes of the binary search lie in its span. *)
Lemma step2_loop_probes_range (ok : nat -> bool) fuel : forall search_span,
  Forall (fun q => sp_data search_span <= q < sp_data search_span + sp_size search_span)
         (step2_loop_probes fuel ok search_span).
Proof.
  induction fuel as [|fuel IH]; intros sp; cbn [step2_loop_probes];
    unfold span_empty; destruct (Nat.eqb_spec (sp_size sp) 0); try constructor.
  - assert (sp_size sp / 2 < sp_size sp) as Hmid by (apply Nat.div_lt; lia). lia.
  - assert (sp_size sp / 2 < sp_size sp) as Hmid by (apply Nat.div_lt; lia).
    generalize dependent (sp_size sp / 2). intros mid Hmid.
    destruct (ok (sp_data sp + mid)).
    + eapply Forall_impl; [apply IH|]. cbn. intros; lia.
    + eapply Forall_impl; [apply IH|]. cbn. intros; lia.
Qed.

(** The binary search over [n] bytes asks at most [log2 n + 1] times. *)
Lemma step2_loop_probes_length (ok : nat -> bool) fuel : forall search_span,
  length (step2_loop_probes fuel ok search_span)
  <= if Nat.eqb (sp_size search_span) 0 then 0
     else S (Nat.log2 (sp_size search_span)).
Proof.
  induction fuel as [|fuel IH]; intros sp; cbn [step2_loop_probes];
    unfold span_empty; destruct (Nat.eqb_spec (sp_size sp) 0) as [Hz|Hnz];
    cbn [length]; try lia.
  assert (forall k, k <= sp_size sp / 2 ->
            (if Nat.eqb k 0 then 0 else S (Nat.log2 k)) <= Nat.log2 (sp_size sp))
    as Hhalf.
  { intros k Hk. destruct (Nat.eqb_spec k 0); [lia|].
    assert (2 * k <= sp_size sp).
    { pose proof (Nat.Div0.mul_div_le (sp_size sp) 2). lia. }
    rewrite <- (Nat.log2_double k) by lia. now apply Nat.log2_le_mono. }
  assert (sp_size sp - (sp_size sp / 2 + 1) <= sp_size sp / 2) as Hrest.
  { pose proof (Nat.div_mod_eq (sp_size sp) 2).
    pose proof (Nat.mod_upper_bound (sp_size sp) 2 ltac:(lia)). lia. }
  destruct (ok _).
  - specialize (IH (first_of sp (sp_size sp / 2))).
    specialize (Hhalf (sp_size sp / 2) ltac:(lia)). cbn [first_of sp_size] in IH.
    lia.
  - specialize (IH (subspan_of sp (sp_size sp / 2 + 1))).
    specialize (Hhalf _ Hrest). cbn [subspan_of sp_size] in IH. lia.
Qed.

Lemma step2_probes_range (ok : nat -> bool) offset :
  offset <= length file_buffer ->
  Forall (fun q => sp_data (step2_span file_buffer offset) <= q < offset)
         (step2_probes ok file_buffer offset).
Proof.
  intros Hle. unfold step2_probes. cbv zeta.
  pose proof (step2_span_bounds file_buffer offset Hle) as Hsp.
  generalize dependent (step2_span file_buffer offset). intros sp Hsp.
  unfold span_empty. destruct (Nat.eqb_spec (sp_size sp) 0); cbn [negb];
    [constructor|].
  constructor; [lia|]. destruct (ok (sp_data sp)); [constructor|].
  eapply Forall_impl; [apply step2_loop_probes_range|].
  cbn. intros; lia.
Qed.

Lemma step2_probes_length (ok : nat -> bool) offset :
  length (step2_probes ok file_buffer offset)
  <= Nat.log2 (sp_size (step2_span file_buffer offset)) + 2.
Proof.
  unfold step2_probes. cbv zeta.
  generalize (step2_span file_buffer offset). intros sp.
  unfold span_empty. destruct (Nat.eqb_spec (sp_size sp) 0); cbn [negb length];
    [lia|].
  destruct (ok (sp_data sp)); cbn [length]; [lia|].
  pose proof (step2_loop_probes_length ok (sp_size (subspan_of sp 1))
                (subspan_of sp 1)) as H.
  cbn [subspan_of sp_size] in *.
  destruct (Nat.eqb_spec (sp_size sp - 1) 0); [lia|].
  pose proof (Nat.log2_le_mono (sp_size sp - 1) (sp_size sp) ltac:(lia)). lia.
Qed.

Lemma step1_probes_not_space curr_end offset :
  Forall (fun q => space_at file_buffer q = false /\ q < offset)
         (step1_probes L t file file_buffer curr_end offset).
Proof.
  induction offset as [|o IH]; cbn [step1_probes]; [constructor|].
  assert (Forall (fun q => space_at file_buffer q = false /\ q < S o)
            (step1_probes L t file file_buffer curr_end o)) as IH'.
  { eapply Forall_impl; [exact IH|]. cbn. intros q [? ?]. split; [assumption|lia]. }
  destruct (file_buffer !! o) as [c|] eqn:Hb; [|constructor].
  destruct (isspace c) eqn:Hc; [exact IH'|].
  assert (space_at file_buffer o = false) by (unfold space_at; now rewrite Hb).
  destruct (is_stop L t file file_buffer curr_end o); constructor; auto.
Qed.

Lemma step1_probes_length curr_end offset p :
  step1_offset L t file file_buffer curr_end offset = Some p ->
  length (step1_probes L t file file_buffer curr_end offset) <= offset - p.
Proof.
  induction offset as [|o IH]; cbn [step1_probes step1_offset]; [discriminate|].
  destruct (is_stop L t file file_buffer curr_end o) eqn:Hs.
  - intros [= <-]. unfold is_stop in Hs.
    destruct (file_buffer !! o) as [c|]; [|discriminate].
    destruct (isspace c); [discriminate|]. cbn. lia.
  - intros H. pose proof (step1_offset_lt _ _ _ _ _ _ H). specialize (IH H).
    destruct (file_buffer !! o) as [c|]; [|cbn; lia].
    destruct (isspace c); cbn [length]; lia.
Qed.

End Asking.


Lemma step1_probes_stop t file file_buffer curr_end offset p :
  offset <= length file_buffer ->
  step1_offset L t file file_buffer curr_end offset = Some p ->
  In p (step1_probes L t file file_buffer curr_end offset).
Proof.
  induction offset as [|o IH]; cbn [step1_probes step1_offset]; [discriminate|].
  intros Hle. destruct (file_buffer !! o) as [c|] eqn:Hb.
  2:{ apply lookup_ge_None_1 in Hb. lia. }
  unfold is_stop. rewrite Hb.
  destruct (isspace c); cbn [negb andb]; [intros H; apply IH; [lia|exact H]|].
  destruct (match end_at L t file o with Some _ => _ | None => _ end).
  - intros [= <-]. now left.
  - intros H. right. apply IH; [lia|exact H].
Qed.

(** A successful reverse step asks exactly the probes of step 1 followed by
    the probes of step 2. *)
Lemma operator_dec_asks s it tok it' s' :
  held L s it = Some tok -> iterator_tu it <> nullptr ->
  operator_dec L it s = Ok (it', s') ->
  let t := iterator_tu it in
  let file := loc_file (token_start L t tok) in
  let offset := loc_offset (token_start L t tok) in
  exists file_buffer p tokp,
    lex_getFileContents L t file = Some file_buffer /\
    offset < length file_buffer /\
    step1_offset L t file file_buffer (token_end L t tok) offset = Some p /\
    token_at L t file p = Some tokp /\
    queries (trace s') =
    queries (trace s) ++
    map (fun q => mkLoc file q)
        (step1_probes L t file file_buffer (token_end L t tok) offset ++
         step2_probes (ends_at L t file (token_end L t tokp)) file_buffer p).
Proof.
  intros Hh Ht. destruct (held_Some _ _ _ Hh) as (h & t & -> & Hl).
  cbn [iterator_tu m_tok ut_deleter deleter_tu] in *. cbv zeta.
  set (file := loc_file (token_start L t tok)).
  set (offset := loc_offset (token_start L t tok)).
  unfold operator_dec. cbn [has_token m_tok ut_get].
  rewrite (bind_Ok _ _ _ _ _ (assert_true _ s)).
  rewrite (bind_Ok _ _ _ _ _ (extent_eq t h s tok Hl)).
  fold (token_start L t tok) (token_end L t tok).
  unfold clang_getSpellingLocation. cbn [fst snd]. fold file offset.
  intros H.
  apply bind_inv in H as ([] & s1 & Ha & H). apply assert_inv in Ha as [_ [= ->]].
  apply bind_inv in H as ([] & s1 & Ha & H). apply assert_inv in Ha as [_ [= ->]].
  rewrite (bind_Ok _ _ _ _ _ (tu_eq t h s)) in H.
  destruct (lex_getFileContents L t file) as [buf|] eqn:Hbuf; [|discriminate].
  apply bind_inv in H as ([] & s1 & Ha & H).
  apply assert_inv in Ha as [Hlt [= ->]]. apply Nat.ltb_lt in Hlt.
  apply bind_inv in H as (r & s1 & H1 & H).
  apply bind_inv in H as (u & s2 & H2 & H).
  apply bind_inv in H as (u' & s3 & H3 & [= <- <-]).
  pose proof (step1_run t file buf Ht (token_end L t tok) offset
                (mkUnique None (mkDeleter t)) s ltac:(lia)
                ltac:(split; [reflexivity | exact I])) as R1.
  destruct (step1_offset L t file buf (token_end L t tok) offset) as [p|] eqn:Hp;
    [|destruct R1 as (? & R1 & _); congruence].
  unfold returns in R1. rewrite H1 in R1.
  destruct R1 as [(Hr & h1 & tok1 & _ & _ & _ & Hat1 & Hend1)
                  (_ & _ & evs & Htr & Hq)].
  apply step2_asks in H2. apply unique_token_move_assign_queries in H3.
  exists buf, p, tok1. repeat (split; [first [reflexivity | assumption]|]).
  rewrite H3, H2, Htr, queries_app, Hq, Hr, Hend1, map_app, app_assoc.
  reflexivity.
Qed.

(** X10.  Every location a reverse step asks the lexer about lies in the file of
    the current token, strictly before the token's start offset, on a byte
    that is not whitespace. *)
Theorem operator_dec_asks_off_whitespace s it tok it' s' :
  held L s it = Some tok -> iterator_tu it <> nullptr ->
  operator_dec L it s = Ok (it', s') ->
  let t := iterator_tu it in
  let file := loc_file (token_start L t tok) in
  let offset := loc_offset (token_start L t tok) in
  exists file_buffer asked,
    lex_getFileContents L t file = Some file_buffer /\
    queries (trace s') = queries (trace s) ++ asked /\
    asked <> [] /\
    Forall (fun l => loc_file l = file /\ loc_offset l < offset /\
                     space_at file_buffer (loc_offset l) = false) asked.
Proof.
  intros Hh Ht H. cbv zeta.
  destruct (operator_dec_asks _ _ _ _ _ Hh Ht H)
    as (buf & p & tokp & Hbuf & Hlt & Hp & Hat & Hq).
  exists buf, (map (fun q => mkLoc (loc_file (token_start L (iterator_tu it) tok)) q)
                 (step1_probes L (iterator_tu it)
                    (loc_file (token_start L (iterator_tu it) tok)) buf
                    (token_end L (iterator_tu it) tok)
                    (loc_offset (token_start L (iterator_tu it) tok)) ++
                  step2_probes
                    (ends_at L (iterator_tu it)
                       (loc_file (token_start L (iterator_tu it) tok))
                       (token_end L (iterator_tu it) tokp)) buf p)).
  split; [exact Hbuf|]. split; [exact Hq|].
  pose proof (step1_offset_lt _ _ _ _ _ _ Hp) as Hpo.
  split.
  { pose proof (step1_probes_stop _ _ _ _ _ _ (Nat.lt_le_incl _ _ Hlt) Hp) as Hin.
    intros Hnil. apply map_eq_nil in Hnil. apply app_eq_nil in Hnil as [Hnil _].
    rewrite Hnil in Hin. inversion Hin. }
  apply Forall_map, Forall_app. split.
  - eapply Forall_impl; [apply step1_probes_not_space|].
    cbn. intros q [? ?]. auto.
  - assert (p <= length buf) as Hple by lia.
    eapply Forall_impl; [apply (step2_probes_range buf _ p Hple)|].
    cbn. intros q Hq'. split; [reflexivity|]. split; [lia|].
    apply (step2_span_spec buf p Hple). exact Hq'.
Qed.

(** X11.  A reverse step asks the lexer at most once per byte between the start
    of the current token and the byte [p] where step 1 stops, plus a number
    of times logarithmic in the length of the run of non-whitespace bytes
    before [p]. *)
Theorem operator_dec_query_bound s it tok it' s' :
  held L s it = Some tok -> iterator_tu it <> nullptr ->
  operator_dec L it s = Ok (it', s') ->
  let t := iterator_tu it in
  let file := loc_file (token_start L t tok) in
  let offset := loc_offset (token_start L t tok) in
  exists file_buffer p,
    lex_getFileContents L t file = Some file_buffer /\
    step1_offset L t file file_buffer (token_end L t tok) offset = Some p /\
    length (queries (trace s')) <=
    length (queries (trace s)) + (offset - p)
    + Nat.log2 (sp_size (step2_span file_buffer p)) + 2.
Proof.
  intros Hh Ht H. cbv zeta.
  destruct (operator_dec_asks _ _ _ _ _ Hh Ht H)
    as (buf & p & tokp & Hbuf & Hlt & Hp & Hat & Hq).
  exists buf, p. split; [exact Hbuf|]. split; [exact Hp|].
  rewrite Hq, length_app, length_map, length_app.
  pose proof (step1_probes_length _ _ _ _ _ _ Hp).
  pose proof (step2_probes_length buf
                (ends_at L (iterator_tu it)
                   (loc_file (token_start L (iterator_tu it) tok))
                   (token_end L (iterator_tu it) tokp)) p).
  lia.
Qed.


(** ** The remaining members *)

(** X12.  A forward step from the last token (the lexer has no token at its
    end) releases the handle and leaves a cursor that compares equal to a
    default-constructed end sentinel, although it keeps its translation
    unit; it converts to [false], and a further step in either direction
    stops at [assert(m_tok)]. *)
Theorem forward_step_past_last_token s it tok :
  held L s it = Some tok -> iterator_tu it <> nullptr ->
  lex_getToken L (iterator_tu it) (token_end L (iterator_tu it) tok) = None ->
  exists it' s',
    operator_inc L it s = Ok (it', s') /\
    iterator_tu it' = iterator_tu it /\
    operator_bool it' = false /\
    operator_eq L it' end_sentinel s' = Ok (true, s') /\
    operator_eq L end_sentinel it' s' = Ok (true, s') /\
    operator_ne L it' end_sentinel s' = Ok (false, s') /\
    live_count L s' + 1 = live_count L s /\
    operator_inc L it' s' = Halt assert_m_tok (trace s') /\
    operator_dec L it' s' = Halt assert_m_tok (trace s').
Proof.
  intros Hh Ht Hn. destruct (held_Some _ _ _ Hh) as (h & t & -> & Hl).
  cbn [iterator_tu m_tok ut_deleter deleter_tu] in *.
  pose proof (operator_inc_eq t h s tok Ht Hl) as E. rewrite Hn in E.
  do 2 eexists. split; [exact E|].
  split; [reflexivity|]. split; [reflexivity|]. split; [reflexivity|].
  split; [reflexivity|]. split; [reflexivity|].
  split; [|split; reflexivity].
  unfold live_count. cbn [heap].
  rewrite <- (count_live_free (heap s) h tok Hl). lia.
Qed.

(** X13.  [operator++(int)] asks the lexer twice, at the start of the current
    token (for the copy it returns) and at its end (for the step).  The
    value returned holds what the lexer yields at the start, the cursor holds
    what it yields at the end, and the number of live handles grows by what
    the returned copy owns and shrinks by one when the cursor reaches the
    end. *)
Theorem post_increment_spec s it tok :
  held L s it = Some tok -> iterator_tu it <> nullptr ->
  let t := iterator_tu it in
  exists temp this' s',
    operator_inc_post L it s = Ok ((temp, this'), s') /\
    queries (trace s') = queries (trace s) ++ [token_start L t tok; token_end L t tok] /\
    held L s' temp = lex_getToken L t (token_start L t tok) /\
    held L s' this' = lex_getToken L t (token_end L t tok) /\
    iterator_tu temp = t /\ iterator_tu this' = t /\
    live_count L s' + 1 = live_count L s + owns (m_tok temp) + owns (m_tok this').
Proof.
  intros Hh Ht. destruct (held_Some _ _ _ Hh) as (h & t & -> & Hl).
  cbv zeta. cbn [iterator_tu m_tok ut_deleter deleter_tu] in *.
  unfold operator_inc_post.
  pose proof (copy_construct_eq t h s tok Hl) as Ec.
  pose proof (live_lt _ _ _ Hl) as Hlt.
  assert (Hq : forall tr a b c,
             queries (tr ++ [EvGetToken t a] ++ [EvGetToken t b; EvDispose t c])
             = queries tr ++ [a; b]).
  { intros. now rewrite !queries_app. }
  destruct (lex_getToken L t (token_start L t tok)) as [tok0|].
  - rewrite (bind_Ok _ _ _ _ _ Ec).
    assert (live L (mkState (heap s ++ [Some tok0])
                      (trace s ++ [EvGetToken t (token_start L t tok)])) h tok)
      as Hl1 by (eapply live_alloc_old; [reflexivity | exact Hl]).
    pose proof (operator_inc_eq t h _ tok Ht Hl1) as Ei. cbn [heap trace] in Ei.
    assert (live L (mkState (heap s ++ [Some tok0])
                      (trace s ++ [EvGetToken t (token_start L t tok)]))
              (length (heap s)) tok0)
      as Hl0 by (now apply live_alloc_new).
    destruct (lex_getToken L t (token_end L t tok)) as [tok'|].
    + rewrite (bind_Ok _ _ _ _ _ Ei). do 3 eexists. split; [reflexivity|].
      cbn [trace]. rewrite <- app_assoc, Hq. split; [reflexivity|].
      split.
      { apply held_live.
        eapply (live_free_other
                  (mkState ((heap s ++ [Some tok0]) ++ [Some tok']) (trace s)));
          [reflexivity | lia |].
        eapply (live_alloc_old (mkState (heap s ++ [Some tok0]) (trace s)) _
                  [Some tok']); [reflexivity | exact Hl0]. }
      split.
      { apply held_live.
        eapply (live_free_other
                  (mkState ((heap s ++ [Some tok0]) ++ [Some tok']) (trace s)));
          [reflexivity | rewrite length_app; cbn; lia |].
        apply (live_alloc_new _ (heap s ++ [Some tok0]) tok'). reflexivity. }
      split; [reflexivity|]. split; [reflexivity|].
      unfold live_count. cbn [heap owns m_tok ut_get].
      assert (((heap s ++ [Some tok0]) ++ [Some tok']) !! h = Some (Some tok)) as Hlk.
      { rewrite !lookup_app_l by (rewrite ?length_app; cbn; lia). exact Hl. }
      pose proof (count_live_free _ h tok Hlk) as Hc.
      rewrite !count_live_app in Hc. cbn [count_live] in Hc. lia.
    + rewrite (bind_Ok _ _ _ _ _ Ei). do 3 eexists. split; [reflexivity|].
      cbn [trace]. rewrite <- app_assoc, Hq. split; [reflexivity|].
      split.
      { apply held_live.
        eapply (live_free_other (mkState (heap s ++ [Some tok0]) (trace s)));
          [reflexivity | lia | exact Hl0]. }
      split; [reflexivity|]. split; [reflexivity|]. split; [reflexivity|].
      unfold live_count. cbn [heap owns m_tok ut_get].
      assert ((heap s ++ [Some tok0]) !! h = Some (Some tok)) as Hlk.
      { rewrite lookup_app_l by lia. exact Hl. }
      pose proof (count_live_free _ h tok Hlk) as Hc.
      rewrite !count_live_app in Hc. cbn [count_live] in Hc. lia.
  - rewrite (bind_Ok _ _ _ _ _ Ec).
    assert (live L (mkState (heap s)
                      (trace s ++ [EvGetToken t (token_start L t tok)])) h tok)
      as Hl1 by (eapply live_same_heap; [reflexivity | exact Hl]).
    pose proof (operator_inc_eq t h _ tok Ht Hl1) as Ei. cbn [heap trace] in Ei.
    destruct (lex_getToken L t (token_end L t tok)) as [tok'|].
    + rewrite (bind_Ok _ _ _ _ _ Ei). do 3 eexists. split; [reflexivity|].
      cbn [trace]. rewrite <- app_assoc, Hq. split; [reflexivity|].
      split; [reflexivity|].
      split.
      { apply held_live.
        eapply (live_free_other (mkState (heap s ++ [Some tok']) (trace s)));
          [reflexivity | lia |].
        now apply live_alloc_new. }
      split; [reflexivity|]. split; [reflexivity|].
      unfold live_count. cbn [heap owns m_tok ut_get].
      assert ((heap s ++ [Some tok']) !! h = Some (Some tok)) as Hlk.
      { rewrite lookup_app_l by lia. exact Hl. }
      pose proof (count_live_free _ h tok Hlk) as Hc.
      rewrite !count_live_app in Hc. cbn [count_live] in Hc. lia.
    + rewrite (bind_Ok _ _ _ _ _ Ei). do 3 eexists. split; [reflexivity|].
      cbn [trace]. rewrite <- app_assoc, Hq. split; [reflexivity|].
      split; [reflexivity|]. split; [reflexivity|].
      split; [reflexivity|]. split; [reflexivity|].
      unfold live_count. cbn [heap owns m_tok ut_get].
      pose proof (count_live_free _ h tok Hl) as Hc. lia.
Qed.

(** X14.  When [operator--(int)] returns, the value returned holds what the
    lexer yields at the start of the token the cursor held: the reverse
    step has not touched the copy's handle.  The cursor itself holds a
    token, and the number of live handles has grown by what the copy
    owns. *)
Theorem post_decrement_spec s it tok temp this' s' :
  held L s it = Some tok -> iterator_tu it <> nullptr ->
  operator_dec_post L it s = Ok ((temp, this'), s') ->
  let t := iterator_tu it in
  held L s' temp = lex_getToken L t (token_start L t tok) /\
  iterator_tu temp = t /\ iterator_tu this' = t /\
  is_end_sentinel this' = false /\
  live_count L s' = live_count L s + owns (m_tok temp).
Proof.
  intros Hh Ht. destruct (held_Some _ _ _ Hh) as (h & t & -> & Hl).
  cbv zeta. cbn [iterator_tu m_tok ut_deleter deleter_tu] in *.
  unfold operator_dec_post. intros H.
  apply bind_inv in H as (c & s1 & Hc & H).
  apply bind_inv in H as (d & s2 & Hd & [= <- <- <-]).
  pose proof Hd as Hacc.
  apply operator_dec_accounts in Hacc as (_ & Hb & Htu & Ha & _).
  cbn [iterator_tu m_tok ut_deleter deleter_tu] in Htu, Ha.
  rewrite (copy_construct_eq t h s tok Hl) in Hc.
  assert (live L s1 h tok /\
          deleter_tu (ut_deleter (m_tok c)) = t /\
          live_count L s1 = live_count L s + owns (m_tok c) /\
          match ut_get (m_tok c) with
          | Some hc => hc <> h /\
                       exists tokc, live L s1 hc tokc /\
                         lex_getToken L t (token_start L t tok) = Some tokc
          | None => lex_getToken L t (token_start L t tok) = None
          end) as (Hl1 & Hct & Hn1 & Hcase).
  { pose proof (live_lt _ _ _ Hl) as Hlt.
    destruct (lex_getToken L t (token_start L t tok)) as [tok0|];
      injection Hc as <- <-.
    - split; [eapply live_alloc_old; [reflexivity | exact Hl]|].
      split; [reflexivity|]. split.
      + unfold live_count. cbn [heap owns m_tok ut_get].
        rewrite count_live_app. cbn [count_live]. lia.
      + cbn [m_tok ut_get]. split; [lia|]. exists tok0.
        split; [now apply live_alloc_new | reflexivity].
    - split; [eapply live_same_heap; [reflexivity | exact Hl]|].
      split; [reflexivity|]. split.
      + unfold live_count. cbn [heap owns m_tok ut_get]. lia.
      + reflexivity. }
  destruct (operator_dec_inv t h tok s1 _ _ Ht Hl1 Hd)
    as (buf & p & Hf & Hpos & Hbuf & Hlen & Hp).
  pose proof (operator_dec_run t _ buf Ht h tok s1 _ p Hl1 eq_refl
                Hf Hpos Hbuf Hlen Hp) as Hrun.
  unfold returns in Hrun. rewrite Hd in Hrun.
  destruct Hrun as (_ & _ & _ & _ & _ & _ & _ & _ & pr & (Hfr & _) & _).
  split.
  { unfold held, token_of.
    destruct (ut_get (m_tok c)) as [hc|]; [|now rewrite Hcase].
    destruct Hcase as (Hne & tokc & Hlc & ->).
    assert (live L s2 hc tokc) as Hl2 by (apply Hfr; [congruence | exact Hlc]).
    unfold live in Hl2. now rewrite Hl2. }
  split; [exact Hct|]. split; [exact Htu|].
  split; [unfold is_end_sentinel; now rewrite Hb|]. lia.
Qed.

(** Move assignment of a cursor to itself changes nothing: no handle is
    disposed and the lexer is not asked. *)
Lemma move_assign_self_unchanged s it : move_assign_self L it s = Ok (it, s).
Proof. destruct it as [[g d]]. reflexivity. Qed.

(** X15.  Move assignment from another cursor that holds a token hands that
    very handle to the target without asking the lexer: the target then
    holds the token and the translation unit of the source, the source is
    left an end sentinel, and the handle the target held before is
    disposed. *)
Theorem move_assign_transfers s this other tok :
  releasable L s this -> held L s other = Some tok ->
  ut_get (m_tok this) <> ut_get (m_tok other) ->
  exists this' other' s',
    move_assign_from L this other s = Ok ((this', other'), s') /\
    m_tok this' = m_tok other /\
    held L s' this' = Some tok /\
    is_end_sentinel other' = true /\
    queries (trace s') = queries (trace s) /\
    live_count L s' + owns (m_tok this) = live_count L s.
Proof.
  intros Hr Hh Hne. destruct (held_Some _ _ _ Hh) as (h & t & -> & Hl).
  unfold move_assign_from, move_assign. cbn [m_tok] in *.
  destruct Hr as [Hs | [[tok1 Hh1] Ht1]].
  - apply is_end_sentinel_has_token in Hs. destruct this as [[[h1|] d1]];
      [discriminate|].
    cbn [m_tok]. rewrite (bind_Ok _ _ _ _ _
      (bind_Ok _ _ _ _ _ (unique_token_move_assign_null d1 _ s))).
    do 3 eexists. split; [reflexivity|]. cbn [m_tok ut_get ut_deleter].
    split; [reflexivity|]. split; [exact Hh|]. split; [reflexivity|].
    split; [reflexivity|]. cbn. lia.
  - destruct (held_Some _ _ _ Hh1) as (h1 & t1 & -> & Hl1).
    cbn [iterator_tu m_tok ut_get ut_deleter deleter_tu] in *.
    rewrite (bind_Ok _ _ _ _ _
      (bind_Ok _ _ _ _ _ (unique_token_move_assign_eq t1 h1 _ s tok1 Ht1 Hl1))).
    do 3 eexists. split; [reflexivity|]. cbn [m_tok ut_get ut_deleter].
    split; [reflexivity|]. split.
    { apply held_live.
      eapply (live_free_other s); [reflexivity | congruence | exact Hl]. }
    split; [reflexivity|]. split.
    { cbn [trace]. rewrite queries_app. cbn. apply app_nil_r. }
    unfold live_count, owns. cbn [heap ut_get].
    pose proof (count_live_free (heap s) h1 tok1 Hl1). lia.
Qed.

(** X16.  Dereferencing a freshly constructed cursor, with [operator*] or
    through the pointer of [operator->], yields the token the lexer has at
    the location given to the constructor; when the lexer has none there,
    the cursor is an end sentinel and both stop at [assert(m_tok)]. *)
Theorem construct_then_dereference t loc s :
  match lex_getToken L t loc with
  | Some tok =>
      exists s',
        (it <- construct L t loc ;; operator_star L it) s = Ok (tok, s') /\
        (it <- construct L t loc ;; p <- operator_arrow L it ;; @deref L p) s
        = Ok (tok, s') /\
        queries (trace s') = queries (trace s) ++ [loc]
  | None =>
      (it <- construct L t loc ;; operator_star L it) s
      = Halt assert_m_tok (trace s ++ [EvGetToken t loc]) /\
      (it <- construct L t loc ;; p <- operator_arrow L it ;; @deref L p) s
      = Halt assert_m_tok (trace s ++ [EvGetToken t loc])
  end.
Proof.
  pose proof (construct_eq t loc s) as E.
  destruct (lex_getToken L t loc) as [tok|].
  - eexists. rewrite !(bind_Ok _ _ _ _ _ E).
    unfold operator_star, operator_arrow, bind, assert, ret, deref.
    cbn [has_token m_tok ut_get heap trace].
    rewrite lookup_app_r by lia. rewrite Nat.sub_diag.
    split; [reflexivity|]. split; [reflexivity|].
    cbn [trace]. now rewrite queries_app.
  - rewrite !(bind_Ok _ _ _ _ _ E). split; reflexivity.
Qed.

(** X17.  On an end sentinel, [operator*], [operator->], [operator++],
    [operator++(int)] and [operator--(int)] all stop at [assert(m_tok)]. *)
Theorem sentinel_steps_assert s it :
  is_end_sentinel it = true ->
  operator_star L it s = Halt assert_m_tok (trace s) /\
  operator_arrow L it s = Halt assert_m_tok (trace s) /\
  operator_inc L it s = Halt assert_m_tok (trace s) /\
  operator_inc_post L it s = Halt assert_m_tok (trace s) /\
  operator_dec_post L it s = Halt assert_m_tok (trace s).
Proof.
  intros H. apply is_end_sentinel_has_token in H.
  destruct it as [[[h|] d]]; [discriminate|].
  repeat split; reflexivity.
Qed.


(** X18.  Move construction leaves one owner: the new cursor holds the token,
    the moved-from cursor is an end sentinel, and destroying both disposes
    the handle once. *)
Theorem move_construct_single_owner s other tok :
  held L s other = Some tok -> iterator_tu other <> nullptr ->
  held L s (fst (move_construct other)) = Some tok /\
  is_end_sentinel (snd (move_construct other)) = true /\
  exists s',
    (destroy L (snd (move_construct other)) ;;
     destroy L (fst (move_construct other))) s = Ok (tt, s') /\
    live_count L s' + 1 = live_count L s /\
    (exists h, ut_get (m_tok other) = Some h /\
               disposals (trace s') = disposals (trace s) ++ [(iterator_tu other, h)]) /\
    queries (trace s') = queries (trace s).
Proof.
  intros Hh Ht. destruct (held_Some _ _ _ Hh) as (h & t & -> & Hl).
  cbn [iterator_tu move_construct moved_from fst snd m_tok ut_get ut_deleter
       deleter_tu] in *.
  split; [exact Hh|]. split; [reflexivity|].
  unfold destroy, unique_token_destroy. cbn [m_tok ut_get ut_deleter].
  eexists. split.
  { change (token_deleter_call L (mkDeleter t) None) with (@ret L unit tt).
    unfold bind at 1, ret.
    apply (token_deleter_call_eq t h s tok Ht Hl). }
  cbn [heap trace]. split.
  { unfold live_count. cbn [heap].
    pose proof (count_live_free (heap s) h tok Hl). lia. }
  split; [exists h; split; [reflexivity | now rewrite disposals_app]|].
  rewrite queries_app. cbn. apply app_nil_r.
Qed.

End Proofs.

(** * The scenarios, on the example lexer *)

(** ** The example lexer keeps the oracle contract *)

Section ExampleLexer.

Variables (src : string) (toks : list (nat * nat)).

Let LX := example_lexer src toks.

(** The table entry the example lexer answers with at offset [q]. *)
Lemma example_token_at q :
  token_at LX example_tu example_file q =
  List.find (fun se => Nat.ltb q (snd se)) toks.
Proof.
  unfold token_at. cbn. unfold example_getToken. cbn.
  destruct (List.find _ toks); reflexivity.
Qed.

Lemma example_end_offset_at q :
  end_offset_at LX example_tu example_file q =
  match List.find (fun se => Nat.ltb q (snd se)) toks with
  | Some se => Some (snd se)
  | None => None
  end.
Proof.
  unfold end_offset_at. rewrite example_token_at.
  destruct (List.find _ toks); reflexivity.
Qed.

End ExampleLexer.

Section TokenTable.

Variable file_buffer : list ascii.

Lemma table_ok_cons lo se rest :
  table_ok file_buffer lo (se :: rest) = true ->
  lo <= fst se /\ fst se < snd se /\ snd se <= length file_buffer /\
  space_at file_buffer (fst se) = false /\
  table_ok file_buffer (snd se) rest = true.
Proof.
  cbn [table_ok]. rewrite !andb_true_iff, negb_true_iff.
  rewrite !Nat.leb_le, Nat.ltb_lt. tauto.
Qed.

(** What the table yields at offset [q]. *)
Lemma find_table lo toks q se :
  table_ok file_buffer lo toks = true ->
  List.find (fun se => Nat.ltb q (snd se)) toks = Some se ->
  lo <= fst se /\ fst se < snd se /\ q < snd se /\
  snd se <= length file_buffer /\ space_at file_buffer (fst se) = false.
Proof.
  revert lo. induction toks as [|se0 rest IH]; intros lo Hok; [discriminate|].
  apply table_ok_cons in Hok as (H1 & H2 & H3 & H4 & Hrest). cbn [List.find].
  destruct (Nat.ltb_spec q (snd se0)).
  - intros [= <-]. auto.
  - intros Hf. destruct (IH _ Hrest Hf) as (? & ? & ? & ? & ?).
    repeat split; try assumption. lia.
Qed.

Lemma find_table_stable lo toks q q' se :
  table_ok file_buffer lo toks = true ->
  List.find (fun se => Nat.ltb q (snd se)) toks = Some se ->
  q <= q' < snd se ->
  List.find (fun se => Nat.ltb q' (snd se)) toks = Some se.
Proof.
  revert lo. induction toks as [|se0 rest IH]; intros lo Hok; [discriminate|].
  apply table_ok_cons in Hok as (H1 & H2 & H3 & H4 & Hrest). cbn [List.find].
  destruct (Nat.ltb_spec q (snd se0)).
  - intros [= <-] Hq. destruct (Nat.ltb_spec q' (snd se0)); [reflexivity | lia].
  - intros Hf Hq. destruct (Nat.ltb_spec q' (snd se0)); [lia|]. eauto.
Qed.

Lemma find_table_mono lo toks q q' se se' :
  table_ok file_buffer lo toks = true -> q <= q' ->
  List.find (fun se => Nat.ltb q (snd se)) toks = Some se ->
  List.find (fun se => Nat.ltb q' (snd se)) toks = Some se' ->
  snd se <= snd se'.
Proof.
  revert lo. induction toks as [|se0 rest IH]; intros lo Hok Hq; [discriminate|].
  apply table_ok_cons in Hok as (H1 & H2 & H3 & H4 & Hrest). cbn [List.find].
  destruct (Nat.ltb_spec q (snd se0)); destruct (Nat.ltb_spec q' (snd se0));
    try lia.
  - intros [= <-] [= <-]. lia.
  - intros [= <-] Hf. pose proof (find_table _ _ _ _ Hrest Hf). lia.
  - intros Hf Hf'. eauto.
Qed.

Lemma find_table_down lo toks q q' :
  table_ok file_buffer lo toks = true -> q <= q' ->
  List.find (fun se => Nat.ltb q' (snd se)) toks <> None ->
  List.find (fun se => Nat.ltb q (snd se)) toks <> None.
Proof.
  revert lo. induction toks as [|se0 rest IH]; intros lo Hok Hq; [trivial|].
  apply table_ok_cons in Hok as (H1 & H2 & H3 & H4 & Hrest). cbn [List.find].
  destruct (Nat.ltb_spec q (snd se0)); [discriminate|].
  destruct (Nat.ltb_spec q' (snd se0)); [lia|]. eauto.
Qed.

(** At its first byte, a token of the table is what the table yields. *)
Lemma find_table_first lo toks q se :
  table_ok file_buffer lo toks = true ->
  List.find (fun se => Nat.ltb q (snd se)) toks = Some se ->
  List.find (fun se' => Nat.ltb (fst se) (snd se')) toks = Some se.
Proof.
  revert lo. induction toks as [|se0 rest IH]; intros lo Hok; [discriminate|].
  apply table_ok_cons in Hok as (H1 & H2 & H3 & H4 & Hrest). cbn [List.find].
  destruct (Nat.ltb_spec q (snd se0)).
  - intros [= <-]. destruct (Nat.ltb_spec (fst se0) (snd se0)); [reflexivity | lia].
  - intros Hf. pose proof (find_table _ _ _ _ Hrest Hf).
    destruct (Nat.ltb_spec (fst se) (snd se0)); [lia|]. eauto.
Qed.

End TokenTable.

(** The example lexer of a well-formed token table keeps the oracle
    contract. *)
Lemma example_lexer_contract src toks :
  table_ok (list_ascii_of_string src) 0 toks = true ->
  oracle_contract (example_lexer src toks) example_tu example_file
    (list_ascii_of_string src).
Proof.
  intros Hok. constructor.
  - reflexivity.
  - intros q tok _. split; reflexivity.
  - intros q e. rewrite example_end_offset_at.
    destruct (List.find _ toks) as [se|] eqn:Hf; [|discriminate].
    intros [= <-]. pose proof (find_table _ _ _ _ _ Hok Hf). lia.
  - intros q tok. rewrite example_token_at.
    destruct (List.find _ toks) as [se|] eqn:Hf; [|discriminate].
    intros [= <-].
    change (end_offset_at (example_lexer src toks) example_tu example_file
              (fst se) = Some (snd se)).
    rewrite example_end_offset_at.
    now rewrite (find_table_first _ _ _ _ _ Hok Hf).
  - intros q q' e e' Hq. rewrite !example_end_offset_at.
    destruct (List.find _ toks) as [se|] eqn:Hf; [|discriminate].
    destruct (List.find (fun se0 => Nat.ltb q' (snd se0)) toks) as [se'|] eqn:Hf';
      [|discriminate].
    intros [= <-] [= <-]. eapply find_table_mono; eauto.
  - intros q q' e. rewrite !example_end_offset_at.
    destruct (List.find _ toks) as [se|] eqn:Hf; [|discriminate].
    intros [= <-] Hq. now rewrite (find_table_stable _ _ _ q q' se Hok Hf Hq).
  - intros q q' Hq. rewrite !example_end_offset_at.
    pose proof (find_table_down _ _ _ q q' Hok Hq) as Hd.
    destruct (List.find (fun se0 => Nat.ltb q' (snd se0)) toks);
      [|intros Hn; now destruct Hn].
    intros _. destruct (List.find _ toks); [discriminate | now destruct Hd].
  - intros q e. rewrite example_end_offset_at.
    destruct (List.find _ toks) as [se|] eqn:Hf; [|discriminate].
    intros [= <-]. pose proof (find_table _ _ _ _ _ Hok Hf) as (? & ? & ? & ? & ?).
    exists (fst se). split; [lia|]. split; [assumption|].
    rewrite example_end_offset_at.
    now rewrite (find_table_first _ _ _ _ _ Hok Hf).
Qed.


Lemma lexer_S2_contract :
  oracle_contract lexer_S2 example_tu example_file (list_ascii_of_string "a  +  b").
Proof. apply example_lexer_contract. reflexivity. Qed.

Lemma lexer_comment_contract :
  oracle_contract lexer_comment example_tu example_file
    (list_ascii_of_string "/* c */y").
Proof. apply example_lexer_contract. reflexivity. Qed.

(** C9.  Source [a··+··b]: a cursor constructed at [b] holds [+] after one
    reverse step and [a] after a second one.  Each of the two steps asks the
    lexer once, at the byte of [+] and at the byte of [a]: no more than two
    queries, and none at a space. *)
Theorem scenario_S2 :
  exists b s0 plus s1 a s2,
    construct lexer_S2 example_tu (mkLoc example_file 6) (init_state lexer_S2)
      = Ok (b, s0) /\
    held lexer_S2 s0 b = Some (6, 7) /\
    operator_dec lexer_S2 b s0 = Ok (plus, s1) /\
    held lexer_S2 s1 plus = Some (3, 4) /\
    queries (trace s1) = queries (trace s0) ++ [mkLoc example_file 3] /\
    operator_dec lexer_S2 plus s1 = Ok (a, s2) /\
    held lexer_S2 s2 a = Some (0, 1) /\
    queries (trace s2) = queries (trace s1) ++ [mkLoc example_file 0] /\
    length (queries (trace s1)) <= length (queries (trace s0)) + 2 /\
    length (queries (trace s2)) <= length (queries (trace s1)) + 2.
Proof.
  do 6 eexists.
  split; [vm_compute; reflexivity|]. split; [reflexivity|].
  split; [vm_compute; reflexivity|]. split; [reflexivity|].
  split; [reflexivity|].
  split; [vm_compute; reflexivity|]. split; [reflexivity|].
  split; [reflexivity|]. split; cbn; lia.
Qed.

(** Source [/* c */y], comments reported as tokens, cursor at [y].  Step 1
    stops at offset 6, inside the comment, which contains spaces; step 2
    searches the bytes that follow the last space, and the cursor holds the
    comment, the token the lexer yields from offset 0 on. *)
Example reverse_step_onto_comment :
  step1_offset lexer_comment example_tu example_file
    (list_ascii_of_string "/* c */y") (mkLoc example_file 8) 7 = Some 6 /\
  step2_span (list_ascii_of_string "/* c */y") 6 = mkSpan 5 1 /\
  token_after (c <- construct lexer_comment example_tu (mkLoc example_file 7) ;;
               operator_dec lexer_comment c) = Ok (Some (0, 7)) /\
  smallest_match lexer_comment example_tu example_file
    (mkLoc example_file 7) 0 6 (0, 7).
Proof.
  split; [vm_compute; reflexivity|]. split; [reflexivity|].
  split; [vm_compute; reflexivity|].
  exists 0. split; [lia|]. split; [reflexivity|].
  split; [intros q' Hq'; lia | reflexivity].
Qed.

(** ** The other scenarios *)

(** S1, source [int·x;]: from [;], two reverse steps reach [int], and two
    forward steps from there reach [;] again. *)
Example scenario_S1 :
  token_after (c <- construct lexer_S1 example_tu (mkLoc example_file 5) ;;
               dec_times lexer_S1 2 c) = Ok (Some (0, 3)) /\
  token_after (c <- construct lexer_S1 example_tu (mkLoc example_file 5) ;;
               c' <- dec_times lexer_S1 2 c ;; inc_times lexer_S1 2 c')
  = Ok (Some (5, 6)).
Proof. split; vm_compute; reflexivity. Qed.

(** S3, source [foo(bar)]: from [)], the reverse steps reach [bar], [(] and
    [foo]; the fourth runs into [assert(offset > 0)]. *)
Example scenario_S3 :
  token_after (c <- construct lexer_S3 example_tu (mkLoc example_file 7) ;;
               dec_times lexer_S3 1 c) = Ok (Some (4, 7)) /\
  token_after (c <- construct lexer_S3 example_tu (mkLoc example_file 7) ;;
               dec_times lexer_S3 2 c) = Ok (Some (3, 4)) /\
  token_after (c <- construct lexer_S3 example_tu (mkLoc example_file 7) ;;
               dec_times lexer_S3 3 c) = Ok (Some (0, 3)) /\
  exists tr,
    token_after (c <- construct lexer_S3 example_tu (mkLoc example_file 7) ;;
                 dec_times lexer_S3 4 c) = Halt assert_offset_gt_0 tr.
Proof.
  split; [vm_compute; reflexivity|]. split; [vm_compute; reflexivity|].
  split; [vm_compute; reflexivity|]. eexists. vm_compute. reflexivity.
Qed.

(** S4, source [x/*c*/y]: from [y], one reverse step reaches the comment and
    a second one reaches [x]. *)
Example scenario_S4 :
  token_after (c <- construct lexer_S4 example_tu (mkLoc example_file 6) ;;
               dec_times lexer_S4 1 c) = Ok (Some (1, 6)) /\
  token_after (c <- construct lexer_S4 example_tu (mkLoc example_file 6) ;;
               dec_times lexer_S4 2 c) = Ok (Some (0, 1)).
Proof. split; vm_compute; reflexivity. Qed.

(** S5, source [z]: the forward step reaches the end sentinel, the reverse
    step runs into [assert(offset > 0)]. *)
Example scenario_S5 :
  token_after (c <- construct lexer_S5 example_tu (mkLoc example_file 0) ;;
               operator_inc lexer_S5 c) = Ok None /\
  exists tr,
    token_after (c <- construct lexer_S5 example_tu (mkLoc example_file 0) ;;
                 operator_dec lexer_S5 c) = Halt assert_offset_gt_0 tr.
Proof. split; [vm_compute; reflexivity|]. eexists. vm_compute. reflexivity. Qed.

(** * The theorems at concrete inputs *)

(** The round trip on scenario S2, for the token [b]. *)
Lemma round_trip_witness :
  exists it s1 orig s2 it1 s3 it2 s4,
    construct lexer_S2 example_tu (mkLoc example_file 6) (init_state lexer_S2)
      = Ok (it, s1) /\
    copy_construct lexer_S2 it s1 = Ok (orig, s2) /\
    operator_dec lexer_S2 it s2 = Ok (it1, s3) /\
    operator_inc lexer_S2 it1 s3 = Ok (it2, s4) /\
    operator_eq lexer_S2 it2 orig s4 = Ok (true, s4).
Proof.
  apply (round_trip lexer_S2 example_tu example_file
           (list_ascii_of_string "a  +  b") 6 (6, 7) (init_state lexer_S2)
           lexer_S2_contract);
    [not_null | not_null | reflexivity | vm_compute; not_null].
Defined.


(** Step 1 on scenario S2, from the start of [b]. *)
Lemma step1_spec_witness :
  exists r s' h,
    step1 lexer_S2 example_tu example_file (list_ascii_of_string "a  +  b")
      (mkLoc example_file 7) 6 (mkUnique None (mkDeleter example_tu))
      (init_state lexer_S2) = Ok (r, s') /\
    s1_offset r = 3 /\
    s1_candidate r = mkUnique (Some h) (mkDeleter example_tu) /\
    live lexer_S2 s' h (3, 4) /\
    s1_end r = mkLoc example_file 4 /\
    queries (trace s') = [mkLoc example_file 3].
Proof.
  apply (step1_spec lexer_S2 example_tu example_file
           (list_ascii_of_string "a  +  b") (mkLoc example_file 7) 6
           (init_state lexer_S2) 3 "+"%char (3, 4));
    [not_null | cbn; lia | lia | reflexivity | reflexivity | reflexivity
    | reflexivity |].
  intros q Hq. left.
  assert (q = 4 \/ q = 5) as [-> | ->] by lia; reflexivity.
Defined.

(** Equality of two cursors at [b]. *)
Lemma operator_eq_spec_witness :
  operator_eq lexer_S2 first_cursor second_cursor state_S2_b_twice =
  Ok (true, state_S2_b_twice).
Proof.
  destruct (operator_eq_spec lexer_S2 state_S2_b_twice first_cursor second_cursor)
    as (r & H & Hlive & _);
    [right; exists (6, 7); reflexivity | right; exists (6, 7); reflexivity |].
  rewrite H. do 2 f_equal.
  apply (Hlive (6, 7) (6, 7)); [reflexivity | reflexivity |].
  split; reflexivity.
Defined.

(** The forward step on scenario S2, from [a]. *)
Lemma operator_inc_spec_witness :
  exists it' s',
    operator_inc lexer_S2 first_cursor state_S2_a = Ok (it', s') /\
    queries (trace s') = queries (trace state_S2_a) ++ [mkLoc example_file 1] /\
    held lexer_S2 s' it' = Some (3, 4).
Proof.
  destruct (operator_inc_spec lexer_S2 state_S2_a first_cursor (0, 1))
    as (it' & s' & H1 & H2 & H3 & _); [reflexivity | not_null |].
  exists it', s'. split; [exact H1|]. split; [exact H2 | exact H3].
Defined.

(** The reverse step from the end sentinel and from the cursor at [a]
    (offset 0) of scenario S2, and from the cursor at [b] of the source
    [#b], where it asks the lexer at [#] and then stops at the assertion
    inside the loop. *)
Lemma operator_dec_preconditions_witness :
  operator_dec lexer_S2 end_sentinel (init_state lexer_S2)
  = Halt assert_m_tok (trace (init_state lexer_S2)) /\
  (operator_dec lexer_S2 first_cursor state_S2_a
   = Halt assert_file (trace state_S2_a) \/
   operator_dec lexer_S2 first_cursor state_S2_a
   = Halt assert_offset_gt_0 (trace state_S2_a)) /\
  (exists tr,
     operator_dec lexer_hash first_cursor state_hash_b = Halt assert_offset_gt_0 tr /\
     queries tr = queries (trace state_hash_b) ++ [mkLoc example_file 0]) /\
  exists evs,
    trace_of lexer_hash (operator_dec lexer_hash first_cursor state_hash_b)
    = trace state_hash_b ++ evs /\
    Forall (fun l => loc_file l = example_file /\ loc_offset l < 1) (queries evs).
Proof.
  split; [|split; [|split]].
  - apply (proj1 (operator_dec_preconditions lexer_S2 (init_state lexer_S2)
                    end_sentinel)). reflexivity.
  - apply (proj1 (proj2 (operator_dec_preconditions lexer_S2 state_S2_a
                           first_cursor)) (0, 1)); reflexivity.
  - eexists. split; vm_compute; reflexivity.
  - apply (proj2 (proj2 (proj2 (operator_dec_preconditions lexer_hash state_hash_b
                                  first_cursor)) (1, 2) eq_refl ltac:(not_null))).
Defined.

(** Copying the cursor at [b] of scenario S2. *)
Lemma copy_spec_witness :
  exists c s1,
    copy_construct lexer_S2 first_cursor state_S2_b = Ok (c, s1) /\
    copy_of lexer_S2 state_S2_b s1 c first_cursor (6, 7) /\
    operator_eq lexer_S2 c first_cursor s1 = Ok (true, s1).
Proof.
  destruct (proj1 (copy_spec lexer_S2 state_S2_b end_sentinel first_cursor
                     ltac:(left; reflexivity)) (6, 7))
    as (c & s1 & c' & s2 & H1 & H2 & _ & _ & H3);
    [reflexivity | discriminate |].
  exists c, s1. split; [exact H1|]. split; [exact H2|].
  apply H3. exists (6, 7). split; reflexivity.
Defined.

(** The translation unit across the reverse step from [b] of scenario S2. *)
Lemma translation_unit_invariant_witness :
  exists it' s',
    operator_dec lexer_S2 first_cursor state_S2_b = Ok (it', s') /\
    iterator_tu it' = example_tu.
Proof.
  destruct (operator_dec lexer_S2 first_cursor state_S2_b) as [[it' s']|e] eqn:E;
    [|vm_compute in E; discriminate E].
  exists it', s'. split; [reflexivity|].
  apply (translation_unit_invariant lexer_S2 state_S2_b first_cursor (6, 7) it' s');
    [reflexivity | not_null | right; exact E].
Defined.

(** The cursor at [b] of scenario S2, assigned to itself. *)
Lemma self_assign_spec_witness :
  exists it' s' tok',
    copy_assign lexer_S2 first_cursor first_cursor state_S2_b = Ok (it', s') /\
    held lexer_S2 s' it' = Some tok' /\
    clang_equalLocations (token_end lexer_S2 example_tu tok')
                         (mkLoc example_file 7) = true.
Proof.
  destruct (proj1 (self_assign_spec lexer_S2 state_S2_b first_cursor) (6, 7))
    as (it' & s' & tok' & h & H1 & _ & _ & H2 & _ & Htu & H3 & _);
    [reflexivity | not_null | exists (6, 7); split; reflexivity |].
  exists it', s', tok'. split; [exact H1|]. split; [exact H2|].
  rewrite Htu in H3. exact H3.
Defined.


(** Constructing a cursor at [b] of scenario S2 adds the one handle it owns. *)
Lemma handles_accounted_witness :
  exists it s',
    construct lexer_S2 example_tu (mkLoc example_file 6) (init_state lexer_S2)
    = Ok (it, s') /\
    live_count lexer_S2 s' = live_count lexer_S2 (init_state lexer_S2) + owns (m_tok it).
Proof.
  destruct (construct lexer_S2 example_tu (mkLoc example_file 6)
              (init_state lexer_S2)) as [[it s']|e] eqn:E;
    [|vm_compute in E; discriminate E].
  exists it, s'. split; [reflexivity|].
  apply (proj1 (handles_accounted lexer_S2 (init_state lexer_S2) s')
           example_tu (mkLoc example_file 6) it E).
Defined.

(** A cursor of scenario S2 constructed at [b], stepped back twice, forward
    three times and destroyed. *)
Lemma lifecycle_leaves_no_handle_witness :
  exists s',
    (c <- construct lexer_S2 example_tu (mkLoc example_file 6) ;;
     c1 <- dec_times lexer_S2 2 c ;;
     c2 <- inc_times lexer_S2 3 c1 ;;
     destroy lexer_S2 c2) (init_state lexer_S2) = Ok (tt, s') /\
    live_count lexer_S2 s' = 0.
Proof.
  destruct ((c <- construct lexer_S2 example_tu (mkLoc example_file 6) ;;
             c1 <- dec_times lexer_S2 2 c ;;
             c2 <- inc_times lexer_S2 3 c1 ;;
             destroy lexer_S2 c2) (init_state lexer_S2)) as [[[] s']|e] eqn:E;
    [|vm_compute in E; discriminate E].
  exists s'. split; [reflexivity|].
  apply (lifecycle_leaves_no_handle lexer_S2 example_tu (mkLoc example_file 6)
           2 3 (init_state lexer_S2) tt s' E).
Defined.

(** The reverse step from [a] of scenario S2, whose start offset is 0. *)
Lemma operator_dec_halts_only_at_assertions_witness :
  exists e,
    operator_dec lexer_S2 first_cursor state_S2_a = Halt e (trace state_S2_a) /\
    ((e = assert_file /\ example_file = nullptr) \/
     (e = assert_offset_gt_0 /\ example_file <> nullptr /\ 0 = 0) \/
     (e = assert_file_buffer /\ example_file <> nullptr /\ 0 < 0 /\
      lex_getFileContents lexer_S2 example_tu example_file = None) \/
     (e = assert_offset_lt_file_size /\ example_file <> nullptr /\ 0 < 0 /\
      exists file_buffer,
        lex_getFileContents lexer_S2 example_tu example_file = Some file_buffer /\
        length file_buffer <= 0) \/
     (e = assert_offset_gt_0 /\ example_file <> nullptr /\ 0 < 0 /\
      exists file_buffer,
        lex_getFileContents lexer_S2 example_tu example_file = Some file_buffer /\
        0 < length file_buffer /\
        forall q, q < 0 ->
          is_stop lexer_S2 example_tu example_file file_buffer
            (token_end lexer_S2 example_tu (0, 1)) q = false)).
Proof.
  exists assert_offset_gt_0. split; [reflexivity|].
  apply (operator_dec_halts_only_at_assertions lexer_S2 state_S2_a first_cursor
           (0, 1) assert_offset_gt_0 (trace state_S2_a));
    [reflexivity | not_null | reflexivity].
Defined.

(** Equality among two cursors at [b] of scenario S2 and an end sentinel. *)
Lemma operator_eq_equivalence_witness :
  operator_eq lexer_S2 first_cursor first_cursor state_S2_b_twice
  = Ok (true, state_S2_b_twice) /\
  operator_eq lexer_S2 first_cursor second_cursor state_S2_b_twice
  = operator_eq lexer_S2 second_cursor first_cursor state_S2_b_twice.
Proof.
  destruct (operator_eq_equivalence lexer_S2 state_S2_b_twice
              first_cursor second_cursor end_sentinel)
    as (H1 & H2 & _);
    [right; exists (6, 7); reflexivity | right; exists (6, 7); reflexivity
    | left; reflexivity |].
  split; [exact H1 | exact H2].
Defined.

(** Two steps back from [b] of scenario S2 and two steps forward again. *)
Lemma back_then_forward_witness :
  exists it' s' it'' s'',
    dec_times lexer_S2 2 first_cursor state_S2_b = Ok (it', s') /\
    inc_times lexer_S2 2 it' s' = Ok (it'', s'') /\
    stands_at lexer_S2 example_tu example_file s'' it'' 7.
Proof.
  destruct (dec_times lexer_S2 2 first_cursor state_S2_b) as [[it' s']|e] eqn:E;
    [|vm_compute in E; discriminate E].
  destruct (back_then_forward lexer_S2 example_tu example_file
              (list_ascii_of_string "a  +  b") lexer_S2_contract
              ltac:(not_null) ltac:(not_null) 2 state_S2_b first_cursor 7 it' s')
    as (it'' & s'' & H1 & H2); [|exact E|].
  - exists 0, (6, 7). split; [reflexivity|]. split; [reflexivity|].
    split; [exists 6; reflexivity | reflexivity].
  - exists it', s', it'', s''. split; [reflexivity|]. split; [exact H1 | exact H2].
Defined.

(** Two steps forward from [a] of scenario S2 and two steps back again. *)
Lemma forward_then_back_witness :
  exists it' s' it'' s'',
    inc_times lexer_S2 2 first_cursor state_S2_a = Ok (it', s') /\
    dec_times lexer_S2 2 it' s' = Ok (it'', s'') /\
    stands_at lexer_S2 example_tu example_file s'' it'' 1.
Proof.
  destruct (inc_times lexer_S2 2 first_cursor state_S2_a) as [[it' s']|e] eqn:E;
    [|vm_compute in E; discriminate E].
  destruct (forward_then_back lexer_S2 example_tu example_file
              (list_ascii_of_string "a  +  b") lexer_S2_contract
              ltac:(not_null) ltac:(not_null) 2 state_S2_a first_cursor 1 it' s')
    as (it'' & s'' & H1 & H2); [|exact E| |].
  - exists 0, (0, 1). split; [reflexivity|]. split; [reflexivity|].
    split; [exists 0; reflexivity | reflexivity].
  - vm_compute in E. injection E as <- _. reflexivity.
  - exists it', s', it'', s''. split; [reflexivity|]. split; [exact H1 | exact H2].
Defined.

(** The reverse step from [b] of scenario S2 lands on a token that ends
    before offset 7. *)
Lemma steps_move_strictly_witness :
  exists it' s' e',
    operator_dec lexer_S2 first_cursor state_S2_b = Ok (it', s') /\
    stands_at lexer_S2 example_tu example_file s' it' e' /\ e' < 7.
Proof.
  destruct (operator_dec lexer_S2 first_cursor state_S2_b) as [[it' s']|e] eqn:E;
    [|vm_compute in E; discriminate E].
  destruct (proj2 (steps_move_strictly lexer_S2 example_tu example_file
                     (list_ascii_of_string "a  +  b") lexer_S2_contract
                     ltac:(not_null) ltac:(not_null)
                     state_S2_b first_cursor 7 it' s'
                     ltac:(exists 0, (6, 7); split; [reflexivity|];
                           split; [reflexivity|];
                           split; [exists 6; reflexivity | reflexivity]))
              E) as (e' & H1 & H2).
  exists it', s', e'. split; [reflexivity|]. split; [exact H1 | exact H2].
Defined.

(** The reverse step from [a], the first token of scenario S2. *)
Lemma operator_dec_at_first_token_witness :
  exists evs,
    operator_dec lexer_S2 first_cursor state_S2_a
    = Halt assert_offset_gt_0 (trace state_S2_a ++ evs).
Proof.
  apply (operator_dec_at_first_token lexer_S2 example_tu example_file
           (list_ascii_of_string "a  +  b") lexer_S2_contract
           ltac:(not_null) ltac:(not_null) state_S2_a first_cursor 1).
  - exists 0, (0, 1). split; [reflexivity|]. split; [reflexivity|].
    split; [exists 0; reflexivity | reflexivity].
  - reflexivity.
Defined.

(** The queries of the reverse step from [b] of scenario S2. *)
Lemma operator_dec_asks_off_whitespace_witness :
  exists it' s' file_buffer asked,
    operator_dec lexer_S2 first_cursor state_S2_b = Ok (it', s') /\
    lex_getFileContents lexer_S2 example_tu example_file = Some file_buffer /\
    queries (trace s') = queries (trace state_S2_b) ++ asked /\
    asked <> [] /\
    Forall (fun l => loc_file l = example_file /\ loc_offset l < 6 /\
                     space_at file_buffer (loc_offset l) = false) asked.
Proof.
  destruct (operator_dec lexer_S2 first_cursor state_S2_b) as [[it' s']|e] eqn:E;
    [|vm_compute in E; discriminate E].
  destruct (operator_dec_asks_off_whitespace lexer_S2 state_S2_b first_cursor
              (6, 7) it' s')
    as (buf & asked & H1 & H2 & H3 & H4); [reflexivity | not_null | exact E |].
  exists it', s', buf, asked. split; [reflexivity|].
  split; [exact H1|]. split; [exact H2|]. split; [exact H3 | exact H4].
Defined.

(** The number of queries of the reverse step from [b] of scenario S2. *)
Lemma operator_dec_query_bound_witness :
  exists it' s' file_buffer p,
    operator_dec lexer_S2 first_cursor state_S2_b = Ok (it', s') /\
    lex_getFileContents lexer_S2 example_tu example_file = Some file_buffer /\
    length (queries (trace s')) <=
    length (queries (trace state_S2_b)) + (6 - p)
    + Nat.log2 (sp_size (step2_span file_buffer p)) + 2.
Proof.
  destruct (operator_dec lexer_S2 first_cursor state_S2_b) as [[it' s']|e] eqn:E;
    [|vm_compute in E; discriminate E].
  destruct (operator_dec_query_bound lexer_S2 state_S2_b first_cursor
              (6, 7) it' s')
    as (buf & p & H1 & _ & H3); [reflexivity | not_null | exact E |].
  exists it', s', buf, p. split; [reflexivity|]. split; [exact H1 | exact H3].
Defined.

(** The forward step from [b], the last token of scenario S2. *)
Lemma forward_step_past_last_token_witness :
  exists it' s',
    operator_inc lexer_S2 first_cursor state_S2_b = Ok (it', s') /\
    iterator_tu it' = example_tu /\
    operator_eq lexer_S2 it' end_sentinel s' = Ok (true, s') /\
    live_count lexer_S2 s' + 1 = live_count lexer_S2 state_S2_b /\
    operator_inc lexer_S2 it' s' = Halt assert_m_tok (trace s').
Proof.
  destruct (forward_step_past_last_token lexer_S2 state_S2_b first_cursor (6, 7))
    as (it' & s' & H1 & H2 & _ & H3 & _ & _ & H4 & H5 & _);
    [reflexivity | not_null | reflexivity |].
  exists it', s'. split; [exact H1|]. split; [exact H2|]. split; [exact H3|].
  split; [exact H4 | exact H5].
Defined.

(** Post-increment from [a] of scenario S2. *)
Lemma post_increment_spec_witness :
  exists temp this' s',
    operator_inc_post lexer_S2 first_cursor state_S2_a = Ok ((temp, this'), s') /\
    queries (trace s') =
    queries (trace state_S2_a) ++ [mkLoc example_file 0; mkLoc example_file 1] /\
    held lexer_S2 s' temp = Some (0, 1) /\
    held lexer_S2 s' this' = Some (3, 4).
Proof.
  destruct (post_increment_spec lexer_S2 state_S2_a first_cursor (0, 1))
    as (temp & this' & s' & H1 & H2 & H3 & H4 & _); [reflexivity | not_null |].
  exists temp, this', s'. split; [exact H1|]. split; [exact H2|].
  split; [exact H3 | exact H4].
Defined.

(** Post-decrement from [b] of scenario S2. *)
Lemma post_decrement_spec_witness :
  exists temp this' s',
    operator_dec_post lexer_S2 first_cursor state_S2_b = Ok ((temp, this'), s') /\
    held lexer_S2 s' temp = Some (6, 7) /\
    is_end_sentinel this' = false /\
    live_count lexer_S2 s' = live_count lexer_S2 state_S2_b + owns (m_tok temp).
Proof.
  destruct (operator_dec_post lexer_S2 first_cursor state_S2_b)
    as [[[temp this'] s']|e] eqn:E; [|vm_compute in E; discriminate E].
  destruct (post_decrement_spec lexer_S2 state_S2_b first_cursor (6, 7)
              temp this' s')
    as (H1 & _ & _ & H2 & H3); [reflexivity | not_null | exact E |].
  exists temp, this', s'. split; [reflexivity|]. split; [exact H1|].
  split; [exact H2 | exact H3].
Defined.

(** Move assignment between the two cursors at [b] of scenario S2. *)
Lemma move_assign_transfers_witness :
  exists this' other' s',
    move_assign_from lexer_S2 first_cursor second_cursor state_S2_b_twice
    = Ok ((this', other'), s') /\
    m_tok this' = m_tok second_cursor /\
    held lexer_S2 s' this' = Some (6, 7) /\
    is_end_sentinel other' = true /\
    queries (trace s') = queries (trace state_S2_b_twice) /\
    live_count lexer_S2 s' + 1 = live_count lexer_S2 state_S2_b_twice.
Proof.
  apply (move_assign_transfers lexer_S2 state_S2_b_twice first_cursor
           second_cursor (6, 7)).
  - right. split; [exists (6, 7); reflexivity | not_null].
  - reflexivity.
  - not_null.
Defined.

(** The end sentinel of scenario S2. *)
Lemma sentinel_steps_assert_witness :
  operator_star lexer_S2 end_sentinel (init_state lexer_S2) = Halt assert_m_tok [] /\
  operator_arrow lexer_S2 end_sentinel (init_state lexer_S2) = Halt assert_m_tok [] /\
  operator_inc lexer_S2 end_sentinel (init_state lexer_S2) = Halt assert_m_tok [] /\
  operator_inc_post lexer_S2 end_sentinel (init_state lexer_S2)
  = Halt assert_m_tok [] /\
  operator_dec_post lexer_S2 end_sentinel (init_state lexer_S2)
  = Halt assert_m_tok [].
Proof.
  apply (sentinel_steps_assert lexer_S2 (init_state lexer_S2) end_sentinel).
  reflexivity.
Defined.

(** Move construction from the cursor at [b] of scenario S2. *)
Lemma move_construct_single_owner_witness :
  held lexer_S2 state_S2_b (fst (move_construct first_cursor)) = Some (6, 7) /\
  is_end_sentinel (snd (move_construct first_cursor)) = true /\
  exists s',
    (destroy lexer_S2 (snd (move_construct first_cursor)) ;;
     destroy lexer_S2 (fst (move_construct first_cursor))) state_S2_b
    = Ok (tt, s') /\
    live_count lexer_S2 s' + 1 = live_count lexer_S2 state_S2_b.
Proof.
  destruct (move_construct_single_owner lexer_S2 state_S2_b first_cursor (6, 7))
    as (H1 & H2 & s' & H3 & H4 & _); [reflexivity | not_null |].
  split; [exact H1|]. split; [exact H2|].
  exists s'. split; [exact H3 | exact H4].
Defined.
